(** * RFM customer segmentation of the e-commerce dashboard

    A shallow embedding of the RFM page of [dashboard/dashboard.py]
    (lines 259-306) and of the catch-all handler that closes the script
    (lines 488-490), together with the pandas operations that page calls
    ([groupby(...).agg], [Series.rank(method='first')], [pd.qcut]); then of
    the filters (lines 68-92), the overview metrics, the delay categories
    and the tables behind the charts of the RFM and geospatial pages.
    Rendering, file input and the float metrics (means, rates, shares) are
    not modelled.

    Numbers.  Recency (whole days), frequency (a count) and the ranks are
    integers.  The tables hold whole payment amounts and add them exactly;
    what is said of a sum of payments is said where pandas adds exactly
    too ([exact_sums]), and the float64 sum of a group is modelled on its
    own ([group_sum]).  Quantile edges come in two ways: exact, as
    rationals with denominator [q] kept multiplied by [q] ([quantile],
    [qcut], [rfm_engine]), and in an arithmetic that is a parameter
    ([qcut_with], [rfm_engine_with]), of which the exact edges and the
    float64 edges of pandas ([float64_arithmetic]) are instances. *)

From Stdlib Require Import QArith Lqa.
From Stdlib Require Floats.SpecFloat.
From stdpp Require Import gmap strings list sorting numbers.

Local Open Scope string_scope.
Local Open Scope list_scope.
Local Open Scope Z_scope.

(** ** The pandas operations used by the page *)

Module Pandas.

(** Python exceptions.  The page and the library calls it makes raise
    nothing but [ValueError]; the message keeps the fixed part of the
    text pandas prints. *)
Inductive exn : Type :=
| ValueError (msg : string).

Definition exn_class (e : exn) : string :=
  match e with ValueError _ => "ValueError" end.

Definition exn_msg (e : exn) : string :=
  match e with ValueError msg => msg end.

(** A computation that returns a value or raises. *)
Definition result (A : Type) : Type := exn + A.

Definition raise {A : Type} (e : exn) : result A := inl e.

Definition bind {A B : Type} (c : result A) (k : A → result B) : result B :=
  match c with
  | inl e => inl e
  | inr a => k a
  end.

Notation "x ←! c ; k" := (bind c (λ x, k))
  (at level 20, c at level 100, k at level 200, right associativity,
   format "x  ←!  c ;  '/' k").

(** *** Timestamps: nanoseconds since the epoch *)

Definition NS_PER_DAY : Z := 86400 * 1000000000.

(** [pd.Timedelta(days=d)]. *)
Definition Timedelta (d : Z) : Z := d * NS_PER_DAY.

(** [Timedelta.days]: whole days, rounded towards minus infinity. *)
Definition days (delta : Z) : Z := delta `div` NS_PER_DAY.

(** [Series.max()]; [None] is the [NaT] of an empty series. *)
Definition series_max (x : list Z) : option Z :=
  match x with
  | [] => None
  | t :: x' => Some (foldl Z.max t x')
  end.

(** [Series.sum()] of a column of whole numbers, added exactly; what
    pandas returns while no addition rounds or wraps around. *)
Definition series_sum (x : list Z) : Z := foldl Z.add 0 x.

(** [Series.nunique()]: the number of distinct values. *)
Definition nunique `{EqDecision A} (x : list A) : Z :=
  Z.of_nat (length (remove_dups x)).

(** *** [DataFrame.groupby(key)]

    The rows are distributed over their keys in one pass (each group
    keeps its rows in table order); the groups come out sorted by key
    ([sort=True] is the default). *)

Section groupby.
Context {A : Type} (key : A → string).

Definition groupby_add (m : gmap string (list A)) (r : A) : gmap string (list A) :=
  <[key r := default [] (m !! key r) ++ [r]]> m.

Definition groupby_map (df : list A) : gmap string (list A) :=
  foldl groupby_add ∅ df.

Definition groupby (df : list A) : list (string * list A) :=
  merge_sort (λ g1 g2, String.le g1.1 g2.1) (map_to_list (groupby_map df)).
End groupby.

(** *** [Series.rank(method='first')]

    The rank of a row is one plus the number of rows with a smaller
    value plus the number of earlier rows with the same value. *)

Definition count_lt (v : Z) (x : list Z) : nat :=
  length (filter (λ w, w < v) x).

Definition count_eq (v : Z) (x : list Z) : nat :=
  length (filter (λ w, w = v) x).

Definition rank_at (x : list Z) (i : nat) (v : Z) : Z :=
  1 + Z.of_nat (count_lt v x) + Z.of_nat (count_eq v (take i x)).

Definition rank_first (x : list Z) : list Z := imap (rank_at x) x.

(** *** [pd.qcut(x, q, labels)] *)

(** The [k]-th of the [q]-quantiles of the sorted values, times [q]
    (linear interpolation between the two neighbours of the position
    [k * (n - 1) / q]), in exact arithmetic.  The edges pandas computes
    in float64 are those of an [edge_arithmetic], below. *)
Definition quantile (q : Z) (sorted : list Z) (k : Z) : Z :=
  let n := Z.of_nat (length sorted) in
  let pos := k * (n - 1) in
  let lo := pos `div` q in
  let gamma := pos `mod` q in
  let a := sorted !!! Z.to_nat lo in
  let b := sorted !!! Z.to_nat (Z.min (lo + 1) (n - 1)) in
  q * a + gamma * (b - a).

(** The [q + 1] bin edges (times [q]) at the quantiles 0, 1/q, ..., 1. *)
Definition quantile_bins (q : Z) (x : list Z) : list Z :=
  quantile q (merge_sort Z.le x) <$> seqZ 0 (q + 1).

(** [bins.searchsorted(v, side='left')]: the index of the first edge
    that is not below [v]. *)
Fixpoint searchsorted_left (bins : list Z) (v : Z) : nat :=
  match bins with
  | [] => 0%nat
  | b :: bins' => if decide (b < v) then S (searchsorted_left bins' v) else 0%nat
  end.

(** The bin index of a value: right-closed bins, the lowest edge
    included ([include_lowest=True]). *)
Definition bin_id (q : Z) (bins : list Z) (v : Z) : nat :=
  if decide (Some (q * v) = head bins) then 1%nat
  else searchsorted_left bins (q * v).

(** The label of a bin index; indices [0] and [len(bins)] are masked
    to [NaN], here [None]. *)
Definition take_label (labels : list Z) (nbins : nat) (ids : nat) : option Z :=
  if decide (ids = 0%nat ∨ ids = nbins) then None
  else labels !! (ids - 1)%nat.

Definition bin_edges_msg : string := "Bin edges must be unique".
Definition labels_unique_msg : string := "labels must be unique if ordered=True".
Definition labels_length_msg : string :=
  "Bin labels must be one fewer than the number of bin edges".

(** An empty series has [NaN] at every quantile, so its edges are all
    equal. *)
Definition unique_bins (x bins : list Z) : Prop :=
  x ≠ [] ∧ NoDup bins.

(** [pd.qcut] over the exact edges. *)
Definition qcut (x : list Z) (q : Z) (labels : list Z) : result (list (option Z)) :=
  let bins := quantile_bins q x in
  if decide (¬ unique_bins x bins ∧ length bins ≠ 2%nat) then
    raise (ValueError bin_edges_msg)
  else if decide (¬ NoDup labels) then
    raise (ValueError labels_unique_msg)
  else if decide (length labels ≠ (length bins - 1)%nat) then
    raise (ValueError labels_length_msg)
  else
    inr ((λ v, take_label labels (length bins) (bin_id q bins v)) <$> x).

(** [Series.astype(int)] on the categorical column of labels. *)
Definition nan_msg : string := "Cannot convert float NaN to integer".

Definition astype_int (x : list (option Z)) : result (list Z) :=
  match mapM id x with
  | Some l => inr l
  | None => raise (ValueError nan_msg)
  end.

(** *** [pd.qcut] in the arithmetic of pandas

    [Series.quantile] works in float64: the quantiles
    [np.linspace(0, 1, q + 1)] are rounded (for [q = 5] the fourth one is
    0.6000000000000001) and so is every interpolation.  The edges it
    returns are close to those of [quantile_bins], but exact edges that
    coincide need not coincide in float64: for the six values 1, 2, 3, 3,
    5, 10 the third and the fourth exact edge are both 3, the float64
    ones are 3.0 and 3.000000000000001, and [pd.qcut] returns where
    [qcut] raises.  So the arithmetic is a parameter of what follows:
    [edge a x q k] is the [k]-th of the [q + 1] edges of the column [x],
    times [scale a q] (finitely many float64 numbers have a common
    denominator), and [repr a] is the text Python prints for the edges.
    The arithmetic of pandas is [float64_arithmetic], below. *)
Record edge_arithmetic : Type := {
  scale : Z → Z;
  edge : list Z → Z → Z → Z;
  repr : list Z → string
}.

(** [x.quantile(np.linspace(0, 1, q + 1))], times [scale a q]. *)
Definition series_quantile (a : edge_arithmetic) (x : list Z) (q : Z) : list Z :=
  edge a x q <$> seqZ 0 (q + 1).

(** The whole text of the [ValueError] for coinciding edges. *)
Definition duplicates_hint : string :=
  ".
You can drop duplicate edges by setting the 'duplicates' kwarg".

Definition bin_edges_text (bins : string) : string :=
  bin_edges_msg +:+ (": " +:+ bins +:+ duplicates_hint).

(** [pd.qcut(x, q, labels)] over the edges of [a]; an empty series has
    [NaN] edges, as in [unique_bins]. *)
Definition qcut_with (a : edge_arithmetic) (x : list Z) (q : Z) (labels : list Z) :
    result (list (option Z)) :=
  let bins := series_quantile a x q in
  if decide (¬ unique_bins x bins ∧ length bins ≠ 2%nat) then
    raise (ValueError (bin_edges_text (repr a bins)))
  else if decide (¬ NoDup labels) then
    raise (ValueError labels_unique_msg)
  else if decide (length labels ≠ (length bins - 1)%nat) then
    raise (ValueError labels_length_msg)
  else
    inr ((λ v, take_label labels (length bins) (bin_id (scale a q) bins v)) <$> x).

(** *** Sums of a float64 column

    A float64 number is an IEEE 754 binary64 value: [spec_float] with
    precision 53 and maximal exponent 1024; the operations round to
    nearest, ties to even. *)
Definition f64 : Type := SpecFloat.spec_float.

Definition f64_zero : f64 := SpecFloat.S754_zero false.

Definition f64_add : f64 → f64 → f64 := SpecFloat.SFadd 53 1024.

Definition f64_sub : f64 → f64 → f64 := SpecFloat.SFsub 53 1024.

Definition f64_div : f64 → f64 → f64 := SpecFloat.SFdiv 53 1024.

Definition f64_of_Z (z : Z) : f64 := SpecFloat.binary_normalize 53 1024 z 0 false.

(** The float64 number of sign [s] and whole magnitude [c] below 2^53:
    the mantissa is [c] shifted to 53 binary digits. *)
Definition f64_canonical (s : bool) (c : positive) : f64 :=
  let d := Z.pos (SpecFloat.digits2_pos c) in
  SpecFloat.S754_finite s (Nat.iter (Z.to_nat (53 - d)) xO c) (d - 53).

(** The rational a finite float64 number stands for. *)
Definition f64_value (x : f64) : option Q :=
  match x with
  | SpecFloat.S754_zero _ => Some (inject_Z 0)
  | SpecFloat.S754_finite s m e =>
      let n := if s then Z.neg m else Z.pos m in
      Some (if decide (0 ≤ e) then inject_Z (n * 2 ^ e)
            else Qmake n (Z.to_pos (2 ^ (- e))))
  | _ => None
  end.

Definition f64_is_nan (x : f64) : bool :=
  match x with
  | SpecFloat.S754_nan => true
  | _ => false
  end.

(** [groupby(...)[column].sum()] on a float64 column: the rows of a group
    are added in table order with Kahan's compensated summation
    ([group_sum] of [pandas/_libs/groupby.pyx]); [acc] holds the running
    sum and the compensation, which is reset when it is [NaN] (it is
    only after an infinite value). *)
Definition kahan_step (acc : f64 * f64) (val : f64) : f64 * f64 :=
  let y := f64_sub val acc.2 in
  let t := f64_add acc.1 y in
  let compensation := f64_sub (f64_sub t acc.1) y in
  (t, if f64_is_nan compensation then f64_zero else compensation).

Definition group_sum (x : list f64) : f64 :=
  (foldl kahan_step (f64_zero, f64_zero) x).1.

(** A sum of whole numbers in some order and grouping of the additions,
    as [Series.sum()] may form it, and its float64 value. *)
Inductive summation : Type :=
| Term (v : Z)
| Plus (l r : summation).

Fixpoint terms (t : summation) : list Z :=
  match t with
  | Term v => [v]
  | Plus l r => terms l ++ terms r
  end.

Fixpoint float_sum (t : summation) : f64 :=
  match t with
  | Term v => f64_of_Z v
  | Plus l r => f64_add (float_sum l) (float_sum r)
  end.

(** *** The float64 quantile edges

    [Series.quantile(qs)] hands [qs * 100.0] to [np.percentile], which
    divides by 100 again and interpolates linearly ([_quantile], [_lerp]
    and [_get_indexes] of numpy's [_function_base_impl.py]); every
    operation below is one float64 operation of that code.  The values
    of the column are whole numbers, which float64 holds exactly below
    2^53. *)
Definition f64_mul : f64 → f64 → f64 := SpecFloat.SFmul 53 1024.

Definition f64_leb : f64 → f64 → bool := SpecFloat.SFleb.

(** [np.floor(x).astype(np.intp)] of a finite number. *)
Definition f64_floor (x : f64) : Z :=
  match x with
  | SpecFloat.S754_finite s m e =>
      let n := if s then Z.neg m else Z.pos m in
      if decide (0 ≤ e) then n * 2 ^ e else n `div` 2 ^ (- e)
  | _ => 0
  end.

(** [np.linspace(0, 1, num)[k]]: [k * step + start], and [stop] itself
    at the last place. *)
Definition linspace (num k : Z) : f64 :=
  let step := f64_div (f64_sub (f64_of_Z 1) (f64_of_Z 0)) (f64_of_Z (num - 1)) in
  if decide (k = num - 1) then f64_of_Z 1
  else f64_add (f64_mul (f64_of_Z k) step) (f64_of_Z 0).

(** [qs * 100.0] in pandas, [np.true_divide(q, 100)] in numpy. *)
Definition percent (qv : f64) : f64 :=
  f64_div (f64_mul qv (f64_of_Z 100)) (f64_of_Z 100).

(** [_lerp(a, b, t)]. *)
Definition lerp (a b t : f64) : f64 :=
  let diff_b_a := f64_sub b a in
  if f64_leb (f64_div (f64_of_Z 1) (f64_of_Z 2)) t
  then f64_sub b (f64_mul diff_b_a (f64_sub (f64_of_Z 1) t))
  else f64_add a (f64_mul diff_b_a t).

(** [_quantile(arr, qv, method='linear')] on the sorted values: the
    virtual index [(n - 1) * qv], its two neighbours (both the last
    place, index [-1], when the virtual index is not below [n - 1]) and
    the interpolation between them. *)
Definition np_quantile (sorted : list Z) (qv : f64) : f64 :=
  let n := Z.of_nat (length sorted) in
  let virtual_index := f64_mul (f64_of_Z (n - 1)) qv in
  let above := f64_leb (f64_of_Z (n - 1)) virtual_index in
  let previous_index := if above then -1 else f64_floor virtual_index in
  let next_index := if above then -1 else previous_index + 1 in
  let at_index i := f64_of_Z (sorted !!! Z.to_nat (if decide (i < 0) then n + i else i)) in
  let gamma := f64_sub virtual_index (f64_of_Z previous_index) in
  lerp (at_index previous_index) (at_index next_index) gamma.

(** A finite float64 number times 2^1074, a whole number: the least
    exponent of float64 is -1074. *)
Definition f64_scaled (x : f64) : Z :=
  match x with
  | SpecFloat.S754_finite s m e => (if s then Z.neg m else Z.pos m) * 2 ^ (e + 1074)
  | _ => 0
  end.

(** The arithmetic of pandas: the float64 edges, over the common
    denominator 2^1074.  The printed form of the edges is abridged. *)
Definition float64_arithmetic : edge_arithmetic :=
  {| scale := λ _, 2 ^ 1074;
     edge := λ x q k,
       f64_scaled (np_quantile (merge_sort Z.le x) (percent (linspace (q + 1) k)));
     repr := λ bins, "Index([...], dtype='float64')" |}.

End Pandas.

(** ** The RFM page *)

Module Dashboard.
Import Pandas.

(** The columns of [filtered_df] the page reads. *)
Record order_row : Type := {
  customer_unique_id : string;
  order_id : string;
  order_purchase_timestamp : Z;
  total_payment : Z
}.

(** A row of [rfm_df] after [reset_index] and the renaming of line 272. *)
Record customer_rfm : Type := {
  customer_id : string;
  recency : Z;
  frequency : Z;
  monetary : Z
}.

(** A row of [rfm_df] once the scores and the segment are attached. *)
Record rfm_record : Type := {
  rfm : customer_rfm;
  r_score : Z;
  f_score : Z;
  m_score : Z;
  rfm_score : QArith_base.Q;
  segment : string
}.

(** Line 264. *)
Definition reference_date (filtered_df : list order_row) : option Z :=
  (λ t, t + Timedelta 1) <$> series_max (order_purchase_timestamp <$> filtered_df).

(** The aggregation lambda of line 267.  A group is never empty, so the
    [NaT] of [x.max()] does not arise. *)
Definition recency_of (reference_date : Z) (x : list Z) : Z :=
  match series_max x with
  | Some t => days (reference_date - t)
  | None => 0
  end.

Definition agg_group (reference_date : Z) (g : string * list order_row) : customer_rfm :=
  {| customer_id := g.1;
     recency := recency_of reference_date (order_purchase_timestamp <$> g.2);
     frequency := nunique (order_id <$> g.2);
     monetary := series_sum (total_payment <$> g.2) |}.

(** Lines 264-272.  The reference date of an empty table is [NaT]; the
    table then has no group and the aggregated frame is empty. *)
Definition rfm_aggregate (filtered_df : list order_row) : list customer_rfm :=
  match reference_date filtered_df with
  | None => []
  | Some ref => agg_group ref <$> groupby customer_unique_id filtered_df
  end.

(** Lines 286-304. *)
Definition rfm_segment (r f m : Z) : string :=
  if (r >=? 4) && (f >=? 4) && (m >=? 4) then "Champions"
  else if (r >=? 3) && (f >=? 4) then "Loyal Customers"
  else if (r >=? 4) && (f >=? 2) && (f <=? 3) then "Potential Loyalist"
  else if (r >=? 4) && (f =? 1) then "Recent Customers"
  else if (r <=? 2) && (f >=? 3) then "At Risk"
  else if (r <=? 2) && (m >=? 4) then "Can't Lose Them"
  else if (r <=? 2) && (f <=? 2) then "Hibernating"
  else "Need Attention".

(** Lines 279-283 and 306 for one customer. *)
Definition score_row (c : customer_rfm) (r f m : Z) : rfm_record :=
  {| rfm := c; r_score := r; f_score := f; m_score := m;
     rfm_score := QArith_base.Qmake (r + f + m) 3;
     segment := rfm_segment r f m |}.

Definition attach_scores (rfm_df : list customer_rfm) (r f m : list Z) : list rfm_record :=
  (λ p, score_row p.1 p.2.1 p.2.2.1 p.2.2.2) <$> zip rfm_df (zip r (zip f m)).

(** Lines 264-306: the RFM table of a filtered order table. *)
Definition rfm_engine (filtered_df : list order_row) : result (list rfm_record) :=
  let rfm_df := rfm_aggregate filtered_df in
  r_cat ←! qcut (recency <$> rfm_df) 5 [5; 4; 3; 2; 1];
  f_cat ←! qcut (rank_first (frequency <$> rfm_df)) 5 [1; 2; 3; 4; 5];
  m_cat ←! qcut (monetary <$> rfm_df) 5 [1; 2; 3; 4; 5];
  r ←! astype_int r_cat;
  f ←! astype_int f_cat;
  m ←! astype_int m_cat;
  inr (attach_scores rfm_df r f m).

(** What the page shows: the table, or the two messages of the
    [except Exception] handler of lines 488-490. *)
Inductive page : Type :=
| RfmPage (rfm_df : list rfm_record)
| ErrorPage (error info : string).

Definition rfm_page (filtered_df : list order_row) : page :=
  match rfm_engine filtered_df with
  | inr rfm_df => RfmPage rfm_df
  | inl e =>
      ErrorPage ("Error loading data: " +:+ exn_msg e)
        "Please ensure 'main_data.csv' is in the same directory as this dashboard file."
  end.

(** Lines 264-306 in the arithmetic [a]: the same steps as [rfm_engine],
    with the edges of [pd.qcut] taken from [a]. *)
Definition rfm_engine_with (a : edge_arithmetic) (filtered_df : list order_row) :
    result (list rfm_record) :=
  let rfm_df := rfm_aggregate filtered_df in
  r_cat ←! qcut_with a (recency <$> rfm_df) 5 [5; 4; 3; 2; 1];
  f_cat ←! qcut_with a (rank_first (frequency <$> rfm_df)) 5 [1; 2; 3; 4; 5];
  m_cat ←! qcut_with a (monetary <$> rfm_df) 5 [1; 2; 3; 4; 5];
  r ←! astype_int r_cat;
  f ←! astype_int f_cat;
  m ←! astype_int m_cat;
  inr (attach_scores rfm_df r f m).

Definition rfm_page_with (a : edge_arithmetic) (filtered_df : list order_row) : page :=
  match rfm_engine_with a filtered_df with
  | inr rfm_df => RfmPage rfm_df
  | inl e =>
      ErrorPage ("Error loading data: " +:+ exn_msg e)
        "Please ensure 'main_data.csv' is in the same directory as this dashboard file."
  end.

(** The customer and payment columns of [filtered_df] with the payment as
    pandas holds it, a float64 cell, and the [monetary] column of lines
    266-272 over them: one entry per customer, in ascending order of
    customer identifier. *)
Module Float64.

Record order_row : Type := {
  customer_unique_id : string;
  total_payment : f64
}.

Definition monetary (filtered_df : list order_row) : list (string * f64) :=
  (λ g, (g.1, group_sum (total_payment <$> g.2))) <$> groupby customer_unique_id filtered_df.

End Float64.

(** The same two columns of a table of whole amounts. *)
Definition float_rows (filtered_df : list order_row) : list Float64.order_row :=
  (λ r, {| Float64.customer_unique_id := customer_unique_id r;
           Float64.total_payment := f64_of_Z (total_payment r) |}) <$> filtered_df.

End Dashboard.

Import Pandas Dashboard.

(** ** The rule table of the specification *)

(** The eight rules in the order of the specification's table: a condition
    on the three scores and the label it assigns.  The last rule has no
    condition. *)
Definition segment_rules : list ((Z → Z → Z → bool) * string) :=
  [ (λ r f m, (4 <=? r) && (4 <=? f) && (4 <=? m), "Champions");
    (λ r f m, (3 <=? r) && (4 <=? f), "Loyal Customers");
    (λ r f m, (4 <=? r) && (2 <=? f) && (f <=? 3), "Potential Loyalist");
    (λ r f m, (4 <=? r) && (f =? 1), "Recent Customers");
    (λ r f m, (r <=? 2) && (3 <=? f), "At Risk");
    (λ r f m, (r <=? 2) && (4 <=? m), "Can't Lose Them");
    (λ r f m, (r <=? 2) && (f <=? 2), "Hibernating");
    (λ r f m, true, "Need Attention") ].

(** The rules that match a triple, in table order. *)
Definition matching_rules (r f m : Z) : list string :=
  (filter (λ rule, rule.1 r f m = true) segment_rules).*2.

(** First match wins. *)
Definition first_match (r f m : Z) : option string := head (matching_rules r f m).

Definition segment_labels : list string := segment_rules.*2.

(** A score: an integer from 1 to 5. *)
Definition is_score (s : Z) : Prop := 1 ≤ s ≤ 5.

(** ** The vocabulary of the specification *)

(** The rows of one customer, in table order. *)
Definition rows_of (c : string) (df : list order_row) : list order_row :=
  filter (λ r, customer_unique_id r = c) df.

(** The distinct customer identifiers and the distinct order identifiers of
    a table, as sets. *)
Definition customers (df : list order_row) : gset string :=
  list_to_set (customer_unique_id <$> df).

Definition orders (df : list order_row) : gset string :=
  list_to_set (order_id <$> df).

(** The exact sum of the payments of a table. *)
Definition payments (df : list order_row) : Z :=
  foldr Z.add 0 (total_payment <$> df).

(** [t] is the latest timestamp of a table. *)
Definition latest (t : Z) (df : list order_row) : Prop :=
  t ∈ order_purchase_timestamp <$> df ∧
  ∀ r, r ∈ df → order_purchase_timestamp r ≤ t.

(** The calendar day of a timestamp. *)
Definition day_of (t : Z) : Z := t `div` NS_PER_DAY.

(** The six quintile edges of a column are pairwise different. *)
Definition quintile_unique (x : list Z) : Prop :=
  unique_bins x (quantile_bins 5 x).

(** Quintile binning is possible on the three axes of a table. *)
Definition scorable (df : list order_row) : Prop :=
  let rfm_df := rfm_aggregate df in
  quintile_unique (recency <$> rfm_df) ∧
  quintile_unique (rank_first (frequency <$> rfm_df)) ∧
  quintile_unique (monetary <$> rfm_df).

(** The category [pd.qcut] gives a value [v] of the column [x] under the
    five labels [labels], when the edges of [x] are unique. *)
Definition quintile_label (labels x : list Z) (v : Z) : option Z :=
  take_label labels 6 (bin_id 5 (quantile_bins 5 x) v).

(** The customer identifiers of an RFM table, in table order. *)
Definition ids (out : list rfm_record) : list string :=
  (λ rec, customer_id (rfm rec)) <$> out.

(** The output contract: one record per distinct customer of the input,
    none missing and none twice, each with one of the eight labels. *)
Definition one_record_per_customer (df : list order_row) (out : list rfm_record) : Prop :=
  NoDup (ids out) ∧
  (∀ c, c ∈ ids out ↔ c ∈ customers df) ∧
  length out = size (customers df) ∧
  ∀ rec, rec ∈ out → segment rec ∈ segment_labels.

(** Example tables. *)
Definition order (c o : string) (day p : Z) : order_row :=
  {| customer_unique_id := c; order_id := o;
     order_purchase_timestamp := Timedelta day; total_payment := p |}.

Definition no_orders : list order_row := [].

Definition one_customer : list order_row :=
  [ order "ana" "o1" 1 25; order "ana" "o2" 5 17 ].

Definition two_customers : list order_row :=
  [ order "bo" "o1" 1 25; order "ana" "o2" 5 17 ].

(** Five customers with one order each, entered in no particular order;
    the fourth customer's order has two items. *)
Definition five_customers : list order_row :=
  [ order "c3" "o1" 3 30;
    order "c1" "o2" 1 10;
    order "c5" "o3" 5 1000;
    order "c4" "o5" 4 25;
    order "c2" "o4" 2 20;
    order "c4" "o5" 4 15 ].

(** The table the engine returns for [five_customers]. *)
Definition five_customers_rfm : list rfm_record :=
  attach_scores
    [ {| customer_id := "c1"; recency := 5; frequency := 1; monetary := 10 |};
      {| customer_id := "c2"; recency := 4; frequency := 1; monetary := 20 |};
      {| customer_id := "c3"; recency := 3; frequency := 1; monetary := 30 |};
      {| customer_id := "c4"; recency := 2; frequency := 1; monetary := 40 |};
      {| customer_id := "c5"; recency := 1; frequency := 1; monetary := 1000 |} ]
    [1; 2; 3; 4; 5] [1; 2; 3; 4; 5] [1; 2; 3; 4; 5].

(** The number of distinct values of a column, and a table with fewer
    than five of them on some axis. *)
Definition distinct_values (x : list Z) : nat := size (list_to_set x : gset Z).

Definition degenerate (df : list order_row) : Prop :=
  let rfm_df := rfm_aggregate df in
  (distinct_values (recency <$> rfm_df) < 5)%nat ∨
  (distinct_values (frequency <$> rfm_df) < 5)%nat ∨
  (distinct_values (monetary <$> rfm_df) < 5)%nat.

(** The text of the error page for the failure of [pd.qcut]. *)
Definition bin_edges_page : page :=
  ErrorPage "Error loading data: Bin edges must be unique"
    "Please ensure 'main_data.csv' is in the same directory as this dashboard file.".


(** ** The filters and the other pages *)

(** A float64 cell: a number or [NaN] (infinities do not occur in the
    columns read here).  Comparing [NaN] with anything is false. *)
Inductive float64 : Type :=
| NaN
| Finite (q : Q).

Definition float_le (x : float64) (c : Q) : bool :=
  match x with
  | NaN => false
  | Finite q => Qle_bool q c
  end.

(** The columns of [main_df] read by the filters and by the delivery and
    geospatial pages, beside those of the RFM page. *)
Record main_row : Type := {
  purchase : order_row;
  customer_state : string;
  delivery_delay_days : float64
}.

(** [Series.dt.date]: the calendar date of a timestamp, as a day number. *)
Definition date_of (r : main_row) : Z :=
  day_of (order_purchase_timestamp (purchase r)).

(** [Series.min()]; [None] is the [NaT] of an empty series. *)
Definition series_min (x : list Z) : option Z :=
  match x with
  | [] => None
  | t :: x' => Some (foldl Z.min t x')
  end.

(** Lines 68-69: the bounds and the initial value of the date widget. *)
Definition min_date (main_df : list main_row) : option Z :=
  day_of <$> series_min ((order_purchase_timestamp ∘ purchase) <$> main_df).

Definition max_date (main_df : list main_row) : option Z :=
  day_of <$> series_max ((order_purchase_timestamp ∘ purchase) <$> main_df).

(** Lines 79-85.  The date widget returns one date while a range is being
    picked and two once it is complete. *)
Definition date_filter (date_range : list Z) (main_df : list main_row) : list main_row :=
  match date_range with
  | [d0; d1] => filter (λ r, d0 ≤ date_of r ∧ date_of r ≤ d1) main_df
  | _ => main_df
  end.

(** Line 88: the options of the state widget. *)
Definition states (main_df : list main_row) : list string :=
  "All" :: merge_sort String.le (remove_dups (customer_state <$> main_df)).

(** Lines 91-92. *)
Definition state_filter (selected_state : string) (df : list main_row) : list main_row :=
  if decide (selected_state ≠ "All") then
    filter (λ r, customer_state r = selected_state) df
  else df.

(** Lines 79-92. *)
Definition filtered_df (date_range : list Z) (selected_state : string)
    (main_df : list main_row) : list main_row :=
  state_filter selected_state (date_filter date_range main_df).

(** Lines 102, 106 and 110: the metrics of the overview page. *)
Definition total_orders (df : list order_row) : Z := nunique (order_id <$> df).

Definition total_customers (df : list order_row) : Z :=
  nunique (customer_unique_id <$> df).

Definition total_revenue (df : list order_row) : Z :=
  series_sum (total_payment <$> df).

(** Lines 214-222. *)
Definition categorize_delay (days : float64) : string :=
  if float_le days 0 then "On Time/Early"
  else if float_le days 7 then "1-7 days late"
  else if float_le days 14 then "8-14 days late"
  else ">14 days late".

(** Line 226. *)
Definition delay_cat_order : list string :=
  [ "On Time/Early"; "1-7 days late"; "8-14 days late"; ">14 days late" ].

(** Lines 312 and 316: [len(rfm_df[rfm_df['segment'] == s])]. *)
Definition segment_size (s : string) (rfm_df : list rfm_record) : nat :=
  length (filter (λ rec, segment rec = s) rfm_df).

Definition champions (rfm_df : list rfm_record) : nat := segment_size "Champions" rfm_df.

Definition at_risk (rfm_df : list rfm_record) : nat := segment_size "At Risk" rfm_df.

(** [sort_values(ascending=True)] and [sort_values(ascending=False)] on
    the values of a series indexed by labels. *)
Definition ascending {A} (a b : A * nat) : Prop := (a.2 ≤ b.2)%nat.

Definition descending {A} (a b : A * Z) : Prop := b.2 ≤ a.2.

#[global] Instance ascending_dec {A} : RelDecision (@ascending A).
Proof. intros a b. unfold ascending. apply _. Defined.

#[global] Instance descending_dec {A} : RelDecision (@descending A).
Proof. intros a b. unfold descending. apply _. Defined.

(** Line 334: [value_counts()] lists the values that occur with the number
    of their occurrences; [sort_values(ascending=True)] puts the smallest
    count first.  pandas does not fix the order of equal counts; here they
    keep the alphabetical order of the labels. *)
Definition segment_counts (rfm_df : list rfm_record) : list (string * nat) :=
  merge_sort ascending ((λ g, (g.1, length g.2)) <$> groupby segment rfm_df).

(** Line 349: the monetary total of each segment, the largest first (equal
    totals in an order pandas does not fix). *)
Definition segment_revenue (rfm_df : list rfm_record) : list (string * Z) :=
  merge_sort descending
    ((λ g, (g.1, series_sum ((monetary ∘ rfm) <$> g.2))) <$> groupby segment rfm_df).

(** Lines 387-395: a row of [state_analysis] under the column names of
    line 393, and the table sorted by revenue, the largest first (equal
    revenues in an order pandas does not fix). *)
Record state_row : Type := {
  st_state : string;
  st_customers : Z;
  st_orders : Z;
  st_revenue : Z
}.

Definition agg_state (g : string * list main_row) : state_row :=
  {| st_state := g.1;
     st_customers := nunique ((customer_unique_id ∘ purchase) <$> g.2);
     st_orders := nunique ((order_id ∘ purchase) <$> g.2);
     st_revenue := series_sum ((total_payment ∘ purchase) <$> g.2) |}.

(** [sort_values('revenue', ascending=False)]. *)
Definition by_revenue (a b : state_row) : Prop := st_revenue b ≤ st_revenue a.

#[global] Instance by_revenue_dec : RelDecision by_revenue.
Proof. intros a b. unfold by_revenue. apply _. Defined.

Definition state_analysis (df : list main_row) : list state_row :=
  merge_sort by_revenue (agg_state <$> groupby customer_state df).

(** Lines 452-456: the slices and the labels of the pie chart.  These
    lines are reached when [state_analysis] has at least ten rows: with
    fewer, [ax.barh(range(10), ...)] of line 423 raises first. *)
Definition pie_data (state_analysis : list state_row) : list Z :=
  (st_revenue <$> take 10 state_analysis) ++
  [series_sum (st_revenue <$> drop 10 state_analysis)].

Definition pie_labels (state_analysis : list state_row) : list string :=
  (st_state <$> take 10 state_analysis) ++ ["Others"].

(** Three rows of [main_df]: two customers, two states, one missing delay. *)
Definition main_example : list main_row :=
  [ {| purchase := order "c1" "o1" 1 10; customer_state := "SP";
       delivery_delay_days := Finite (-3) |};
    {| purchase := order "c2" "o2" 2 20; customer_state := "RJ";
       delivery_delay_days := Finite 9 |};
    {| purchase := order "c1" "o3" 4 5; customer_state := "SP";
       delivery_delay_days := NaN |} ].

(** Five customers on five days who all spent the same. *)
Definition five_customers_same_spend : list order_row :=
  [ order "c1" "o1" 1 7; order "c2" "o2" 2 7; order "c3" "o3" 3 7;
    order "c4" "o4" 4 7; order "c5" "o5" 5 7 ].

(** ** Quantile edges: exact and float64 *)

(** The arithmetic of [quantile]: exact edges over the denominator [q].
    The printed form of the edges is abridged. *)
Definition exact_arithmetic : edge_arithmetic :=
  {| scale := λ q, q;
     edge := λ x q k, quantile q (merge_sort Z.le x) k;
     repr := λ bins, "Index([...], dtype='float64')" |}.

(** The three columns that are binned. *)
Definition axes (df : list order_row) : list (list Z) :=
  let rfm_df := rfm_aggregate df in
  [ recency <$> rfm_df; rank_first (frequency <$> rfm_df); monetary <$> rfm_df ].

(** What is asked of the quintile edges of a column that is not empty,
    the laws of quantiles: the lowest edge is the least value and the
    highest edge the greatest value of the column, and the edges do not
    decrease.  The exact edges obey them on every column
    ([exact_lawful]); for the float64 edges the laws are decidable and
    are checked by evaluation on the tables at hand. *)
Definition lawful (a : edge_arithmetic) (x : list Z) : Prop :=
  x ≠ [] →
  0 < scale a 5 ∧
  Some (edge a x 5 0) = Z.mul (scale a 5) <$> series_min x ∧
  Some (edge a x 5 5) = Z.mul (scale a 5) <$> series_max x ∧
  Sorted Z.le (series_quantile a x 5).

Definition lawful_on (a : edge_arithmetic) (df : list order_row) : Prop :=
  Forall (lawful a) (axes df).

(** The six quintile edges of a column, as [a] computes them, are
    pairwise different; and so they are on the three axes of a table. *)
Definition edges_unique (a : edge_arithmetic) (x : list Z) : Prop :=
  unique_bins x (series_quantile a x 5).

Definition scorable_with (a : edge_arithmetic) (df : list order_row) : Prop :=
  Forall (edges_unique a) (axes df).

(** The category [pd.qcut] gives a value [v] of the column [x] under the
    five labels [labels], over the edges of [a]. *)
Definition edge_label (a : edge_arithmetic) (labels x : list Z) (v : Z) : option Z :=
  take_label labels 6 (bin_id (scale a 5) (series_quantile a x 5) v).

(** The error page for an exception with the text [msg]. *)
Definition error_page (msg : string) : page :=
  ErrorPage ("Error loading data: " +:+ msg)
    "Please ensure 'main_data.csv' is in the same directory as this dashboard file.".

(** The tables of this development hold whole amounts and [series_sum]
    adds them exactly.  pandas adds float64 numbers, and its sum is that
    exact sum when no addition rounds: so it is when the absolute
    amounts total less than 2^53, in whatever order and grouping they
    are added ([float_sum_whole]) and in the compensated sum of a group
    ([group_sum_whole]). *)
Definition exact_sums (df : list order_row) : Prop :=
  series_sum ((Z.abs ∘ total_payment) <$> df) < 2 ^ 53.

(** The float64 number nearest to [n / 10 ^ places]. *)
Definition decimal (n : Z) (places : nat) : f64 :=
  f64_div (f64_of_Z n) (f64_of_Z (10 ^ Z.of_nat places)).

(** Six customers, two of whom spent the same. *)
Definition six_customers : list order_row :=
  [ order "c1" "o1" 1 3; order "c2" "o2" 2 2; order "c3" "o3" 4 5;
    order "c4" "o4" 3 3; order "c5" "o5" 6 10; order "c6" "o6" 7 1 ].

(** One customer who paid 0.1 and 0.2. *)
Definition two_payments : list Float64.order_row :=
  [ {| Float64.customer_unique_id := "ana"; Float64.total_payment := decimal 1 1 |};
    {| Float64.customer_unique_id := "ana"; Float64.total_payment := decimal 2 1 |} ].

(** Eleven states with one order each. *)
Definition eleven_states : list main_row :=
  (λ p, {| purchase := order p.1.1 p.1.2 1 p.2; customer_state := p.1.1;
           delivery_delay_days := Finite 0 |}) <$>
  [ ("SP", "o1", 110); ("RJ", "o2", 100); ("MG", "o3", 90); ("RS", "o4", 80);
    ("PR", "o5", 70); ("SC", "o6", 60); ("BA", "o7", 50); ("DF", "o8", 40);
    ("GO", "o9", 30); ("ES", "o10", 20); ("PE", "o11", 10) ].

(** ** Segmentation *)

Section segmentation.

Lemma geb_leb (a b : Z) : (a >=? b) = (b <=? a).
Proof. apply Z.geb_leb. Qed.

(** The cascade of [rfm_segment] is the first-match reading of the
    rule table. *)
Lemma rfm_segment_first_match (r f m : Z) :
  first_match r f m = Some (rfm_segment r f m).
Proof.
  unfold first_match, matching_rules, rfm_segment, segment_rules.
  rewrite !geb_leb.
  repeat (rewrite filter_cons; cbn [fst snd];
          first
            [ rewrite decide_True by reflexivity; reflexivity
            | match goal with
              | |- context [decide (?b = true)] =>
                  destruct b eqn:?;
                  [rewrite decide_True by done; reflexivity
                  |rewrite decide_False by done]
              end ]).
Qed.

Lemma segment_labels_NoDup : NoDup segment_labels.
Proof. unfold segment_labels, segment_rules. cbn. by apply (bool_decide_unpack _). Qed.

Lemma rfm_segment_label (r f m : Z) : rfm_segment r f m ∈ segment_labels.
Proof.
  pose proof (rfm_segment_first_match r f m) as H.
  unfold first_match in H. apply head_Some_elem_of in H.
  unfold matching_rules in H. unfold segment_labels.
  apply list_elem_of_fmap in H as [rule [-> H]].
  apply list_elem_of_filter in H as [_ H].
  apply list_elem_of_fmap. eauto.
Qed.

(** C1.  The segmentation rules are total and are evaluated in the order
    1-8 of the table, the first matching rule winning: for every integer
    triple of scores (in particular every triple with components from 1
    to 5) [rfm_segment] returns the label of the first rule of the table
    that matches, which is one of the eight pairwise different labels.
    The triple r=4, f=4, m=1 does not match rule 1 (Champions) and the
    first rule it matches is rule 2, so it is a Loyal Customer. *)
Theorem rfm_segment_total_ordered :
  (∀ r f m : Z,
     first_match r f m = Some (rfm_segment r f m) ∧
     rfm_segment r f m ∈ segment_labels) ∧
  NoDup segment_labels ∧ length segment_labels = 8%nat ∧
  (∃ rule1 rule2 rest,
     segment_rules = rule1 :: rule2 :: rest ∧
     rule1.2 = "Champions" ∧ rule1.1 4 4 1 = false ∧
     rule2.2 = "Loyal Customers" ∧ rule2.1 4 4 1 = true) ∧
  rfm_segment 4 4 1 = "Loyal Customers".
Proof.
  split; [|split; [|split; [|split]]].
  - intros r f m. split.
    + apply rfm_segment_first_match.
    + apply rfm_segment_label.
  - apply segment_labels_NoDup.
  - reflexivity.
  - unfold segment_rules. do 3 eexists. split; [reflexivity|].
    cbn. repeat split.
  - reflexivity.
Qed.

Lemma rfm_segment_need_attention (r f m : Z) :
  is_score r → is_score f → is_score m →
  rfm_segment r f m = "Need Attention" ↔ r = 3 ∧ f ≤ 3.
Proof.
  unfold is_score, rfm_segment. intros Hr Hf Hm.
  rewrite !geb_leb.
  repeat match goal with
         | |- context [?a <=? ?b] => destruct (Z.leb_spec a b)
         | |- context [?a =? ?b] => destruct (Z.eqb_spec a b)
         end; cbn; split; first [discriminate | lia | intros _; lia | done].
Qed.

(** C10.  For scores from 1 to 5 the fallback label 'Need Attention' is
    assigned exactly when r_score = 3 and f_score <= 3, and the monetary
    score has no influence on it. *)
Theorem need_attention_iff (r f m : Z) :
  is_score r → is_score f → is_score m →
  (rfm_segment r f m = "Need Attention" ↔ r = 3 ∧ f ≤ 3) ∧
  (∀ m', is_score m' →
     (rfm_segment r f m = "Need Attention" ↔ rfm_segment r f m' = "Need Attention")).
Proof.
  intros Hr Hf Hm. split.
  - by apply rfm_segment_need_attention.
  - intros m' Hm'. rewrite !rfm_segment_need_attention by done. done.
Qed.

Lemma need_attention_iff_witness :
  (rfm_segment 3 2 5 = "Need Attention" ↔ 3 = 3 ∧ 2 ≤ 3) ∧
  (∀ m', is_score m' →
     (rfm_segment 3 2 5 = "Need Attention" ↔ rfm_segment 3 2 m' = "Need Attention")).
Proof. apply (need_attention_iff 3 2 5); unfold is_score; lia. Defined.

End segmentation.

(** ** Grouping *)

Section groupby_facts.
Context {A : Type} (key : A → string).

Implicit Types (df : list A) (k : string) (g : list A).

Lemma groupby_map_snoc df r :
  groupby_map key (df ++ [r]) = groupby_add key (groupby_map key df) r.
Proof. unfold groupby_map. apply foldl_snoc. Qed.

(** One pass over the table leaves under each key the rows that carry
    it, in table order, and no entry for a key without rows. *)
Lemma groupby_map_lookup df k :
  groupby_map key df !! k =
    if decide (filter (λ r, key r = k) df = []) then None
    else Some (filter (λ r, key r = k) df).
Proof.
  induction df as [|r df IH] using rev_ind.
  - by rewrite filter_nil, decide_True.
  - rewrite groupby_map_snoc, list.filter_app. unfold groupby_add.
    destruct (decide (key r = k)) as [Hk|Hk].
    + assert (filter (λ r', key r' = k) [r] = [r]) as ->.
      { by rewrite filter_cons, filter_nil, decide_True. }
      subst k. rewrite lookup_insert_eq, IH.
      rewrite (decide_False (P:=_ ++ [r] = [])) by (by intros [_ ?]%app_nil).
      by case_decide as Hnil; simpl; [rewrite Hnil|].
    + assert (filter (λ r', key r' = k) [r] = []) as ->.
      { by rewrite filter_cons, filter_nil, decide_False. }
      rewrite lookup_insert_ne, IH by done.
      by rewrite app_nil_r.
Qed.

Lemma groupby_perm df : groupby key df ≡ₚ map_to_list (groupby_map key df).
Proof. apply merge_sort_Permutation. Qed.

Lemma elem_of_groupby df k g :
  (k, g) ∈ groupby key df ↔ g = filter (λ r, key r = k) df ∧ g ≠ [].
Proof.
  rewrite groupby_perm, elem_of_map_to_list, groupby_map_lookup.
  case_decide as Hnil; split.
  - done.
  - intros [-> ?]. done.
  - intros [= <-]. done.
  - by intros [-> _].
Qed.

Lemma groupby_keys_NoDup df : NoDup (groupby key df).*1.
Proof. rewrite groupby_perm. apply NoDup_fst_map_to_list. Qed.

Lemma elem_of_groupby_keys df k :
  k ∈ (groupby key df).*1 ↔ k ∈ key <$> df.
Proof.
  rewrite !list_elem_of_fmap. split.
  - intros [[k' g] [-> [-> Hg]%elem_of_groupby]]. simpl.
    destruct (filter (λ r, key r = k') df) as [|r g'] eqn:Hf; [done|].
    assert (r ∈ filter (λ r, key r = k') df) as Hr by (rewrite Hf; left).
    apply list_elem_of_filter in Hr as [Hr ?]. eauto.
  - intros (r & -> & Hr). exists (key r, filter (λ r', key r' = key r) df).
    split; [done|]. apply elem_of_groupby. split; [done|].
    intros Hnil. by eapply (filter_nil_not_elem_of _ _ r), Hr.
Qed.

Lemma groupby_nil : groupby key [] = [].
Proof. reflexivity. Qed.

(** The groups come out in ascending order of their keys. *)
Lemma groupby_keys_sorted df : Sorted String.le (groupby key df).*1.
Proof.
  apply (Sorted_fmap fst (λ p1 p2, String.le p1.1 p2.1)); [done|].
  apply Sorted_merge_sort. intros p1 p2. apply (total String.le).
Qed.

End groupby_facts.

Lemma filter_none {A} (P : A → Prop) `{∀ x, Decision (P x)} (l : list A) :
  (∀ x, x ∈ l → ¬ P x) → filter P l = [].
Proof.
  induction l as [|y l IH]; intros HP; [done|].
  rewrite filter_cons, decide_False by (apply HP; left).
  apply IH. intros x Hx. apply HP. by right.
Qed.

(** A list without duplicates under [f] has one element per value of [f]. *)
Lemma filter_NoDup_fmap {A B} `{EqDecision B} (f : A → B) (l : list A) (x : A) :
  NoDup (f <$> l) → x ∈ l → filter (λ y, f y = f x) l = [x].
Proof.
  induction l as [|y l IH]; intros Hnd Hx.
  - by apply elem_of_nil in Hx.
  - rewrite fmap_cons in Hnd. apply list.NoDup_cons in Hnd as [Hy Hnd].
    rewrite filter_cons. apply elem_of_cons in Hx as [->|Hx].
    + rewrite decide_True by done. f_equal.
      apply filter_none. intros z Hz Hfz.
      apply Hy. rewrite <- Hfz. by apply list_elem_of_fmap_2.
    + rewrite decide_False; [by apply IH|].
      intros Hfy. apply Hy. rewrite Hfy. by apply list_elem_of_fmap_2.
Qed.

(** ** Column aggregations *)

Lemma foldl_add_foldr (a : Z) (x : list Z) :
  foldl Z.add a x = a + foldr Z.add 0 x.
Proof.
  revert a. induction x as [|v x IH]; intros a; simpl; [lia|].
  rewrite IH. lia.
Qed.

Lemma series_sum_exact (x : list Z) : series_sum x = foldr Z.add 0 x.
Proof. unfold series_sum. by rewrite foldl_add_foldr. Qed.

Lemma nunique_size (x : list string) :
  nunique x = Z.of_nat (size (list_to_set x : gset string)).
Proof.
  unfold nunique. f_equal.
  rewrite <- (size_list_to_set (C:=gset string)) by apply NoDup_remove_dups.
  f_equal. apply set_eq. intros y.
  by rewrite !elem_of_list_to_set, elem_of_remove_dups.
Qed.

Lemma foldl_max_spec (t : Z) (x : list Z) :
  foldl Z.max t x ∈ t :: x ∧ ∀ u, u ∈ t :: x → u ≤ foldl Z.max t x.
Proof.
  revert t. induction x as [|v x IH]; intros t; simpl.
  - split; [left|]. by intros u ->%list_elem_of_singleton.
  - destruct (IH (Z.max t v)) as [Hin Hle]. split.
    + apply elem_of_cons in Hin as [Hin|Hin]; [|by do 2 right].
      rewrite Hin. destruct (Z.max_spec t v) as [[_ ->]|[_ ->]];
        [right; left|left].
    + intros u Hu. rewrite !elem_of_cons in Hu.
      destruct Hu as [->|[->|Hu]].
      * etrans; [apply (Z.le_max_l _ v)|]. apply Hle. left.
      * etrans; [apply (Z.le_max_r t)|]. apply Hle. left.
      * apply Hle. by right.
Qed.

Lemma series_max_spec (x : list Z) (t : Z) :
  series_max x = Some t → t ∈ x ∧ ∀ u, u ∈ x → u ≤ t.
Proof.
  destruct x as [|v x]; [done|]. intros [= <-]. apply foldl_max_spec.
Qed.

Lemma series_max_is_Some (x : list Z) : x ≠ [] → is_Some (series_max x).
Proof. destruct x; [done|]. by eexists. Qed.

(** ** Aggregation (lines 264-272) *)

Section aggregation.
Implicit Types (df : list order_row) (c : string) (rec : customer_rfm).

Lemma reference_date_None df : reference_date df = None → df = [].
Proof. unfold reference_date. by destruct df. Qed.

Lemma reference_date_latest df ref :
  reference_date df = Some ref →
  ∃ T, ref = T + Timedelta 1 ∧ latest T df.
Proof.
  unfold reference_date. intros Href.
  apply fmap_Some in Href as (T & HT & ->). exists T. split; [done|].
  apply series_max_spec in HT as [Hin Hle]. split; [done|].
  intros r Hr. apply Hle. by apply list_elem_of_fmap_2.
Qed.

Lemma rfm_aggregate_ids df :
  customer_id <$> rfm_aggregate df = (groupby customer_unique_id df).*1.
Proof.
  unfold rfm_aggregate. destruct (reference_date df) as [ref|] eqn:Href.
  - by rewrite <- list_fmap_compose.
  - by rewrite (reference_date_None df Href).
Qed.

Lemma rfm_aggregate_NoDup df : NoDup (customer_id <$> rfm_aggregate df).
Proof. rewrite rfm_aggregate_ids. apply groupby_keys_NoDup. Qed.


Lemma elem_of_rfm_aggregate_ids df c :
  c ∈ customer_id <$> rfm_aggregate df ↔ c ∈ customers df.
Proof.
  rewrite rfm_aggregate_ids, elem_of_groupby_keys.
  unfold customers. by rewrite elem_of_list_to_set.
Qed.

Lemma length_rfm_aggregate df :
  length (rfm_aggregate df) = size (customers df).
Proof.
  rewrite <- (length_fmap customer_id).
  rewrite <- (size_list_to_set (C:=gset string)) by apply rfm_aggregate_NoDup.
  f_equal. apply set_eq. intros c.
  by rewrite elem_of_list_to_set, elem_of_rfm_aggregate_ids.
Qed.

(** Every aggregated row is the aggregate of the rows of its customer. *)
Lemma elem_of_rfm_aggregate df rec :
  rec ∈ rfm_aggregate df →
  ∃ ref, reference_date df = Some ref ∧
         rows_of (customer_id rec) df ≠ [] ∧
         rec = agg_group ref (customer_id rec, rows_of (customer_id rec) df).
Proof.
  unfold rfm_aggregate. destruct (reference_date df) as [ref|]; [|by intros ?%elem_of_nil].
  intros ([c g] & -> & Hg)%list_elem_of_fmap.
  apply elem_of_groupby in Hg as [-> Hne]. exists ref. by repeat split.
Qed.

Lemma rows_of_latest c df :
  rows_of c df ≠ [] →
  ∃ t, series_max (order_purchase_timestamp <$> rows_of c df) = Some t ∧
       latest t (rows_of c df).
Proof.
  intros Hne.
  destruct (series_max_is_Some (order_purchase_timestamp <$> rows_of c df))
    as [t Ht]; [by intros ?%fmap_nil_inv|].
  exists t. split; [done|].
  apply series_max_spec in Ht as [Hin Hle]. split; [done|].
  intros r Hr. apply Hle. by apply list_elem_of_fmap_2.
Qed.

Lemma latest_rows_of_le c df t T :
  latest t (rows_of c df) → latest T df → t ≤ T.
Proof.
  intros [(r & -> & Hr)%list_elem_of_fmap _] [_ HT].
  apply HT. by apply list_elem_of_filter in Hr as [_ ?].
Qed.

Lemma days_ge_1 (d : Z) : NS_PER_DAY ≤ d → 1 ≤ days d.
Proof.
  intros Hd. unfold days.
  apply (Z.div_le_lower_bound d NS_PER_DAY 1); unfold NS_PER_DAY in *; lia.
Qed.

(** The aggregate of one customer with two orders. *)
Lemma rfm_aggregate_two_orders c o1 o2 t1 t2 p1 p2 :
  o1 ≠ o2 →
  rfm_aggregate
    [ {| customer_unique_id := c; order_id := o1;
         order_purchase_timestamp := t1; total_payment := p1 |};
      {| customer_unique_id := c; order_id := o2;
         order_purchase_timestamp := t2; total_payment := p2 |} ] =
  [ {| customer_id := c; recency := days (Timedelta 1);
       frequency := 2; monetary := p1 + p2 |} ].
Proof.
  intros Ho. unfold rfm_aggregate, reference_date, groupby, groupby_map.
  cbn [fmap list_fmap order_purchase_timestamp series_max foldl option_fmap option_map].
  unfold groupby_add. cbn [customer_unique_id].
  rewrite lookup_empty. cbn [default app].
  rewrite lookup_insert_eq. cbn [default app].
  rewrite insert_insert_eq, insert_empty, map_to_list_singleton.
  cbn. unfold agg_group, recency_of, nunique, series_sum. cbn.
  destruct (decide_rel elem_of o2 []) as [?%elem_of_nil|_]; [done|].
  destruct (decide_rel elem_of o1 [o2]) as [?%list_elem_of_singleton|_]; [done|].
  replace (t1 `max` t2 + Timedelta 1 - t1 `max` t2) with (Timedelta 1) by lia.
  replace (0 + p1 + p2) with (p1 + p2) by lia.
  reflexivity.
Qed.

(** C6.  The recency of a customer is the number of whole days from the
    reference instant, which is the latest purchase timestamp of the whole
    filtered input plus one day, back to the latest purchase timestamp of
    that customer.  For one customer with two orders, placed on days 1 and
    5, the reference day is 6, the recency 1, the frequency 2 and the
    monetary value the sum of the two payments. *)
Theorem recency_from_reference :
  (∀ df rec,
     rec ∈ rfm_aggregate df →
     ∃ T t,
       latest T df ∧ reference_date df = Some (T + Timedelta 1) ∧
       latest t (rows_of (customer_id rec) df) ∧
       recency rec = days (T + Timedelta 1 - t) ∧ 1 ≤ recency rec) ∧
  (∀ c o1 o2 t1 t5 p1 p2,
     o1 ≠ o2 → day_of t1 = 1 → day_of t5 = 5 →
     let df :=
       [ {| customer_unique_id := c; order_id := o1;
            order_purchase_timestamp := t1; total_payment := p1 |};
         {| customer_unique_id := c; order_id := o2;
            order_purchase_timestamp := t5; total_payment := p2 |} ] in
     day_of <$> reference_date df = Some 6 ∧
     rfm_aggregate df =
       [ {| customer_id := c; recency := 1; frequency := 2;
            monetary := p1 + p2 |} ]).
Proof.
  split.
  - intros df rec Hrec.
    apply elem_of_rfm_aggregate in Hrec as (ref & Href & Hne & Heq).
    destruct (reference_date_latest df ref Href) as (T & -> & HT).
    destruct (rows_of_latest _ _ Hne) as (t & Hmax & Ht).
    exists T, t. split; [done|]. split; [done|]. split; [done|].
    assert (recency rec = days (T + Timedelta 1 - t)) as Hr.
    { rewrite Heq. simpl. unfold recency_of. by rewrite Hmax. }
    split; [done|]. rewrite Hr. apply days_ge_1.
    pose proof (latest_rows_of_le _ _ _ _ Ht HT).
    unfold Timedelta. lia.
  - intros c o1 o2 t1 t5 p1 p2 Ho H1 H5 df.
    assert (t1 ≤ t5) as Hle.
    { unfold day_of in *. change NS_PER_DAY with 86400000000000 in *.
      Z.to_euclidean_division_equations. lia. }
    split.
    + unfold df, reference_date. cbn. rewrite Z.max_r by done.
      unfold day_of, Timedelta in *.
      rewrite Z.div_add by done. by rewrite H5.
    + unfold df. by rewrite rfm_aggregate_two_orders.
Qed.

End aggregation.

(** ** Quintile binning *)

Lemma fmap_all_Some {A B} (f : A → option B) (P : A → B → Prop) (l : list A) :
  (∀ a, a ∈ l → ∃ b, f a = Some b ∧ P a b) →
  ∃ k, f <$> l = Some <$> k ∧ Forall2 P l k.
Proof.
  induction l as [|a l IH]; intros Hl.
  - by exists [].
  - destruct IH as (k & Heq & HP).
    { intros a' Ha'. apply Hl. by right. }
    destruct (Hl a) as (b & Hb & HPb); [left|].
    exists (b :: k). split.
    + by rewrite !fmap_cons, Hb, Heq.
    + by constructor.
Qed.

Section qcut_facts.
Implicit Types (x bins labels : list Z) (v : Z).

Lemma qcut_inl x q labels e : qcut x q labels = inl e → exn_class e = "ValueError".
Proof. unfold qcut, raise. repeat case_decide; by intros [= <-]. Qed.

Lemma quantile_bins_5 x :
  quantile_bins 5 x = quantile 5 (merge_sort Z.le x) <$> [0; 1; 2; 3; 4; 5].
Proof. reflexivity. Qed.

Lemma take_label_elem labels (n ids : nat) (s : Z) :
  take_label labels n ids = Some s → s ∈ labels.
Proof.
  unfold take_label. case_decide; [done|]. apply list_elem_of_lookup_2.
Qed.


Lemma qcut_5_raises x labels :
  ¬ quintile_unique x → qcut x 5 labels = inl (ValueError bin_edges_msg).
Proof.
  intros Hx. unfold qcut. rewrite decide_True; [done|].
  split; [done|]. by rewrite quantile_bins_5.
Qed.

Lemma sorted_lookup_le (s : list Z) (i j : nat) (a b : Z) :
  StronglySorted Z.le s → s !! i = Some a → s !! j = Some b → (i ≤ j)%nat → a ≤ b.
Proof.
  intros Hs. revert i j. induction Hs as [|c s Hs IH Hall]; intros i j Hi Hj Hij.
  - done.
  - destruct i as [|i], j as [|j]; simplify_eq/=; [lia| |lia|].
    + rewrite list.Forall_forall in Hall. apply Hall. by eapply list_elem_of_lookup_2.
    + apply (IH i j); [done..|lia].
Qed.

Lemma searchsorted_left_le bins v (i : nat) (b : Z) :
  bins !! i = Some b → ¬ b < v → (searchsorted_left bins v ≤ i)%nat.
Proof.
  revert i. induction bins as [|c bins IH]; intros i Hi Hb; [done|].
  simpl. case_decide; [|lia].
  destruct i as [|i]; simplify_eq/=; [done|].
  apply le_n_S. by apply IH.
Qed.

Lemma quantile_first (s : list Z) : quantile 5 s 0 = 5 * s !!! 0%nat.
Proof.
  unfold quantile. cbv zeta. rewrite Z.mul_0_l.
  change (0 `div` 5) with 0. change (0 `mod` 5) with 0.
  change (Z.to_nat 0) with 0%nat. lia.
Qed.

Lemma quantile_last (s : list Z) :
  quantile 5 s 5 = 5 * s !!! (length s - 1)%nat.
Proof.
  unfold quantile. cbv zeta.
  replace (5 * (Z.of_nat (length s) - 1)) with ((Z.of_nat (length s) - 1) * 5) by lia.
  rewrite Z.div_mul, Z.mod_mul by done.
  replace (Z.to_nat (Z.of_nat (length s) - 1)) with (length s - 1)%nat by lia.
  lia.
Qed.

(** The lowest edge is the minimum of the column and the highest edge
    its maximum, so every value of the column falls in one of the five
    bins. *)
Lemma bin_id_range x v :
  v ∈ x → (1 ≤ bin_id 5 (quantile_bins 5 x) v ≤ 5)%nat.
Proof.
  intros Hv. rewrite quantile_bins_5.
  set (s := merge_sort Z.le x).
  assert (StronglySorted Z.le s) as Hs by (apply StronglySorted_merge_sort; apply _).
  assert (v ∈ s) as Hvs by (unfold s; by rewrite merge_sort_Permutation).
  apply list_elem_of_lookup in Hvs as [k Hk].
  pose proof (lookup_lt_Some _ _ _ Hk) as Hlt.
  assert (s !! 0%nat = Some (s !!! 0%nat)) as H0
    by (apply list_lookup_lookup_total_lt; lia).
  assert (s !! (length s - 1)%nat = Some (s !!! (length s - 1)%nat)) as Hn
    by (apply list_lookup_lookup_total_lt; lia).
  assert (s !!! 0%nat ≤ v) as Hmin by (eapply (sorted_lookup_le s 0 k); [done..|lia]).
  assert (v ≤ s !!! (length s - 1)%nat) as Hmax
    by (eapply (sorted_lookup_le s k); [done..|lia]).
  cbn [fmap list_fmap]. unfold bin_id. cbn [head].
  case_decide as Hhead; [lia|]. split.
  - cbn [searchsorted_left]. rewrite decide_True; [lia|].
    rewrite quantile_first in *.
    assert (5 * v ≠ 5 * s !!! 0%nat) by congruence. lia.
  - eapply (searchsorted_left_le _ _ 5); [reflexivity|].
    rewrite quantile_last. lia.
Qed.

Lemma length_quantile_bins_5 x : length (quantile_bins 5 x) = 6%nat.
Proof. reflexivity. Qed.

Lemma qcut_5_pointwise x labels (P : Z → Z → Prop) :
  quintile_unique x → NoDup labels → length labels = 5%nat →
  (∀ v, v ∈ x → ∃ s, quintile_label labels x v = Some s ∧ P v s) →
  ∃ scores, qcut x 5 labels = inr (Some <$> scores) ∧ Forall2 P x scores.
Proof.
  intros Hx Hnd Hlen HP. unfold qcut.
  rewrite decide_False by (intros [? _]; done).
  rewrite decide_False by (by intros ?).
  rewrite decide_False by (rewrite length_quantile_bins_5; simpl; lia).
  rewrite length_quantile_bins_5.
  destruct (fmap_all_Some (quintile_label labels x) P x HP) as (scores & Heq & HF).
  exists scores. split; [|done]. f_equal. exact Heq.
Qed.

Lemma quintile_label_is_Some x labels v :
  length labels = 5%nat → v ∈ x →
  ∃ s, quintile_label labels x v = Some s ∧ s ∈ labels.
Proof.
  intros Hlen Hv. pose proof (bin_id_range x v Hv) as Hid.
  unfold quintile_label, take_label. rewrite decide_False by lia.
  destruct (lookup_lt_is_Some_2 labels (bin_id 5 (quantile_bins 5 x) v - 1))
    as [s Hs]; [lia|].
  exists s. split; [done|]. by eapply list_elem_of_lookup_2.
Qed.

Lemma qcut_5_scores x labels :
  quintile_unique x → NoDup labels → length labels = 5%nat →
  ∃ scores, qcut x 5 labels = inr (Some <$> scores) ∧
            length scores = length x ∧
            ∀ s, s ∈ scores → s ∈ labels.
Proof.
  intros Hx Hnd Hlen.
  destruct (qcut_5_pointwise x labels (λ _ s, s ∈ labels) Hx Hnd Hlen)
    as (scores & Heq & HF).
  { intros v Hv. by apply quintile_label_is_Some. }
  exists scores. split; [done|]. split.
  - symmetry. by eapply Forall2_length.
  - apply list.Forall_forall. by eapply Forall2_Forall_r, Forall_true.
Qed.




Lemma astype_int_Some (scores : list Z) : astype_int (Some <$> scores) = inr scores.
Proof.
  unfold astype_int.
  assert (mapM id (Some <$> scores) = Some scores) as ->; [|done].
  apply mapM_Some. apply Forall2_fmap_l. by apply Forall_Forall2_diag, Forall_true.
Qed.

Lemma astype_int_inr (cats : list (option Z)) (scores : list Z) :
  astype_int cats = inr scores → cats = Some <$> scores.
Proof.
  unfold astype_int. destruct (mapM id cats) as [l|] eqn:Hl; [|done].
  intros [= ->]. apply mapM_Some in Hl.
  induction Hl as [|c s cats scores Hc _ IH]; [done|].
  simpl in Hc. by rewrite fmap_cons, Hc, IH.
Qed.

Lemma astype_int_inl (cats : list (option Z)) (e : exn) :
  astype_int cats = inl e → exn_class e = "ValueError".
Proof. unfold astype_int. destruct (mapM id cats); [done|]. by intros [= <-]. Qed.

End qcut_facts.

(** ** The engine (lines 264-306) *)

Section engine.
Implicit Types (df : list order_row) (rfm_df : list customer_rfm)
  (out : list rfm_record) (r f m : list Z).

Lemma attach_scores_lookup rfm_df r f m (i : nat) (rec : rfm_record) :
  attach_scores rfm_df r f m !! i = Some rec →
  rfm_df !! i = Some (rfm rec) ∧ r !! i = Some (r_score rec) ∧
  f !! i = Some (f_score rec) ∧ m !! i = Some (m_score rec) ∧
  segment rec = rfm_segment (r_score rec) (f_score rec) (m_score rec).
Proof.
  unfold attach_scores. rewrite list_lookup_fmap.
  intros ([c [rs [fs ms]]] & Hz & ->)%fmap_Some.
  apply lookup_zip_with_Some in Hz as (? & ? & [= <- <-] & ? & Hz).
  apply lookup_zip_with_Some in Hz as (? & ? & [= <- <-] & ? & Hz).
  apply lookup_zip_with_Some in Hz as (? & ? & [= <- <-] & ? & ?).
  done.
Qed.

Lemma attach_scores_rfm rfm_df r f m :
  length r = length rfm_df → length f = length rfm_df → length m = length rfm_df →
  rfm <$> attach_scores rfm_df r f m = rfm_df.
Proof.
  intros Hr Hf Hm. unfold attach_scores. rewrite <- list_fmap_compose.
  trans ((zip rfm_df (zip r (zip f m))).*1).
  - apply list_fmap_ext. by intros.
  - apply fst_zip. rewrite !length_zip. lia.
Qed.

Lemma fmap_Some_length (x y : list Z) (g : Z → option Z) :
  Some <$> x = g <$> y → length x = length y.
Proof. intros H. by rewrite <- (length_fmap Some), H, length_fmap. Qed.


(** The engine returns a table exactly when the quintile edges are
    unique on the three axes ... *)
Lemma rfm_engine_scorable df :
  scorable df →
  ∃ r f m, rfm_engine df = inr (attach_scores (rfm_aggregate df) r f m).
Proof.
  intros (Hr & Hf & Hm). unfold rfm_engine.
  destruct (qcut_5_scores _ [5; 4; 3; 2; 1] Hr) as (r & -> & _);
    [by apply (bool_decide_unpack _)|done|].
  destruct (qcut_5_scores _ [1; 2; 3; 4; 5] Hf) as (f & -> & _);
    [by apply (bool_decide_unpack _)|done|].
  destruct (qcut_5_scores _ [1; 2; 3; 4; 5] Hm) as (m & -> & _);
    [by apply (bool_decide_unpack _)|done|].
  cbn [bind]. rewrite !astype_int_Some. cbn [bind]. by exists r, f, m.
Qed.

(** ... and raises the [ValueError] of [pd.qcut] otherwise. *)
Lemma rfm_engine_not_scorable df :
  ¬ scorable df → rfm_engine df = inl (ValueError bin_edges_msg).
Proof.
  intros Hn. unfold rfm_engine.
  destruct (decide (quintile_unique (recency <$> rfm_aggregate df))) as [Hr|Hr];
    [|by rewrite (qcut_5_raises _ _ Hr)].
  destruct (qcut_5_scores _ [5; 4; 3; 2; 1] Hr) as (r & -> & _);
    [by apply (bool_decide_unpack _)|done|]. cbn [bind].
  destruct (decide (quintile_unique (rank_first (frequency <$> rfm_aggregate df))))
    as [Hf|Hf]; [|by rewrite (qcut_5_raises _ _ Hf)].
  destruct (qcut_5_scores _ [1; 2; 3; 4; 5] Hf) as (f & -> & _);
    [by apply (bool_decide_unpack _)|done|]. cbn [bind].
  destruct (decide (quintile_unique (monetary <$> rfm_aggregate df))) as [Hm|Hm];
    [|by rewrite (qcut_5_raises _ _ Hm)].
  destruct Hn. done.
Qed.


(** A larger value is never searched to an earlier edge. *)
Lemma searchsorted_left_mono (bins : list Z) (v w : Z) :
  v ≤ w → (searchsorted_left bins v ≤ searchsorted_left bins w)%nat.
Proof.
  intros Hvw. induction bins as [|b bins IH]; [done|].
  simpl. repeat case_decide; lia.
Qed.

Lemma take_label_increasing (ids : nat) (s : Z) :
  take_label [1; 2; 3; 4; 5] 6 ids = Some s → s = Z.of_nat ids.
Proof.
  unfold take_label. case_decide; [done|].
  do 6 (destruct ids as [|ids]; [naive_solver|]). done.
Qed.

End engine.

(** ** Ranking with ties broken by position *)

Section rank_facts.
Implicit Types (x : list Z) (v w : Z) (i j : nat).

Lemma count_eq_app v x y : count_eq v (x ++ y) = (count_eq v x + count_eq v y)%nat.
Proof. unfold count_eq. by rewrite list.filter_app, length_app. Qed.

Lemma count_eq_self v x : count_eq v (v :: x) = S (count_eq v x).
Proof. unfold count_eq. by rewrite filter_cons, decide_True. Qed.

(** A row precedes itself in no prefix: the prefix up to a later
    position holds one more occurrence of its value. *)
Lemma count_eq_take_lt x i j v :
  x !! i = Some v → (i < j)%nat →
  (count_eq v (take i x) < count_eq v (take j x))%nat.
Proof.
  intros Hi Hij.
  rewrite <- (take_drop i (take j x)), take_take, Nat.min_l by lia.
  rewrite count_eq_app.
  assert (drop i (take j x) !! 0%nat = Some v) as Hd.
  { rewrite lookup_drop, Nat.add_0_r, lookup_take_lt; done. }
  destruct (drop i (take j x)) as [|u y]; simplify_eq/=.
  rewrite count_eq_self. lia.
Qed.

Lemma count_eq_take_le x i v :
  x !! i = Some v → (count_eq v (take i x) < count_eq v x)%nat.
Proof.
  intros Hi. rewrite <- (firstn_all x) at 2.
  apply count_eq_take_lt; [done|]. by eapply lookup_lt_Some.
Qed.

Lemma count_lt_eq_le v w x :
  v < w → (count_lt v x + count_eq v x ≤ count_lt w x)%nat.
Proof.
  intros Hvw. unfold count_lt, count_eq.
  induction x as [|u x IH]; [done|].
  rewrite !filter_cons. repeat case_decide; simpl; lia.
Qed.

Lemma count_lt_eq_length v x : (count_lt v x + count_eq v x ≤ length x)%nat.
Proof.
  unfold count_lt, count_eq. induction x as [|u x IH]; [done|].
  rewrite !filter_cons. repeat case_decide; simpl; lia.
Qed.


Lemma rank_first_lookup_inv x i (r : Z) :
  rank_first x !! i = Some r → ∃ v, x !! i = Some v ∧ r = rank_at x i v.
Proof.
  unfold rank_first. rewrite list_lookup_imap.
  intros (v & ? & ->)%fmap_Some. eauto.
Qed.

(** Of two rows with the same value the earlier one has the lower rank. *)
Lemma rank_at_tie x i j v :
  x !! i = Some v → x !! j = Some v → (i < j)%nat →
  rank_at x i v < rank_at x j v.
Proof.
  intros Hi Hj Hij. unfold rank_at.
  pose proof (count_eq_take_lt x i j v Hi Hij). lia.
Qed.

(** A row with a smaller value has the lower rank. *)
Lemma rank_at_lt x i j v w :
  x !! i = Some v → x !! j = Some w → v < w →
  rank_at x i v < rank_at x j w.
Proof.
  intros Hi Hj Hvw. unfold rank_at.
  pose proof (count_eq_take_le x i v Hi).
  pose proof (count_lt_eq_le v w x Hvw). lia.
Qed.

Lemma rank_at_range x i v :
  x !! i = Some v → 1 ≤ rank_at x i v ≤ Z.of_nat (length x).
Proof.
  intros Hi. unfold rank_at.
  pose proof (count_eq_take_le x i v Hi).
  pose proof (count_lt_eq_length v x). lia.
Qed.

Lemma rank_at_inj x i j v w :
  x !! i = Some v → x !! j = Some w → rank_at x i v = rank_at x j w → i = j.
Proof.
  intros Hi Hj Heq.
  destruct (Z.lt_trichotomy v w) as [Hvw|[->|Hvw]].
  - pose proof (rank_at_lt x i j v w Hi Hj Hvw). lia.
  - destruct (Nat.lt_trichotomy i j) as [Hij|[->|Hij]]; [|done|].
    + pose proof (rank_at_tie x i j w Hi Hj Hij). lia.
    + pose proof (rank_at_tie x j i w Hj Hi Hij). lia.
  - pose proof (rank_at_lt x j i w v Hj Hi Hvw). lia.
Qed.

Lemma rank_first_NoDup x : NoDup (rank_first x).
Proof.
  apply NoDup_alt. intros i j r Hi Hj.
  apply rank_first_lookup_inv in Hi as (v & Hi & ->).
  apply rank_first_lookup_inv in Hj as (w & Hj & Heq).
  by eapply rank_at_inj.
Qed.

Lemma length_rank_first x : length (rank_first x) = length x.
Proof. apply length_imap. Qed.

End rank_facts.

(** ** The example tables *)

(** Closed decidable statements are settled by evaluation. *)
Ltac by_computation :=
  apply (bool_decide_unpack _); vm_compute; exact I.

Ltac refute_by_computation :=
  apply (bool_decide_eq_false_1 _); vm_compute; reflexivity.

(** Membership in a table that evaluates to a list of closed rows. *)
Ltac in_table :=
  apply list_elem_of_In; vm_compute; repeat (first [left; reflexivity | right]).

Section examples.

Lemma rfm_engine_five_customers : rfm_engine five_customers = inr five_customers_rfm.
Proof. vm_compute. reflexivity. Qed.

Lemma rfm_engine_no_orders : rfm_engine no_orders = inl (ValueError bin_edges_msg).
Proof. vm_compute. reflexivity. Qed.

Lemma rfm_engine_one_customer : rfm_engine one_customer = inl (ValueError bin_edges_msg).
Proof. vm_compute. reflexivity. Qed.

(** Two customers give two distinct values per axis, and are scored. *)
Lemma rfm_engine_two_customers :
  degenerate two_customers ∧
  rfm_engine two_customers =
    inr (attach_scores
           [ {| customer_id := "ana"; recency := 1; frequency := 1; monetary := 17 |};
             {| customer_id := "bo"; recency := 5; frequency := 1; monetary := 25 |} ]
           [5; 1] [1; 5] [1; 5]).
Proof.
  split.
  - left. vm_compute. lia.
  - vm_compute. reflexivity.
Qed.

Lemma scorable_five_customers : scorable five_customers.
Proof. by_computation. Qed.

Lemma not_scorable_one_customer : ¬ scorable one_customer.
Proof. refute_by_computation. Qed.

End examples.

(** ** The scenarios of the specification *)

Section contract.
Implicit Types (df : list order_row) (out : list rfm_record).

Lemma recency_from_reference_witness :
  (∃ T t,
     latest T one_customer ∧ reference_date one_customer = Some (T + Timedelta 1) ∧
     latest t (rows_of "ana" one_customer) ∧
     1 = days (T + Timedelta 1 - t) ∧ 1 ≤ 1) ∧
  day_of <$> reference_date one_customer = Some 6 ∧
  rfm_aggregate one_customer =
    [ {| customer_id := "ana"; recency := 1; frequency := 2; monetary := 25 + 17 |} ].
Proof.
  split.
  - apply (proj1 recency_from_reference one_customer
             {| customer_id := "ana"; recency := 1; frequency := 2; monetary := 42 |}).
    vm_compute. left.
  - apply (proj2 recency_from_reference "ana" "o1" "o2" (Timedelta 1) (Timedelta 5) 25 17).
    + done.
    + reflexivity.
    + reflexivity.
Defined.

(** C4, as stated, fails: the error the engine raises on an empty table
    is not an [EmptyInputError]. *)
Lemma no_orders_not_EmptyInputError :
  ¬ ∃ e, rfm_engine no_orders = inl e ∧ exn_class e = "EmptyInputError".
Proof.
  intros (e & H & Hc). rewrite rfm_engine_no_orders in H.
  injection H as <-. discriminate Hc.
Qed.

(** C4, amended.  On an empty input table the engine fails: the
    aggregated table is empty, the first quintile binning raises the
    [ValueError] of [pd.qcut] ("Bin edges must be unique"), and the page
    shows it through the catch-all handler. *)
Theorem no_orders_raises_ValueError :
  rfm_aggregate no_orders = [] ∧
  qcut (recency <$> rfm_aggregate no_orders) 5 [5; 4; 3; 2; 1]
    = inl (ValueError bin_edges_msg) ∧
  rfm_engine no_orders = inl (ValueError bin_edges_msg) ∧
  exn_class (ValueError bin_edges_msg) = "ValueError" ∧
  rfm_page no_orders = bin_edges_page.
Proof. repeat split. Qed.



End contract.


(** ** What each segment means *)

Section segment_regions.

(** X1.  Because the rules are tried in order, the conditions of the later
    rules are narrowed by the failure of the earlier ones.  For scores from
    1 to 5 the seven labels other than the fallback are assigned exactly on
    the following regions; the monetary score matters only to tell
    Champions from Loyal Customers and Can't Lose Them from Hibernating. *)
Theorem rfm_segment_regions (r f m : Z) :
  is_score r → is_score f → is_score m →
  (rfm_segment r f m = "Champions" ↔ 4 ≤ r ∧ 4 ≤ f ∧ 4 ≤ m) ∧
  (rfm_segment r f m = "Loyal Customers" ↔ 4 ≤ f ∧ (r = 3 ∨ (4 ≤ r ∧ m ≤ 3))) ∧
  (rfm_segment r f m = "Potential Loyalist" ↔ 4 ≤ r ∧ 2 ≤ f ≤ 3) ∧
  (rfm_segment r f m = "Recent Customers" ↔ 4 ≤ r ∧ f = 1) ∧
  (rfm_segment r f m = "At Risk" ↔ r ≤ 2 ∧ 3 ≤ f) ∧
  (rfm_segment r f m = "Can't Lose Them" ↔ r ≤ 2 ∧ f ≤ 2 ∧ 4 ≤ m) ∧
  (rfm_segment r f m = "Hibernating" ↔ r ≤ 2 ∧ f ≤ 2 ∧ m ≤ 3).
Proof.
  unfold is_score, rfm_segment. intros Hr Hf Hm.
  rewrite !geb_leb.
  repeat (match goal with
          | |- context [?a <=? ?b] => destruct (Z.leb_spec a b)
          | |- context [?a =? ?b] => destruct (Z.eqb_spec a b)
          end; try lia);
    cbn; repeat split; intros; first [discriminate | lia | done].
Qed.

Lemma rfm_segment_regions_witness :
  (rfm_segment 5 4 2 = "Champions" ↔ 4 ≤ 5 ∧ 4 ≤ 4 ∧ 4 ≤ 2) ∧
  (rfm_segment 5 4 2 = "Loyal Customers" ↔ 4 ≤ 4 ∧ (5 = 3 ∨ (4 ≤ 5 ∧ 2 ≤ 3))) ∧
  (rfm_segment 5 4 2 = "Potential Loyalist" ↔ 4 ≤ 5 ∧ 2 ≤ 4 ≤ 3) ∧
  (rfm_segment 5 4 2 = "Recent Customers" ↔ 4 ≤ 5 ∧ 4 = 1) ∧
  (rfm_segment 5 4 2 = "At Risk" ↔ 5 ≤ 2 ∧ 3 ≤ 4) ∧
  (rfm_segment 5 4 2 = "Can't Lose Them" ↔ 5 ≤ 2 ∧ 4 ≤ 2 ∧ 4 ≤ 2) ∧
  (rfm_segment 5 4 2 = "Hibernating" ↔ 5 ≤ 2 ∧ 4 ≤ 2 ∧ 2 ≤ 3).
Proof. apply (rfm_segment_regions 5 4 2); unfold is_score; lia. Defined.

End segment_regions.

(** ** Delay categories (lines 214-226) *)

Section delay.

Lemma float_le_Finite (q c : Q) : float_le (Finite q) c = true ↔ (q <= c)%Q.
Proof. apply Qle_bool_iff. Qed.

Lemma float_le_Finite_false (q c : Q) : float_le (Finite q) c = false ↔ (c < q)%Q.
Proof.
  rewrite <- not_true_iff_false, float_le_Finite. split.
  - apply Qnot_le_lt.
  - apply Qlt_not_le.
Qed.

(** X2.  The category of a delay: at most 0 days is on time, then up to 7 and
    up to 14 days late, and more than 14 days otherwise.  A missing delay
    ([NaN]) fails every comparison and is counted as more than 14 days
    late. *)
Theorem categorize_delay_thresholds (days : float64) :
  (categorize_delay days = "On Time/Early" ↔ ∃ q, days = Finite q ∧ (q <= 0)%Q) ∧
  (categorize_delay days = "1-7 days late" ↔ ∃ q, days = Finite q ∧ (0 < q)%Q ∧ (q <= 7)%Q) ∧
  (categorize_delay days = "8-14 days late" ↔ ∃ q, days = Finite q ∧ (7 < q)%Q ∧ (q <= 14)%Q) ∧
  (categorize_delay days = ">14 days late" ↔ days = NaN ∨ ∃ q, days = Finite q ∧ (14 < q)%Q).
Proof.
  destruct days as [|q].
  - cbn. repeat split; try discriminate; try (intros (q & ? & _); discriminate); auto.
  - unfold categorize_delay.
    destruct (float_le (Finite q) 0) eqn:H0;
      [apply float_le_Finite in H0|apply float_le_Finite_false in H0].
    { repeat split; try discriminate; eauto;
        try (intros (q' & [= <-] & ?); lra); intros [|(q' & [= <-] & ?)]; [done|lra]. }
    destruct (float_le (Finite q) 7) eqn:H7;
      [apply float_le_Finite in H7|apply float_le_Finite_false in H7].
    { repeat split; try discriminate; eauto;
        try (intros (q' & [= <-] & ?); lra); intros [|(q' & [= <-] & ?)]; [done|lra]. }
    destruct (float_le (Finite q) 14) eqn:H14;
      [apply float_le_Finite in H14|apply float_le_Finite_false in H14].
    { repeat split; try discriminate; eauto;
        try (intros (q' & [= <-] & ?); lra); intros [|(q' & [= <-] & ?)]; [done|lra]. }
    repeat split; try discriminate; eauto;
      try (intros (q' & [= <-] & ?); lra).
Qed.

Ltac pick_categories i j :=
  exists i, j; split; [reflexivity|split; [reflexivity|lia]].

(** X3.  Every delay falls in one of the four categories of [delay_cat_order],
    so reindexing by that list drops no group, and a longer delay never
    falls in an earlier category of the list. *)
Theorem categorize_delay_ordered :
  (∀ days, categorize_delay days ∈ delay_cat_order) ∧
  (∀ q1 q2 : Q,
     (q1 <= q2)%Q →
     ∃ i j : nat,
       delay_cat_order !! i = Some (categorize_delay (Finite q1)) ∧
       delay_cat_order !! j = Some (categorize_delay (Finite q2)) ∧
       (i ≤ j)%nat).
Proof.
  split.
  - intros days. unfold categorize_delay, delay_cat_order.
    repeat (case_match; [set_solver|]). set_solver.
  - intros q1 q2 Hq. unfold categorize_delay, delay_cat_order.
    destruct (float_le (Finite q1) 0) eqn:A0;
    destruct (float_le (Finite q1) 7) eqn:A7;
    destruct (float_le (Finite q1) 14) eqn:A14;
    destruct (float_le (Finite q2) 0) eqn:B0;
    destruct (float_le (Finite q2) 7) eqn:B7;
    destruct (float_le (Finite q2) 14) eqn:B14;
    rewrite ?float_le_Finite, ?float_le_Finite_false in *;
    try lra;
    first [ pick_categories 0%nat 0%nat | pick_categories 0%nat 1%nat
          | pick_categories 0%nat 2%nat | pick_categories 0%nat 3%nat
          | pick_categories 1%nat 1%nat | pick_categories 1%nat 2%nat
          | pick_categories 1%nat 3%nat | pick_categories 2%nat 2%nat
          | pick_categories 2%nat 3%nat | pick_categories 3%nat 3%nat ].
Qed.

Lemma categorize_delay_ordered_witness :
  ∃ i j : nat,
    delay_cat_order !! i = Some (categorize_delay (Finite 3)) ∧
    delay_cat_order !! j = Some (categorize_delay (Finite 10)) ∧
    (i ≤ j)%nat.
Proof. apply (proj2 categorize_delay_ordered 3%Q 10%Q). by vm_compute. Defined.

End delay.

(** ** Groups partition the table *)

Section groupby_partition.
Context {A : Type} (key : A → string).

Implicit Types (df : list A) (k : string) (ks : list string).

Lemma pairs_of_keys {B} (f : string → B) (l : list (string * B)) :
  Forall (λ p, p.2 = f p.1) l → l = (λ k, (k, f k)) <$> l.*1.
Proof.
  induction 1 as [|[k g] l Hg _ IH]; [done|].
  simpl in *. rewrite Hg. f_equal. exact IH.
Qed.

(** Every group holds the rows of its key. *)
Lemma groupby_groups df :
  groupby key df = (λ k, (k, filter (λ r, key r = k) df)) <$> (groupby key df).*1.
Proof.
  apply pairs_of_keys, list.Forall_forall.
  intros [k g] Hg. by apply elem_of_groupby in Hg as [-> _].
Qed.

Lemma filter_other_key df k k' :
  k ≠ k' →
  filter (λ r, key r = k') (filter (λ r, ¬ key r = k) df) = filter (λ r, key r = k') df.
Proof.
  intros Hk. rewrite list_filter_filter. apply list_filter_iff.
  intros r. split; [by intros [? _]|]. intros Hr. split; [done|]. congruence.
Qed.

Lemma partition_by_keys ks df :
  NoDup ks → (∀ r, r ∈ df → key r ∈ ks) →
  mjoin ((λ k, filter (λ r, key r = k) df) <$> ks) ≡ₚ df.
Proof.
  intros Hnd. revert df. induction Hnd as [|k ks Hk Hnd IH]; intros df Hdf.
  - destruct df as [|r df]; [done|].
    destruct (not_elem_of_nil (key r)). apply Hdf. left.
  - rewrite fmap_cons. simpl.
    etrans; [|apply (filter_app_complement (λ r, key r = k) df)].
    f_equiv.
    assert ((λ k', filter (λ r, key r = k') df) <$> ks =
            (λ k', filter (λ r, key r = k') (filter (λ r, ¬ key r = k) df)) <$> ks) as ->.
    { apply list_fmap_ext. intros i k' Hk'.
      symmetry. apply filter_other_key. intros ->.
      apply Hk. by eapply list_elem_of_lookup_2. }
    apply IH. intros r [Hr Hin]%list_elem_of_filter.
    specialize (Hdf r Hin). apply elem_of_cons in Hdf as [?|?]; done.
Qed.

(** No row is lost and none is duplicated by grouping. *)
Lemma groupby_join df : mjoin (groupby key df).*2 ≡ₚ df.
Proof.
  rewrite (groupby_groups df) at 1. rewrite <- list_fmap_compose.
  apply partition_by_keys.
  - apply groupby_keys_NoDup.
  - intros r Hr. apply elem_of_groupby_keys. by apply list_elem_of_fmap_2.
Qed.

Lemma groupby_group_nonempty df k (g : list A) : (k, g) ∈ groupby key df → g ≠ [].
Proof. by intros [_ ?]%elem_of_groupby. Qed.

End groupby_partition.

(** ** Sums *)

Lemma sum_app (x y : list Z) :
  foldr Z.add 0 (x ++ y) = foldr Z.add 0 x + foldr Z.add 0 y.
Proof. induction x as [|v x IH]; simpl; lia. Qed.

Lemma sum_Permutation (x y : list Z) : x ≡ₚ y → foldr Z.add 0 x = foldr Z.add 0 y.
Proof. induction 1; simpl; lia. Qed.

Lemma sum_join {A} (f : A → Z) (ls : list (list A)) :
  foldr Z.add 0 (f <$> mjoin ls) = foldr Z.add 0 ((λ l, foldr Z.add 0 (f <$> l)) <$> ls).
Proof.
  induction ls as [|l ls IH]; [done|].
  simpl. rewrite fmap_app, sum_app, IH. done.
Qed.

Lemma series_sum_groups {A} (key : A → string) (f : A → Z) (df : list A) :
  series_sum ((λ g, series_sum (f <$> g.2)) <$> groupby key df) = series_sum (f <$> df).
Proof.
  rewrite !series_sum_exact.
  rewrite <- (sum_Permutation _ _ (fmap_Permutation f _ _ (groupby_join key df))).
  rewrite sum_join, <- list_fmap_compose.
  f_equal. apply list_fmap_ext. intros i g _. simpl. by rewrite series_sum_exact.
Qed.

(** ** The aggregated table against the overview metrics *)

Section conservation.
Implicit Types (df : list order_row) (c k : string) (ks : list string).

Lemma rfm_aggregate_groups df ref :
  reference_date df = Some ref →
  rfm_aggregate df =
    (λ k, agg_group ref (k, rows_of k df)) <$> (groupby customer_unique_id df).*1.
Proof.
  intros Href. unfold rfm_aggregate. rewrite Href.
  rewrite (groupby_groups customer_unique_id df) at 1.
  by rewrite <- list_fmap_compose.
Qed.

Lemma rfm_aggregate_revenue df :
  series_sum (monetary <$> rfm_aggregate df) = total_revenue df.
Proof.
  unfold rfm_aggregate, total_revenue.
  destruct (reference_date df) as [ref|] eqn:Href.
  - rewrite <- list_fmap_compose.
    apply (series_sum_groups customer_unique_id total_payment).
  - by rewrite (reference_date_None df Href).
Qed.

Lemma elem_of_rows_join ks df (r : order_row) :
  r ∈ mjoin ((λ k, rows_of k df) <$> ks) → r ∈ df ∧ customer_unique_id r ∈ ks.
Proof.
  intros (g & Hr & (k & -> & Hk)%list_elem_of_fmap)%list_elem_of_join.
  apply list_elem_of_filter in Hr as [<- ?]. done.
Qed.

Lemma orders_app (x y : list order_row) : orders (x ++ y) = orders x ∪ orders y.
Proof. unfold orders. by rewrite fmap_app, list_to_set_app_L. Qed.

Lemma size_orders_join_le ks df :
  Z.of_nat (size (orders (mjoin ((λ k, rows_of k df) <$> ks)))) ≤
  foldr Z.add 0 ((λ k, Z.of_nat (size (orders (rows_of k df)))) <$> ks).
Proof.
  induction ks as [|k ks IH]; [done|].
  rewrite !fmap_cons. simpl. rewrite orders_app, size_union_alt.
  pose proof (subseteq_size
    (orders (mjoin ((λ k, rows_of k df) <$> ks)) ∖ orders (rows_of k df))
    (orders (mjoin ((λ k, rows_of k df) <$> ks)))) as Hle.
  specialize (Hle (subseteq_difference_l _ _ _ (reflexivity _))). lia.
Qed.

Lemma size_orders_join_eq ks df :
  NoDup ks →
  (∀ r1 r2, r1 ∈ df → r2 ∈ df → order_id r1 = order_id r2 →
            customer_unique_id r1 = customer_unique_id r2) →
  Z.of_nat (size (orders (mjoin ((λ k, rows_of k df) <$> ks)))) =
  foldr Z.add 0 ((λ k, Z.of_nat (size (orders (rows_of k df)))) <$> ks).
Proof.
  intros Hnd Hown. induction Hnd as [|k ks Hk Hnd IH]; [done|].
  rewrite !fmap_cons. simpl. rewrite orders_app, size_union, <- IH; [lia|].
  intros o Ho1 Ho2. unfold orders in Ho1, Ho2.
  apply elem_of_list_to_set, list_elem_of_fmap in Ho1 as (r1 & -> & Hr1).
  apply elem_of_list_to_set, list_elem_of_fmap in Ho2 as (r2 & Ho & Hr2).
  apply list_elem_of_filter in Hr1 as [Hk1 Hr1].
  apply elem_of_rows_join in Hr2 as [Hr2 Hk2].
  apply Hk. by rewrite <- Hk1, (Hown r1 r2 Hr1 Hr2 Ho).
Qed.

Lemma frequency_rfm_aggregate df :
  series_sum (frequency <$> rfm_aggregate df) =
  foldr Z.add 0 ((λ k, Z.of_nat (size (orders (rows_of k df))))
                   <$> (groupby customer_unique_id df).*1).
Proof.
  rewrite series_sum_exact. f_equal.
  destruct (reference_date df) as [ref|] eqn:Href.
  - rewrite (rfm_aggregate_groups df ref Href), <- list_fmap_compose.
    apply list_fmap_ext. intros i k _. simpl. apply nunique_size.
  - by rewrite (reference_date_None df Href).
Qed.

Lemma total_orders_join df :
  total_orders df =
  Z.of_nat (size (orders (mjoin ((λ k, rows_of k df)
                            <$> (groupby customer_unique_id df).*1)))).
Proof.
  unfold total_orders. rewrite nunique_size. f_equal. f_equal.
  unfold orders. apply list_to_set_perm_L, fmap_Permutation.
  symmetry. apply (partition_by_keys customer_unique_id).
  - apply groupby_keys_NoDup.
  - intros r Hr. apply elem_of_groupby_keys. by apply list_elem_of_fmap_2.
Qed.

(** X5.  The frequencies add up to at least the Total Orders of the overview
    page, and to exactly that number when no order identifier is shared
    by two customers. *)
Theorem frequencies_cover_orders df :
  total_orders df ≤ series_sum (frequency <$> rfm_aggregate df) ∧
  ((∀ r1 r2, r1 ∈ df → r2 ∈ df → order_id r1 = order_id r2 →
             customer_unique_id r1 = customer_unique_id r2) →
   series_sum (frequency <$> rfm_aggregate df) = total_orders df).
Proof.
  rewrite frequency_rfm_aggregate, total_orders_join. split.
  - apply size_orders_join_le.
  - intros Hown. symmetry. apply size_orders_join_eq; [|done].
    apply groupby_keys_NoDup.
Qed.

End conservation.

(** ** Bounds on the aggregated values *)

Section aggregate_values.
Implicit Types (df : list order_row) (rec : customer_rfm).

Lemma length_remove_dups_le {A} `{EqDecision A} (l : list A) :
  (length (remove_dups l) ≤ length l)%nat.
Proof. induction l as [|x l IH]; simpl; [done|]. case_decide; simpl; lia. Qed.

Lemma length_remove_dups_pos {A} `{EqDecision A} (l : list A) :
  l ≠ [] → (1 ≤ length (remove_dups l))%nat.
Proof.
  destruct l as [|x l]; [done|]. intros _.
  assert (x ∈ remove_dups (x :: l)) as Hx by (apply elem_of_remove_dups; left).
  destruct (remove_dups (x :: l)); [by apply elem_of_nil in Hx|simpl; lia].
Qed.

Lemma sum_nonneg (x : list Z) : (∀ v, v ∈ x → 0 ≤ v) → 0 ≤ foldr Z.add 0 x.
Proof.
  induction x as [|v x IH]; intros Hx; simpl; [done|].
  pose proof (Hx v ltac:(left)). pose proof (IH (λ u Hu, Hx u ltac:(by right))). lia.
Qed.

(** X6.  Every customer of the table has bought at least once and at most as
    often as it has rows, and payments that are not negative add up to a
    monetary value that is not negative. *)
Theorem aggregate_bounds df rec :
  rec ∈ rfm_aggregate df →
  1 ≤ frequency rec ≤ Z.of_nat (length (rows_of (customer_id rec) df)) ∧
  ((∀ r, r ∈ df → 0 ≤ total_payment r) → 0 ≤ monetary rec).
Proof.
  intros (ref & _ & Hne & Heq)%elem_of_rfm_aggregate.
  set (g := rows_of (customer_id rec) df) in *.
  split.
  - rewrite Heq. simpl. unfold nunique.
    pose proof (length_remove_dups_pos (order_id <$> g)) as Hpos.
    pose proof (length_remove_dups_le (order_id <$> g)) as Hle.
    rewrite length_fmap in Hle.
    specialize (Hpos ltac:(by intros ?%fmap_nil_inv)). lia.
  - intros Hpay. rewrite Heq. simpl. rewrite series_sum_exact.
    apply sum_nonneg. intros v (r & -> & Hr)%list_elem_of_fmap.
    apply Hpay. by apply list_elem_of_filter in Hr as [_ ?].
Qed.

(** X7.  The customer who bought last has recency 1, the lowest of the table:
    the reference date is one day after the latest purchase. *)
Theorem most_recent_customer df :
  df ≠ [] →
  ∃ rec, rec ∈ rfm_aggregate df ∧ recency rec = 1 ∧
         ∀ rec', rec' ∈ rfm_aggregate df → recency rec ≤ recency rec'.
Proof.
  intros Hne.
  destruct (reference_date df) as [ref|] eqn:Href;
    [|by apply reference_date_None in Href].
  destruct (reference_date_latest df ref Href) as (T & -> & [HT Hmax]).
  apply list_elem_of_fmap in HT as (r & HrT & Hr).
  assert (customer_unique_id r ∈ customer_id <$> rfm_aggregate df) as Hc.
  { apply elem_of_rfm_aggregate_ids. unfold customers.
    apply elem_of_list_to_set. by apply list_elem_of_fmap_2. }
  apply list_elem_of_fmap in Hc as (rec & Hid & Hrec).
  exists rec. split; [done|].
  assert (∀ rec', rec' ∈ rfm_aggregate df →
            ∃ t, t ≤ T ∧ recency rec' = days (T + Timedelta 1 - t) ∧
                 ∀ r', r' ∈ rows_of (customer_id rec') df → order_purchase_timestamp r' ≤ t)
    as Hall.
  { intros rec' (ref' & Href' & Hne' & Heq)%elem_of_rfm_aggregate.
    rewrite Href in Href'. injection Href' as <-.
    destruct (rows_of_latest _ _ Hne') as (t & Hmaxt & Ht).
    exists t. split; [|split].
    - eapply latest_rows_of_le; [exact Ht|]. split; [|done].
      apply list_elem_of_fmap. eauto.
    - rewrite Heq. simpl. unfold recency_of. by rewrite Hmaxt.
    - apply Ht. }
  destruct (Hall rec Hrec) as (t & HtT & Hrect & Hrows).
  assert (t = T) as ->.
  { apply Z.le_antisymm; [done|]. rewrite HrT. apply Hrows.
    apply list_elem_of_filter. by rewrite <- Hid. }
  assert (recency rec = 1) as H1.
  { rewrite Hrect. replace (T + Timedelta 1 - T) with (Timedelta 1) by lia. reflexivity. }
  split; [done|]. intros rec' Hrec'. rewrite H1.
  destruct (Hall rec' Hrec') as (t' & Ht' & -> & _).
  apply days_ge_1. unfold Timedelta. lia.
Qed.

End aggregate_values.

(** ** The order of the rows of the input *)

Section row_order.
Implicit Types (df : list order_row).

Lemma series_max_Permutation (x y : list Z) : x ≡ₚ y → series_max x = series_max y.
Proof.
  intros Hxy. destruct (series_max x) as [t|] eqn:Hx, (series_max y) as [u|] eqn:Hy.
  - apply series_max_spec in Hx as [Hx1 Hx2], Hy as [Hy1 Hy2].
    f_equal. apply Z.le_antisymm.
    + apply Hy2. by rewrite <- Hxy.
    + apply Hx2. by rewrite Hxy.
  - destruct y; [|done]. apply Permutation_nil_r in Hxy as ->. done.
  - destruct x; [|done]. apply Permutation_nil_l in Hxy as <-. done.
  - done.
Qed.

Lemma agg_group_Permutation ref k (g g' : list order_row) :
  g ≡ₚ g' → agg_group ref (k, g) = agg_group ref (k, g').
Proof.
  intros Hg. unfold agg_group, recency_of. simpl.
  rewrite (series_max_Permutation _ _ (fmap_Permutation order_purchase_timestamp _ _ Hg)).
  rewrite !nunique_size, !series_sum_exact.
  rewrite (list_to_set_perm_L _ _ (fmap_Permutation order_id _ _ Hg)).
  by rewrite (sum_Permutation _ _ (fmap_Permutation total_payment _ _ Hg)).
Qed.

Lemma groupby_keys_Permutation {A} (key : A → string) (df df' : list A) :
  df ≡ₚ df' → (groupby key df).*1 = (groupby key df').*1.
Proof.
  intros Hdf. apply (Sorted_unique String.le).
  - apply groupby_keys_sorted.
  - apply groupby_keys_sorted.
  - apply NoDup_Permutation; [apply groupby_keys_NoDup..|].
    intros k. by rewrite !elem_of_groupby_keys, Hdf.
Qed.

Lemma rfm_aggregate_Permutation df df' :
  df ≡ₚ df' → rfm_aggregate df = rfm_aggregate df'.
Proof.
  intros Hdf.
  assert (reference_date df = reference_date df') as Href.
  { unfold reference_date. by rewrite (series_max_Permutation _ _
      (fmap_Permutation order_purchase_timestamp _ _ Hdf)). }
  destruct (reference_date df) as [ref|] eqn:Hr.
  - rewrite (rfm_aggregate_groups df ref Hr), (rfm_aggregate_groups df' ref) by done.
    rewrite (groupby_keys_Permutation customer_unique_id df df' Hdf).
    apply list_fmap_ext. intros i k _. apply agg_group_Permutation.
    unfold rows_of. by rewrite Hdf.
  - unfold rfm_aggregate. by rewrite Hr, <- Href.
Qed.

End row_order.

(** ** Ranks and the frequency axis *)

Section frequency_axis.
Implicit Types (x : list Z).

Lemma rank_first_perm x : rank_first x ≡ₚ seqZ 1 (Z.of_nat (length x)).
Proof.
  apply submseteq_length_Permutation.
  - apply NoDup_submseteq; [apply rank_first_NoDup|].
    intros r [i Hi]%list_elem_of_lookup.
    apply rank_first_lookup_inv in Hi as (v & Hv & ->).
    apply elem_of_seqZ. pose proof (rank_at_range x i v Hv). lia.
  - rewrite length_seqZ, length_rank_first. lia.
Qed.

Lemma StronglySorted_seqZ (m : Z) (n : nat) : StronglySorted Z.le (seqZ m (Z.of_nat n)).
Proof.
  revert m. induction n as [|n IH]; intros m; [constructor|].
  rewrite seqZ_cons by lia. constructor.
  - replace (Z.pred (Z.of_nat (S n))) with (Z.of_nat n) by lia. apply IH.
  - apply Forall_seqZ. lia.
Qed.

Lemma sorted_rank_first x :
  merge_sort Z.le (rank_first x) = seqZ 1 (Z.of_nat (length x)).
Proof.
  apply (StronglySorted_unique Z.le).
  - apply StronglySorted_merge_sort; apply _.
  - apply StronglySorted_seqZ.
  - rewrite merge_sort_Permutation. apply rank_first_perm.
Qed.

(** The quintile edges of the ranks 1, ..., [n], times 5. *)
Lemma quantile_seqZ (n : nat) (k : Z) :
  (1 ≤ n)%nat → 0 ≤ k ≤ 5 →
  quantile 5 (seqZ 1 (Z.of_nat n)) k = 5 + k * (Z.of_nat n - 1).
Proof.
  intros Hn Hk. unfold quantile. cbv zeta. rewrite length_seqZ, Nat2Z.id.
  set (pos := k * (Z.of_nat n - 1)).
  assert (0 ≤ pos ≤ 5 * (Z.of_nat n - 1)) as Hpos by (unfold pos; nia).
  pose proof (Z.div_mod pos 5 ltac:(done)) as Hdm.
  pose proof (Z.mod_pos_bound pos 5 ltac:(done)) as Hmod.
  assert (0 ≤ pos `div` 5 ≤ Z.of_nat n - 1) as Hlo by lia.
  clearbody pos.
  rewrite !lookup_total_seqZ_lt by lia.
  rewrite !Z2Nat.id by lia.
  destruct (Z.min_spec (pos `div` 5 + 1) (Z.of_nat n - 1)) as [[_ ->]|[Hge ->]].
  - lia.
  - assert (pos `div` 5 = Z.of_nat n - 1 ∨ pos `div` 5 + 1 = Z.of_nat n - 1)
      as [Hl|Hl] by lia.
    + assert (pos `mod` 5 = 0) as -> by lia. lia.
    + rewrite <- Hl. lia.
Qed.

Lemma quantile_bins_rank_first x :
  x ≠ [] →
  quantile_bins 5 (rank_first x) =
    (λ k, 5 + k * (Z.of_nat (length x) - 1)) <$> [0; 1; 2; 3; 4; 5].
Proof.
  intros Hx. rewrite quantile_bins_5, sorted_rank_first.
  assert (1 ≤ length x)%nat by (destruct x; [done|simpl; lia]).
  cbn [fmap list_fmap]. by rewrite !quantile_seqZ by lia.
Qed.

Lemma quintile_unique_rank_first x :
  quintile_unique (rank_first x) ↔ (2 ≤ length x)%nat.
Proof.
  unfold quintile_unique, unique_bins. split.
  - intros [Hne Hnd].
    assert (x ≠ []) as Hx by (intros ->; done).
    rewrite (quantile_bins_rank_first x Hx) in Hnd.
    destruct x as [|v [|w x]]; [done| |simpl; lia].
    exfalso. simpl in Hnd. apply NoDup_cons_1_1 in Hnd. apply Hnd. left.
  - intros Hlen. assert (x ≠ []) as Hx by (intros ->; simpl in Hlen; lia).
    split.
    + intros Hr. apply (f_equal length) in Hr.
      rewrite length_rank_first in Hr. simpl in Hr. lia.
    + rewrite (quantile_bins_rank_first x Hx).
      apply NoDup_fmap_2; [|by apply (bool_decide_unpack _)].
      intros k1 k2 Hk. nia.
Qed.

(** X9.  The ranks of a column of [n] values are the numbers 1, ..., [n], each
    given once. *)
Theorem rank_first_Permutation x :
  rank_first x ≡ₚ seqZ 1 (Z.of_nat (length x)).
Proof. apply rank_first_perm. Qed.

(** X10.  Quintile binning of the frequency ranks succeeds exactly when the
    table has at least two customers: ties in frequency never make it
    fail. *)
Theorem frequency_axis_unique x :
  quintile_unique (rank_first x) ↔ (2 ≤ length x)%nat.
Proof. apply quintile_unique_rank_first. Qed.

Lemma frequency_axis_unique_witness : quintile_unique (rank_first [3; 3; 3]).
Proof. apply (proj2 (frequency_axis_unique [3; 3; 3])). simpl. lia. Defined.

End frequency_axis.

(** ** Bounds on the exact edges *)

Section score_order.
Implicit Types (df : list order_row) (out : list rfm_record) (x : list Z).

Lemma take_label_decreasing (ids : nat) (s : Z) :
  take_label [5; 4; 3; 2; 1] 6 ids = Some s → s = 6 - Z.of_nat ids.
Proof.
  unfold take_label. case_decide; [done|].
  do 6 (destruct ids as [|ids]; [naive_solver lia|]). done.
Qed.

(** The edges lie between five times the least and five times the
    greatest value. *)
Lemma quantile_le_max (s : list Z) (k : Z) :
  StronglySorted Z.le s → s ≠ [] → 0 ≤ k ≤ 5 →
  quantile 5 s k ≤ 5 * s !!! (length s - 1)%nat.
Proof.
  intros Hs Hne Hk. unfold quantile. cbv zeta.
  assert (1 ≤ length s)%nat as Hn by (destruct s; [done|simpl; lia]).
  set (n := Z.of_nat (length s)) in *.
  set (pos := k * (n - 1)).
  assert (0 ≤ pos ≤ 5 * (n - 1)) as Hpos by (unfold pos, n; nia).
  pose proof (Z.div_mod pos 5 ltac:(done)) as Hdm.
  pose proof (Z.mod_pos_bound pos 5 ltac:(done)) as Hmod.
  assert (0 ≤ pos `div` 5 ≤ n - 1) as Hlo by lia.
  clearbody pos.
  set (i := Z.to_nat (pos `div` 5)).
  set (j := Z.to_nat ((pos `div` 5 + 1) `min` (n - 1))).
  assert (i ≤ j ∧ j ≤ length s - 1)%nat as [Hij Hj] by (unfold i, j, n in *; lia).
  assert (s !! i = Some (s !!! i)) as Hi' by (apply list_lookup_lookup_total_lt; lia).
  assert (s !! j = Some (s !!! j)) as Hj' by (apply list_lookup_lookup_total_lt; lia).
  assert (s !! (length s - 1)%nat = Some (s !!! (length s - 1)%nat)) as Hl'
    by (apply list_lookup_lookup_total_lt; lia).
  pose proof (sorted_lookup_le s i j _ _ Hs Hi' Hj' Hij).
  pose proof (sorted_lookup_le s j (length s - 1) _ _ Hs Hj' Hl' Hj).
  nia.
Qed.

Lemma sorted_bounds x v :
  v ∈ x →
  let s := merge_sort Z.le x in
  StronglySorted Z.le s ∧ s ≠ [] ∧ s !!! 0%nat ∈ x ∧ s !!! (length s - 1)%nat ∈ x ∧
  s !!! 0%nat ≤ v ≤ s !!! (length s - 1)%nat.
Proof.
  intros Hv s.
  assert (StronglySorted Z.le s) as Hs by (apply StronglySorted_merge_sort; apply _).
  assert (v ∈ s) as Hvs by (unfold s; by rewrite merge_sort_Permutation).
  apply list_elem_of_lookup in Hvs as [k Hk].
  pose proof (lookup_lt_Some _ _ _ Hk) as Hlt.
  assert (s !! 0%nat = Some (s !!! 0%nat)) as H0
    by (apply list_lookup_lookup_total_lt; lia).
  assert (s !! (length s - 1)%nat = Some (s !!! (length s - 1)%nat)) as Hn
    by (apply list_lookup_lookup_total_lt; lia).
  split; [done|]. split; [by intros Hnil; rewrite Hnil in Hlt; simpl in Hlt; lia|].
  split; [|split; [|split]].
  - rewrite <- (merge_sort_Permutation Z.le x). by eapply list_elem_of_lookup_2.
  - rewrite <- (merge_sort_Permutation Z.le x). by eapply list_elem_of_lookup_2.
  - eapply (sorted_lookup_le s 0 k); [done..|lia].
  - eapply (sorted_lookup_le s k); [done..|lia].
Qed.

End score_order.

(** ** Greatest and least rows *)

Section extremes.
Implicit Types (df : list order_row) (out : list rfm_record).

Lemma exists_max {A} (f : A → Z) (l : list A) :
  l ≠ [] → ∃ a, a ∈ l ∧ ∀ b, b ∈ l → f b ≤ f a.
Proof.
  induction l as [|a l IH]; [done|]. intros _.
  destruct l as [|a' l].
  - exists a. split; [left|]. by intros b ->%list_elem_of_singleton.
  - destruct IH as (m & Hm & Hmax); [done|].
    destruct (Z.le_gt_cases (f a) (f m)).
    + exists m. split; [by right|]. intros b [->|Hb]%elem_of_cons; auto.
    + exists a. split; [left|]. intros b [->|Hb]%elem_of_cons; [done|].
      specialize (Hmax b Hb). lia.
Qed.

Lemma exists_min {A} (f : A → Z) (l : list A) :
  l ≠ [] → ∃ a, a ∈ l ∧ ∀ b, b ∈ l → f a ≤ f b.
Proof.
  intros Hl. destruct (exists_max (λ a, - f a) l Hl) as (a & Ha & Hmax).
  exists a. split; [done|]. intros b Hb. specialize (Hmax b Hb). simpl in Hmax. lia.
Qed.

End extremes.

(** ** The filters (lines 68-92) *)

Section filters.
Implicit Types (main_df df : list main_row) (date_range : list Z)
  (selected_state : string).

Lemma foldl_min_spec (t : Z) (x : list Z) :
  foldl Z.min t x ∈ t :: x ∧ ∀ u, u ∈ t :: x → foldl Z.min t x ≤ u.
Proof.
  revert t. induction x as [|v x IH]; intros t; simpl.
  - split; [left|]. by intros u ->%list_elem_of_singleton.
  - destruct (IH (Z.min t v)) as [Hin Hle]. split.
    + apply elem_of_cons in Hin as [Hin|Hin]; [|by do 2 right].
      rewrite Hin. destruct (Z.min_spec t v) as [[_ ->]|[_ ->]];
        [left|right; left].
    + intros u Hu. rewrite !elem_of_cons in Hu.
      destruct Hu as [->|[->|Hu]].
      * etrans; [apply Hle; left|]. apply Z.le_min_l.
      * etrans; [apply Hle; left|]. apply Z.le_min_r.
      * apply Hle. by right.
Qed.

Lemma series_min_spec (x : list Z) (t : Z) :
  series_min x = Some t → t ∈ x ∧ ∀ u, u ∈ x → t ≤ u.
Proof.
  destruct x as [|v x]; [done|]. intros [= <-]. apply foldl_min_spec.
Qed.

Lemma day_of_mono (t u : Z) : t ≤ u → day_of t ≤ day_of u.
Proof. intros. unfold day_of. by apply Z.div_le_mono. Qed.

Lemma filter_all {A} (P : A → Prop) `{∀ x, Decision (P x)} (l : list A) :
  (∀ x, x ∈ l → P x) → filter P l = l.
Proof.
  induction l as [|y l IH]; intros HP; [done|].
  rewrite filter_cons, decide_True by (apply HP; left).
  f_equal. apply IH. intros x Hx. apply HP. by right.
Qed.

(** Every purchase date lies between the bounds of the date widget. *)
Lemma date_of_bounds main_df (d0 d1 : Z) (r : main_row) :
  min_date main_df = Some d0 → max_date main_df = Some d1 → r ∈ main_df →
  d0 ≤ date_of r ≤ d1.
Proof.
  unfold min_date, max_date.
  intros (t0 & [_ Hmin]%series_min_spec & ->)%fmap_Some
         (t1 & [_ Hmax]%series_max_spec & ->)%fmap_Some Hr.
  unfold date_of.
  assert (order_purchase_timestamp (purchase r)
            ∈ (order_purchase_timestamp ∘ purchase) <$> main_df) as Hts
    by (by apply (list_elem_of_fmap_2 (order_purchase_timestamp ∘ purchase))).
  split; apply day_of_mono; auto.
Qed.

(** X15.  With the initial values of the two widgets, the whole range of
    purchase dates and the state 'All', nothing is filtered out. *)
Theorem initial_selection_keeps_all main_df (d0 d1 : Z) :
  min_date main_df = Some d0 → max_date main_df = Some d1 →
  filtered_df [d0; d1] "All" main_df = main_df.
Proof.
  intros Hmin Hmax. unfold filtered_df, state_filter, date_filter.
  rewrite decide_False by (by intros ?). apply filter_all.
  intros r Hr. by apply (date_of_bounds main_df).
Qed.

Lemma filtered_df_sublist date_range selected_state main_df :
  filtered_df date_range selected_state main_df `sublist_of` main_df.
Proof.
  unfold filtered_df, state_filter, date_filter.
  assert (match date_range with
          | [d0; d1] => filter (λ r, d0 ≤ date_of r ∧ date_of r ≤ d1) main_df
          | _ => main_df
          end `sublist_of` main_df) as Hd.
  { destruct date_range as [|d0 [|d1 [|d2 l]]]; try done. apply sublist_filter. }
  case_decide; [|done]. by etrans; [apply sublist_filter|].
Qed.

Lemma elem_of_filtered_df date_range selected_state main_df (r : main_row) :
  r ∈ filtered_df date_range selected_state main_df ↔
  r ∈ main_df ∧
  (∀ d0 d1, date_range = [d0; d1] → d0 ≤ date_of r ≤ d1) ∧
  (selected_state ≠ "All" → customer_state r = selected_state).
Proof.
  assert (∀ r, r ∈ date_filter date_range main_df ↔
               r ∈ main_df ∧ ∀ d0 d1, date_range = [d0; d1] → d0 ≤ date_of r ≤ d1)
    as Hdate.
  { unfold date_filter.
    destruct date_range as [|d0 [|d1 [|d2 l]]];
      try (intros r'; split; [by intros ?|by intros [? _]]).
    intros r'. rewrite list_elem_of_filter. split.
    - intros [? ?]. split; [done|]. by intros ?? [= <- <-].
    - intros [? Hd]. split; [|done]. by apply Hd. }
  unfold filtered_df, state_filter. case_decide as Hs.
  - rewrite list_elem_of_filter, Hdate. split.
    + intros (? & ? & ?). done.
    + intros (? & ? & Hst). split; [by apply Hst|done].
  - rewrite Hdate. split.
    + intros [? ?]. done.
    + intros (? & ? & _). done.
Qed.

(** X16.  What the filters keep: the rows of [main_df], in their order, whose
    purchase date lies in the range, when the range is complete, and whose
    state is the selected one, unless 'All' is selected.  An incomplete
    range filters nothing. *)
Theorem filtered_df_spec date_range selected_state main_df :
  filtered_df date_range selected_state main_df `sublist_of` main_df ∧
  ∀ r, r ∈ filtered_df date_range selected_state main_df ↔
       r ∈ main_df ∧
       (∀ d0 d1, date_range = [d0; d1] → d0 ≤ date_of r ≤ d1) ∧
       (selected_state ≠ "All" → customer_state r = selected_state).
Proof.
  split; [apply filtered_df_sublist|]. intros r. apply elem_of_filtered_df.
Qed.

Lemma sublist_filter_mono {A} (P : A → Prop) `{∀ x, Decision (P x)} (l1 l2 : list A) :
  l1 `sublist_of` l2 → filter P l1 `sublist_of` filter P l2.
Proof.
  induction 1 as [|x l1 l2 _ IH|x l1 l2 _ IH]; [done| |].
  - rewrite !filter_cons. case_decide; [by constructor|done].
  - rewrite filter_cons. case_decide; [by constructor|done].
Qed.

Lemma sum_sublist (x y : list Z) :
  x `sublist_of` y → (∀ v, v ∈ y → 0 ≤ v) → foldr Z.add 0 x ≤ foldr Z.add 0 y.
Proof.
  induction 1 as [|v x y _ IH|v x y _ IH]; intros Hy; simpl; [done| |].
  - specialize (IH (λ u Hu, Hy u ltac:(by right))). lia.
  - specialize (IH (λ u Hu, Hy u ltac:(by right))).
    pose proof (Hy v ltac:(left)). lia.
Qed.

Lemma sublist_rfm (sel all : list order_row) :
  sel `sublist_of` all →
  total_customers sel ≤ total_customers all ∧
  total_orders sel ≤ total_orders all ∧
  ∀ rec, rec ∈ rfm_aggregate sel →
    ∃ rec', rec' ∈ rfm_aggregate all ∧ customer_id rec' = customer_id rec ∧
            frequency rec ≤ frequency rec' ∧
            ((∀ r, r ∈ all → 0 ≤ total_payment r) → monetary rec ≤ monetary rec').
Proof.
  intros Hsub.
  assert (∀ (f : order_row → string) (l1 l2 : list order_row),
            l1 `sublist_of` l2 → nunique (f <$> l1) ≤ nunique (f <$> l2)) as Hnu.
  { intros f l1 l2 Hl. rewrite !nunique_size. apply inj_le, subseteq_size.
    intros o. rewrite !elem_of_list_to_set. intros (r & -> & Hr)%list_elem_of_fmap.
    apply list_elem_of_fmap_2. by eapply elem_of_sublist. }
  split; [by apply Hnu|]. split; [by apply Hnu|].
  intros rec Hrec.
  assert (customer_id rec ∈ customer_id <$> rfm_aggregate all) as Hc.
  { apply elem_of_rfm_aggregate_ids.
    apply (list_elem_of_fmap_2 customer_id) in Hrec.
    apply elem_of_rfm_aggregate_ids in Hrec. unfold customers in *.
    rewrite elem_of_list_to_set in *.
    apply list_elem_of_fmap in Hrec as (r & -> & Hr).
    apply list_elem_of_fmap_2. by eapply elem_of_sublist. }
  apply list_elem_of_fmap in Hc as (rec' & Hid & Hrec').
  exists rec'. split; [done|]. split; [done|].
  apply elem_of_rfm_aggregate in Hrec as (ref & _ & _ & Heq).
  apply elem_of_rfm_aggregate in Hrec' as (ref' & _ & _ & Heq').
  rewrite <- Hid in Heq'.
  assert (rows_of (customer_id rec) sel `sublist_of` rows_of (customer_id rec) all)
    as Hrows by (by apply sublist_filter_mono).
  split.
  - rewrite Heq, Heq'. simpl. by apply Hnu.
  - intros Hpay. rewrite Heq, Heq'. simpl. rewrite !series_sum_exact.
    apply sum_sublist; [by apply fmap_sublist|].
    intros v (r & -> & Hr)%list_elem_of_fmap. apply Hpay.
    by apply list_elem_of_filter in Hr as [_ ?].
Qed.

(** X17.  Narrowing the selection can only lower the counts: the selection has
    no more customers and no more orders than the whole table, and each of
    its customers has at most the frequency, and for payments that are not
    negative at most the monetary value, it has in the whole table. *)
Theorem selection_shrinks date_range selected_state main_df :
  let all := purchase <$> main_df in
  let sel := purchase <$> filtered_df date_range selected_state main_df in
  total_customers sel ≤ total_customers all ∧
  total_orders sel ≤ total_orders all ∧
  ∀ rec, rec ∈ rfm_aggregate sel →
    ∃ rec', rec' ∈ rfm_aggregate all ∧ customer_id rec' = customer_id rec ∧
            frequency rec ≤ frequency rec' ∧
            ((∀ r, r ∈ all → 0 ≤ total_payment r) → monetary rec ≤ monetary rec').
Proof.
  intros all sel. apply sublist_rfm. unfold sel, all.
  apply fmap_sublist. apply filtered_df_sublist.
Qed.

(** X18.  The state widget offers 'All' and then the states of [main_df], each
    once, in alphabetical order; with the initial date range every state
    it offers selects at least one row. *)
Theorem states_spec main_df :
  ∃ rest,
    states main_df = "All" :: rest ∧
    Sorted String.le rest ∧ NoDup rest ∧
    (∀ s, s ∈ rest ↔ s ∈ customer_state <$> main_df) ∧
    ∀ s d0 d1,
      s ∈ rest → min_date main_df = Some d0 → max_date main_df = Some d1 →
      filtered_df [d0; d1] s main_df ≠ [].
Proof.
  exists (merge_sort String.le (remove_dups (customer_state <$> main_df))).
  assert (∀ s, s ∈ merge_sort String.le (remove_dups (customer_state <$> main_df)) ↔
               s ∈ customer_state <$> main_df) as Hin.
  { intros s. by rewrite merge_sort_Permutation, elem_of_remove_dups. }
  split; [done|]. split; [apply Sorted_merge_sort, _|].
  split; [rewrite merge_sort_Permutation; apply NoDup_remove_dups|].
  split; [done|].
  intros s d0 d1 (r & -> & Hr)%Hin%list_elem_of_fmap Hmin Hmax Hnil.
  assert (r ∈ filtered_df [d0; d1] (customer_state r) main_df) as Hsel.
  { apply elem_of_filtered_df. split; [done|]. split; [|done].
    intros ?? [= <- <-]. by apply (date_of_bounds main_df). }
  rewrite Hnil in Hsel. by apply elem_of_nil in Hsel.
Qed.

End filters.

(** ** Selections on which an axis is uniform *)

Section uniform_axis.
Implicit Types (df : list order_row) (x : list Z).

Lemma quantile_ge_min (s : list Z) (k : Z) :
  StronglySorted Z.le s → s ≠ [] → 0 ≤ k ≤ 5 →
  5 * s !!! 0%nat ≤ quantile 5 s k.
Proof.
  intros Hs Hne Hk. unfold quantile. cbv zeta.
  assert (1 ≤ length s)%nat as Hn by (destruct s; [done|simpl; lia]).
  set (n := Z.of_nat (length s)) in *.
  set (pos := k * (n - 1)).
  assert (0 ≤ pos ≤ 5 * (n - 1)) as Hpos by (unfold pos, n; nia).
  pose proof (Z.div_mod pos 5 ltac:(done)) as Hdm.
  pose proof (Z.mod_pos_bound pos 5 ltac:(done)) as Hmod.
  assert (0 ≤ pos `div` 5 ≤ n - 1) as Hlo by lia.
  clearbody pos.
  set (i := Z.to_nat (pos `div` 5)).
  set (j := Z.to_nat ((pos `div` 5 + 1) `min` (n - 1))).
  assert (i ≤ j ∧ j ≤ length s - 1)%nat as [Hij Hj] by (unfold i, j, n in *; lia).
  assert (s !! 0%nat = Some (s !!! 0%nat)) as H0'
    by (apply list_lookup_lookup_total_lt; lia).
  assert (s !! i = Some (s !!! i)) as Hi' by (apply list_lookup_lookup_total_lt; lia).
  assert (s !! j = Some (s !!! j)) as Hj' by (apply list_lookup_lookup_total_lt; lia).
  pose proof (sorted_lookup_le s 0 i _ _ Hs H0' Hi' ltac:(lia)).
  pose proof (sorted_lookup_le s i j _ _ Hs Hi' Hj' Hij).
  nia.
Qed.

(** A column whose values are all the same has six equal edges. *)
Lemma uniform_column_not_unique x (v : Z) :
  (∀ u, u ∈ x → u = v) → ¬ quintile_unique x.
Proof.
  intros Hx [Hne Hnd]. destruct x as [|w x]; [done|].
  destruct (sorted_bounds (w :: x) w ltac:(left)) as (Hs & Hsne & H0 & Hn & _).
  apply Hx in H0, Hn.
  rewrite quantile_bins_5 in Hnd. cbn [fmap list_fmap] in Hnd.
  pose proof (quantile_ge_min _ 0 Hs Hsne ltac:(lia)) as Ha.
  pose proof (quantile_le_max _ 0 Hs Hsne ltac:(lia)) as Hb.
  pose proof (quantile_ge_min _ 1 Hs Hsne ltac:(lia)) as Hc.
  pose proof (quantile_le_max _ 1 Hs Hsne ltac:(lia)) as Hd.
  rewrite H0 in Ha, Hc. rewrite Hn in Hb, Hd.
  apply NoDup_cons_1_1 in Hnd. apply Hnd. apply elem_of_cons. left. lia.
Qed.

Lemma uniform_axis_page df (v : Z) :
  (∀ rec, rec ∈ rfm_aggregate df → recency rec = v) ∨
  (∀ rec, rec ∈ rfm_aggregate df → monetary rec = v) →
  rfm_page df = bin_edges_page.
Proof.
  intros Hu. unfold rfm_page. rewrite rfm_engine_not_scorable; [done|].
  intros (Hr & _ & Hm). destruct Hu as [Hu|Hu].
  - apply (uniform_column_not_unique _ v) in Hr; [done|].
    intros u (rec & -> & Hrec)%list_elem_of_fmap. by apply Hu.
  - apply (uniform_column_not_unique _ v) in Hm; [done|].
    intros u (rec & -> & Hrec)%list_elem_of_fmap. by apply Hu.
Qed.

Lemma same_day_recency (T t : Z) :
  t ≤ T → day_of t = day_of T → days (T + Timedelta 1 - t) = 1.
Proof.
  unfold day_of, days, Timedelta. change NS_PER_DAY with 86400000000000.
  intros Hle Hday. Z.to_euclidean_division_equations. lia.
Qed.

(** X19.  When all customers of the selection have the same recency, or the
    same monetary value, the RFM page shows the error; this is the case
    of every selection of a single day, where each recency is 1. *)
Theorem single_day_selection :
  (∀ df v,
     (∀ rec, rec ∈ rfm_aggregate df → recency rec = v) ∨
     (∀ rec, rec ∈ rfm_aggregate df → monetary rec = v) →
     rfm_page df = bin_edges_page) ∧
  (∀ main_df d selected_state,
     rfm_page (purchase <$> filtered_df [d; d] selected_state main_df) = bin_edges_page).
Proof.
  split; [apply uniform_axis_page|].
  intros main_df d s. apply (uniform_axis_page _ 1). left.
  set (sel := purchase <$> filtered_df [d; d] s main_df).
  assert (∀ r, r ∈ sel → day_of (order_purchase_timestamp r) = d) as Hday.
  { intros r (r' & -> & Hr')%list_elem_of_fmap.
    apply elem_of_filtered_df in Hr' as (_ & Hd & _).
    specialize (Hd d d eq_refl). unfold date_of in Hd. lia. }
  intros rec (ref & Href & Hne & Heq)%elem_of_rfm_aggregate.
  destruct (reference_date_latest sel ref Href) as (T & -> & HT).
  destruct (rows_of_latest _ _ Hne) as (t & Hmax & Ht).
  rewrite Heq. simpl. unfold recency_of. rewrite Hmax.
  apply same_day_recency; [by eapply latest_rows_of_le|].
  destruct HT as [(rT & -> & HrT)%list_elem_of_fmap _].
  destruct Ht as [(rt & -> & Hrt)%list_elem_of_fmap _].
  apply list_elem_of_filter in Hrt as [_ Hrt].
  by rewrite !Hday.
Qed.

Lemma single_day_selection_witness :
  rfm_page five_customers_same_spend = bin_edges_page.
Proof.
  apply (proj1 single_day_selection five_customers_same_spend 7). right.
  apply list.Forall_forall. by_computation.
Defined.

End uniform_axis.

(** ** The engine over the edges pandas computes

    The facts of this part hold in every arithmetic [a] of the quantile
    edges; those that need it ask that the edges obey the laws of
    quantiles ([lawful]). *)

Section edges.
Context (a : edge_arithmetic).
Implicit Types (x labels : list Z) (v w : Z) (df : list order_row)
  (out : list rfm_record).

Lemma series_quantile_5 x :
  series_quantile a x 5 = edge a x 5 <$> [0; 1; 2; 3; 4; 5].
Proof. reflexivity. Qed.

Lemma qcut_with_inr x labels cats :
  length labels = 5%nat →
  qcut_with a x 5 labels = inr cats →
  edges_unique a x ∧ cats = edge_label a labels x <$> x.
Proof.
  intros Hlen. unfold qcut_with, raise. cbv zeta.
  case_decide as Hu; [done|]. repeat case_decide; intros [= <-].
  split; [|done]. apply dec_stable. intros Hx. apply Hu.
  split; [done|]. by rewrite series_quantile_5.
Qed.

Lemma qcut_with_raises x labels :
  ¬ edges_unique a x →
  qcut_with a x 5 labels =
    inl (ValueError (bin_edges_text (repr a (series_quantile a x 5)))).
Proof.
  intros Hx. unfold qcut_with. cbv zeta. rewrite decide_True; [done|].
  split; [done|]. by rewrite series_quantile_5.
Qed.

Lemma qcut_with_unique x labels :
  edges_unique a x → NoDup labels → length labels = 5%nat →
  qcut_with a x 5 labels = inr (edge_label a labels x <$> x).
Proof.
  intros Hx Hnd Hlen. unfold qcut_with. cbv zeta.
  rewrite decide_False by (intros [? _]; done).
  rewrite decide_False by (by intros ?).
  rewrite decide_False by (rewrite series_quantile_5; simpl; lia).
  done.
Qed.

(** What the laws give for a value of the column. *)
Lemma lawful_bounds x v :
  lawful a x → v ∈ x →
  ∃ lo hi,
    lo ∈ x ∧ hi ∈ x ∧ (∀ u, u ∈ x → lo ≤ u ≤ hi) ∧ 0 < scale a 5 ∧
    edge a x 5 0 = scale a 5 * lo ∧ edge a x 5 5 = scale a 5 * hi ∧
    StronglySorted Z.le (series_quantile a x 5).
Proof.
  intros Hlaw Hv. destruct Hlaw as (Hd & H0 & H5 & Hs).
  { intros ->. by apply elem_of_nil in Hv. }
  destruct (series_min x) as [lo|] eqn:Hlo; [|done].
  destruct (series_max x) as [hi|] eqn:Hhi; [|done].
  apply series_min_spec in Hlo as [Hlo1 Hlo2].
  apply series_max_spec in Hhi as [Hhi1 Hhi2].
  exists lo, hi. simpl in H0, H5.
  split; [done|]. split; [done|]. split; [by auto|]. split; [done|].
  split; [congruence|]. split; [congruence|].
  apply Sorted_StronglySorted; [|done]. intros ???; lia.
Qed.

Lemma strongly_sorted_le_last (e0 e1 e2 e3 e4 e5 : Z) :
  StronglySorted Z.le [e0; e1; e2; e3; e4; e5] →
  e0 ≤ e5 ∧ e1 ≤ e5 ∧ e2 ≤ e5 ∧ e3 ≤ e5 ∧ e4 ≤ e5.
Proof.
  intros Hs.
  repeat match goal with
         | H : StronglySorted _ (_ :: _) |- _ =>
             apply StronglySorted_inv in H as [? ?]
         | H : Forall _ (_ :: _) |- _ => apply list.Forall_cons in H as [? ?]
         end.
  lia.
Qed.

Lemma edge_bin_range x v :
  lawful a x → v ∈ x →
  (1 ≤ bin_id (scale a 5) (series_quantile a x 5) v ≤ 5)%nat.
Proof.
  intros Hlaw Hv.
  destruct (lawful_bounds x v Hlaw Hv) as (lo & hi & _ & _ & Hb & Hd & H0 & H5 & _).
  specialize (Hb v Hv). rewrite series_quantile_5. cbn [fmap list_fmap].
  unfold bin_id. cbn [head]. case_decide as Hhead; [lia|]. split.
  - cbn [searchsorted_left]. rewrite decide_True; [lia|].
    assert (scale a 5 * v ≠ edge a x 5 0) by congruence. nia.
  - eapply (searchsorted_left_le _ _ 5); [reflexivity|]. nia.
Qed.

Lemma edge_bin_min x v :
  lawful a x → v ∈ x → (∀ u, u ∈ x → v ≤ u) →
  bin_id (scale a 5) (series_quantile a x 5) v = 1%nat.
Proof.
  intros Hlaw Hv Hmin.
  destruct (lawful_bounds x v Hlaw Hv) as (lo & hi & Hlo & _ & Hb & Hd & H0 & _).
  assert (v = lo) as -> by (apply Z.le_antisymm; [by apply Hmin|by apply Hb]).
  rewrite series_quantile_5. cbn [fmap list_fmap]. unfold bin_id. cbn [head].
  rewrite decide_True; [done|]. by rewrite H0.
Qed.

Lemma edge_bin_max x v :
  lawful a x → edges_unique a x → v ∈ x → (∀ u, u ∈ x → u ≤ v) →
  bin_id (scale a 5) (series_quantile a x 5) v = 5%nat.
Proof.
  intros Hlaw [_ Hnd] Hv Hmax.
  destruct (lawful_bounds x v Hlaw Hv) as (lo & hi & _ & Hhi & Hb & Hd & _ & H5 & Hs).
  assert (v = hi) as -> by (apply Z.le_antisymm; [by apply Hb|by apply Hmax]).
  rewrite series_quantile_5 in *. cbn [fmap list_fmap] in *.
  apply strongly_sorted_le_last in Hs as (L0 & L1 & L2 & L3 & L4).
  assert (∀ i e, [edge a x 5 0; edge a x 5 1; edge a x 5 2; edge a x 5 3;
                  edge a x 5 4; edge a x 5 5] !! i = Some e →
                 (i < 5)%nat → e ≠ edge a x 5 5) as Hne.
  { intros i e Hi Hlt ->.
    pose proof (NoDup_lookup _ i 5 _ Hnd Hi eq_refl). lia. }
  pose proof (Hne 0%nat _ eq_refl ltac:(lia)).
  pose proof (Hne 1%nat _ eq_refl ltac:(lia)).
  pose proof (Hne 2%nat _ eq_refl ltac:(lia)).
  pose proof (Hne 3%nat _ eq_refl ltac:(lia)).
  pose proof (Hne 4%nat _ eq_refl ltac:(lia)).
  unfold bin_id. cbn [head].
  rewrite decide_False by (intros [= ?]; lia).
  cbn [searchsorted_left]. rewrite !decide_True by lia.
  rewrite decide_False; [done|]. lia.
Qed.

Lemma bin_id_scaled_mono (d : Z) (bins : list Z) v w :
  0 ≤ d → v ≤ w → (bin_id d bins v ≤ bin_id d bins w)%nat.
Proof.
  intros Hd Hvw. assert (d * v ≤ d * w) as Hle by nia.
  unfold bin_id. generalize dependent (d * w). generalize dependent (d * v).
  intros V W HVW.
  destruct bins as [|b bins]; [by rewrite !decide_False by done|].
  cbn [head searchsorted_left].
  repeat case_decide; simplify_eq;
    repeat match goal with
           | H : Some ?a ≠ Some ?b |- _ =>
               assert (a ≠ b) by (intros ?; apply H; congruence); clear H
           end;
    first [lia | apply le_n_S, searchsorted_left_mono; lia].
Qed.

Lemma edge_label_is_Some x labels v :
  lawful a x → length labels = 5%nat → v ∈ x →
  ∃ s, edge_label a labels x v = Some s ∧ s ∈ labels.
Proof.
  intros Hlaw Hlen Hv. pose proof (edge_bin_range x v Hlaw Hv) as Hid.
  unfold edge_label, take_label. rewrite decide_False by lia.
  destruct (lookup_lt_is_Some_2 labels
              (bin_id (scale a 5) (series_quantile a x 5) v - 1)) as [s Hs]; [lia|].
  exists s. split; [done|]. by eapply list_elem_of_lookup_2.
Qed.

Lemma edge_label_mono x v w sv sw :
  0 ≤ scale a 5 → v ≤ w →
  edge_label a [1; 2; 3; 4; 5] x v = Some sv →
  edge_label a [1; 2; 3; 4; 5] x w = Some sw →
  sv ≤ sw.
Proof.
  unfold edge_label.
  intros Hd Hvw ->%take_label_increasing ->%take_label_increasing.
  apply inj_le. by apply bin_id_scaled_mono.
Qed.

Lemma edge_label_antitone x v w sv sw :
  0 ≤ scale a 5 → v ≤ w →
  edge_label a [5; 4; 3; 2; 1] x v = Some sv →
  edge_label a [5; 4; 3; 2; 1] x w = Some sw →
  sw ≤ sv.
Proof.
  unfold edge_label.
  intros Hd Hvw ->%take_label_decreasing ->%take_label_decreasing.
  pose proof (bin_id_scaled_mono (scale a 5) (series_quantile a x 5) v w Hd Hvw). lia.
Qed.

Lemma edge_label_min labels x v (l0 : Z) :
  labels !! 0%nat = Some l0 →
  lawful a x → v ∈ x → (∀ u, u ∈ x → v ≤ u) → edge_label a labels x v = Some l0.
Proof.
  intros Hl Hlaw Hv Hmin. unfold edge_label. rewrite (edge_bin_min x v Hlaw Hv Hmin).
  unfold take_label. by rewrite decide_False by lia.
Qed.

Lemma edge_label_max labels x v (l4 : Z) :
  labels !! 4%nat = Some l4 →
  lawful a x → edges_unique a x → v ∈ x → (∀ u, u ∈ x → u ≤ v) →
  edge_label a labels x v = Some l4.
Proof.
  intros Hl Hlaw Hx Hv Hmax. unfold edge_label.
  rewrite (edge_bin_max x v Hlaw Hx Hv Hmax).
  unfold take_label. by rewrite decide_False by lia.
Qed.

(** A column whose values are all the same has equal lowest and highest
    edges. *)
Lemma uniform_edges_not_unique x v :
  lawful a x → (∀ u, u ∈ x → u = v) → ¬ edges_unique a x.
Proof.
  intros Hlaw Hx [Hne Hnd]. destruct x as [|w x]; [done|].
  destruct (lawful_bounds (w :: x) w Hlaw ltac:(left))
    as (lo & hi & Hlo & Hhi & _ & _ & H0 & H5 & _).
  apply Hx in Hlo, Hhi. subst lo hi.
  rewrite series_quantile_5 in Hnd. cbn [fmap list_fmap] in Hnd.
  pose proof (NoDup_lookup _ 0 5 (edge a (w :: x) 5 0) Hnd eq_refl) as Hi.
  cbn in Hi. rewrite H0, H5 in Hi. specialize (Hi eq_refl). lia.
Qed.

Lemma qcut_with_scores x labels :
  lawful a x → edges_unique a x → NoDup labels → length labels = 5%nat →
  ∃ scores, qcut_with a x 5 labels = inr (Some <$> scores).
Proof.
  intros Hlaw Hx Hnd Hlen. rewrite (qcut_with_unique x labels Hx Hnd Hlen).
  destruct (fmap_all_Some (edge_label a labels x) (λ _ _, True) x) as (scores & -> & _).
  { intros v Hv. destruct (edge_label_is_Some x labels v Hlaw Hlen Hv) as (s & -> & _).
    by exists s. }
  by exists scores.
Qed.

Lemma scorable_with_axes df :
  scorable_with a df ↔
  edges_unique a (recency <$> rfm_aggregate df) ∧
  edges_unique a (rank_first (frequency <$> rfm_aggregate df)) ∧
  edges_unique a (monetary <$> rfm_aggregate df).
Proof.
  unfold scorable_with, axes. cbv zeta.
  rewrite !list.Forall_cons, list.Forall_nil. tauto.
Qed.

Lemma lawful_on_axes df :
  lawful_on a df ↔
  lawful a (recency <$> rfm_aggregate df) ∧
  lawful a (rank_first (frequency <$> rfm_aggregate df)) ∧
  lawful a (monetary <$> rfm_aggregate df).
Proof.
  unfold lawful_on, axes. cbv zeta.
  rewrite !list.Forall_cons, list.Forall_nil. tauto.
Qed.

Lemma rfm_engine_with_inr df out :
  rfm_engine_with a df = inr out →
  let rfm_df := rfm_aggregate df in
  ∃ r f m,
    scorable_with a df ∧
    Some <$> r = edge_label a [5; 4; 3; 2; 1] (recency <$> rfm_df) <$> (recency <$> rfm_df) ∧
    Some <$> f = edge_label a [1; 2; 3; 4; 5] (rank_first (frequency <$> rfm_df))
                   <$> rank_first (frequency <$> rfm_df) ∧
    Some <$> m = edge_label a [1; 2; 3; 4; 5] (monetary <$> rfm_df) <$> (monetary <$> rfm_df) ∧
    out = attach_scores rfm_df r f m.
Proof.
  intros H. cbv zeta. unfold rfm_engine_with in H.
  set (rfm_df := rfm_aggregate df) in *. cbv zeta in H.
  destruct (qcut_with a (recency <$> rfm_df) 5 [5; 4; 3; 2; 1]) as [|r_cat] eqn:Hr; [done|].
  destruct (qcut_with a (rank_first (frequency <$> rfm_df)) 5 [1; 2; 3; 4; 5])
    as [|f_cat] eqn:Hf; [done|].
  destruct (qcut_with a (monetary <$> rfm_df) 5 [1; 2; 3; 4; 5]) as [|m_cat] eqn:Hm; [done|].
  cbn [bind] in H.
  destruct (astype_int r_cat) as [|r] eqn:Hri; [done|].
  destruct (astype_int f_cat) as [|f] eqn:Hfi; [done|].
  destruct (astype_int m_cat) as [|m] eqn:Hmi; [done|].
  cbn [bind] in H. injection H as <-.
  apply astype_int_inr in Hri as ->. apply astype_int_inr in Hfi as ->.
  apply astype_int_inr in Hmi as ->.
  apply qcut_with_inr in Hr as [Hru Hr]; [|done].
  apply qcut_with_inr in Hf as [Hfu Hf]; [|done].
  apply qcut_with_inr in Hm as [Hmu Hm]; [|done].
  exists r, f, m. split; [by apply scorable_with_axes|]. done.
Qed.

Lemma rfm_engine_with_scorable df :
  lawful_on a df → scorable_with a df →
  ∃ r f m, rfm_engine_with a df = inr (attach_scores (rfm_aggregate df) r f m).
Proof.
  intros (Lr & Lf & Lm)%lawful_on_axes (Hr & Hf & Hm)%scorable_with_axes.
  unfold rfm_engine_with. cbv zeta.
  destruct (qcut_with_scores _ [5; 4; 3; 2; 1] Lr Hr) as (r & ->);
    [by apply (bool_decide_unpack _)|done|].
  destruct (qcut_with_scores _ [1; 2; 3; 4; 5] Lf Hf) as (f & ->);
    [by apply (bool_decide_unpack _)|done|].
  destruct (qcut_with_scores _ [1; 2; 3; 4; 5] Lm Hm) as (m & ->);
    [by apply (bool_decide_unpack _)|done|].
  cbn [bind]. rewrite !astype_int_Some. cbn [bind]. by exists r, f, m.
Qed.

Lemma rfm_engine_with_not_scorable df :
  ¬ scorable_with a df →
  ∃ x, x ∈ axes df ∧ ¬ edges_unique a x ∧
       rfm_engine_with a df =
         inl (ValueError (bin_edges_text (repr a (series_quantile a x 5)))).
Proof.
  intros Hn. unfold rfm_engine_with, axes. cbv zeta.
  set (rfm_df := rfm_aggregate df).
  destruct (decide (edges_unique a (recency <$> rfm_df))) as [Hr|Hr]; last first.
  { exists (recency <$> rfm_df). split; [set_solver|]. split; [done|].
    by rewrite (qcut_with_raises _ _ Hr). }
  rewrite (qcut_with_unique _ [5; 4; 3; 2; 1] Hr);
    [|by apply (bool_decide_unpack _)|done]. cbn [bind].
  destruct (decide (edges_unique a (rank_first (frequency <$> rfm_df)))) as [Hf|Hf]; last first.
  { exists (rank_first (frequency <$> rfm_df)). split; [set_solver|]. split; [done|].
    by rewrite (qcut_with_raises _ _ Hf). }
  rewrite (qcut_with_unique _ [1; 2; 3; 4; 5] Hf);
    [|by apply (bool_decide_unpack _)|done]. cbn [bind].
  destruct (decide (edges_unique a (monetary <$> rfm_df))) as [Hm|Hm]; last first.
  { exists (monetary <$> rfm_df). split; [set_solver|]. split; [done|].
    by rewrite (qcut_with_raises _ _ Hm). }
  destruct Hn. by apply scorable_with_axes.
Qed.

Lemma rfm_engine_with_inr_rfm df out :
  rfm_engine_with a df = inr out → rfm <$> out = rfm_aggregate df.
Proof.
  intros (r & f & m & _ & Hr & Hf & Hm & ->)%rfm_engine_with_inr.
  apply fmap_Some_length in Hr, Hf, Hm.
  rewrite length_fmap in Hr, Hm.
  unfold rank_first in Hf. rewrite length_imap, length_fmap in Hf.
  by apply attach_scores_rfm.
Qed.

Lemma rfm_engine_with_inr_lookup df out (i : nat) rec :
  rfm_engine_with a df = inr out → out !! i = Some rec →
  let rfm_df := rfm_aggregate df in
  rfm_df !! i = Some (rfm rec) ∧
  edge_label a [5; 4; 3; 2; 1] (recency <$> rfm_df) (recency (rfm rec))
    = Some (r_score rec) ∧
  edge_label a [1; 2; 3; 4; 5] (rank_first (frequency <$> rfm_df))
    (rank_at (frequency <$> rfm_df) i (frequency (rfm rec)))
    = Some (f_score rec) ∧
  edge_label a [1; 2; 3; 4; 5] (monetary <$> rfm_df) (monetary (rfm rec))
    = Some (m_score rec) ∧
  segment rec = rfm_segment (r_score rec) (f_score rec) (m_score rec).
Proof.
  intros (r & f & m & _ & Hr & Hf & Hm & ->)%rfm_engine_with_inr Hi. cbv zeta.
  apply attach_scores_lookup in Hi as (Hc & Hri & Hfi & Hmi & Hseg).
  apply (f_equal (λ l, l !! i)) in Hr, Hf, Hm.
  unfold rank_first in Hf at 2.
  rewrite !list_lookup_fmap in Hr. rewrite !list_lookup_fmap in Hm.
  rewrite !list_lookup_fmap, list_lookup_imap, !list_lookup_fmap in Hf.
  rewrite Hc, Hri in Hr. rewrite Hc, Hfi in Hf. rewrite Hc, Hmi in Hm.
  simpl in Hr, Hf, Hm.
  split; [done|]. split; [congruence|]. split; [congruence|].
  split; [congruence|done].
Qed.

Lemma rfm_engine_with_contract df out :
  rfm_engine_with a df = inr out → one_record_per_customer df out.
Proof.
  intros H. unfold one_record_per_customer.
  assert (ids out = customer_id <$> rfm_aggregate df) as ->.
  { rewrite <- (rfm_engine_with_inr_rfm df out H).
    unfold ids. by rewrite <- list_fmap_compose. }
  split; [|split; [|split]].
  - apply rfm_aggregate_NoDup.
  - apply elem_of_rfm_aggregate_ids.
  - rewrite <- length_rfm_aggregate, <- (rfm_engine_with_inr_rfm df out H).
    by rewrite length_fmap.
  - intros rec [i Hi]%list_elem_of_lookup.
    destruct (rfm_engine_with_inr_lookup df out i rec H Hi) as (_ & _ & _ & _ & ->).
    apply rfm_segment_label.
Qed.

End edges.

(** ** Returned tables *)

Section returned_tables.
Context (a : edge_arithmetic).
Implicit Types (x : list Z) (df : list order_row) (out : list rfm_record).

Lemma rfm_page_with_inl df e :
  rfm_engine_with a df = inl e → rfm_page_with a df = error_page (exn_msg e).
Proof. intros H. unfold rfm_page_with. by rewrite H. Qed.

Lemma column_of_returned {df out} (f : customer_rfm → Z) (u : Z) :
  rfm_engine_with a df = inr out →
  u ∈ f <$> rfm_aggregate df → ∃ b, b ∈ out ∧ u = f (rfm b).
Proof.
  intros H. rewrite <- (rfm_engine_with_inr_rfm a df out H), <- list_fmap_compose.
  intros (b & -> & Hb)%list_elem_of_fmap. eauto.
Qed.

Lemma elem_of_returned_column {df out} (f : customer_rfm → Z) (r : rfm_record) :
  rfm_engine_with a df = inr out → r ∈ out → f (rfm r) ∈ f <$> rfm_aggregate df.
Proof.
  intros H Hr. rewrite <- (rfm_engine_with_inr_rfm a df out H), <- list_fmap_compose.
  by apply (list_elem_of_fmap_2 (f ∘ rfm)).
Qed.

Lemma lawful_scale df out :
  lawful_on a df → rfm_engine_with a df = inr out → out ≠ [] → 0 < scale a 5.
Proof.
  intros (Lr & _)%lawful_on_axes H Hne.
  apply Lr. intros Hnil%fmap_nil_inv. apply Hne.
  apply (fmap_nil_inv rfm). by rewrite (rfm_engine_with_inr_rfm a df out H).
Qed.

Lemma returned_scores_follow df out r1 r2 :
  lawful_on a df → rfm_engine_with a df = inr out → r1 ∈ out → r2 ∈ out →
  (monetary (rfm r1) ≤ monetary (rfm r2) → m_score r1 ≤ m_score r2) ∧
  (recency (rfm r1) ≤ recency (rfm r2) → r_score r2 ≤ r_score r1) ∧
  (frequency (rfm r1) < frequency (rfm r2) → f_score r1 ≤ f_score r2) ∧
  (monetary (rfm r1) = monetary (rfm r2) → m_score r1 = m_score r2) ∧
  (recency (rfm r1) = recency (rfm r2) → r_score r1 = r_score r2).
Proof.
  intros Hlaw H Hr1 Hr2.
  assert (0 ≤ scale a 5) as Hd.
  { apply Z.lt_le_incl, (lawful_scale df out Hlaw H). intros ->. by apply elem_of_nil in Hr1. }
  apply list_elem_of_lookup in Hr1 as [i Hi]. apply list_elem_of_lookup in Hr2 as [j Hj].
  destruct (rfm_engine_with_inr_lookup a df out i r1 H Hi) as (Hca & Hra & Hfa & Hma & _).
  destruct (rfm_engine_with_inr_lookup a df out j r2 H Hj) as (Hcb & Hrb & Hfb & Hmb & _).
  split; [|split; [|split; [|split]]].
  - intros Hle. by eapply (edge_label_mono a).
  - intros Hle. by eapply (edge_label_antitone a).
  - intros Hlt. refine (edge_label_mono a _ _ _ _ _ Hd _ Hfa Hfb).
    apply Z.lt_le_incl. apply rank_at_lt; [| |done].
    + by rewrite list_lookup_fmap, Hca.
    + by rewrite list_lookup_fmap, Hcb.
  - intros Heq. rewrite Heq in Hma. congruence.
  - intros Heq. rewrite Heq in Hra. congruence.
Qed.


Lemma returned_extreme df out r :
  lawful_on a df → rfm_engine_with a df = inr out → r ∈ out →
  ((∀ b, b ∈ out → monetary (rfm b) ≤ monetary (rfm r)) → m_score r = 5) ∧
  ((∀ b, b ∈ out → monetary (rfm r) ≤ monetary (rfm b)) → m_score r = 1) ∧
  ((∀ b, b ∈ out → recency (rfm b) ≤ recency (rfm r)) → r_score r = 1) ∧
  ((∀ b, b ∈ out → recency (rfm r) ≤ recency (rfm b)) → r_score r = 5).
Proof.
  intros (Lr & _ & Lm)%lawful_on_axes H Hr.
  pose proof Hr as [i Hi]%list_elem_of_lookup.
  destruct (rfm_engine_with_inr_lookup a df out i r H Hi) as (_ & Hrs & _ & Hms & _).
  destruct (rfm_engine_with_inr a df out H)
    as (_ & _ & _ & (Hru & _ & Hmu)%scorable_with_axes & _).
  pose proof (elem_of_returned_column monetary r H Hr) as Hma.
  pose proof (elem_of_returned_column recency r H Hr) as Hra.
  split; [|split; [|split]]; intros Hext.
  - rewrite (edge_label_max a [1; 2; 3; 4; 5] _ _ 5 eq_refl Lm Hmu Hma) in Hms; [congruence|].
    intros u Hu. destruct (column_of_returned monetary u H Hu) as (b & Hb & ->). auto.
  - rewrite (edge_label_min a [1; 2; 3; 4; 5] _ _ 1 eq_refl Lm Hma) in Hms; [congruence|].
    intros u Hu. destruct (column_of_returned monetary u H Hu) as (b & Hb & ->). auto.
  - rewrite (edge_label_max a [5; 4; 3; 2; 1] _ _ 1 eq_refl Lr Hru Hra) in Hrs; [congruence|].
    intros u Hu. destruct (column_of_returned recency u H Hu) as (b & Hb & ->). auto.
  - rewrite (edge_label_min a [5; 4; 3; 2; 1] _ _ 5 eq_refl Lr Hra) in Hrs; [congruence|].
    intros u Hu. destruct (column_of_returned recency u H Hu) as (b & Hb & ->). auto.
Qed.

Lemma returned_f_score_of_rank df out (ρ : Z) :
  rfm_engine_with a df = inr out →
  ρ ∈ rank_first (frequency <$> rfm_aggregate df) →
  ∃ r, r ∈ out ∧
       edge_label a [1; 2; 3; 4; 5] (rank_first (frequency <$> rfm_aggregate df)) ρ
         = Some (f_score r).
Proof.
  intros H [i Hi]%list_elem_of_lookup.
  apply rank_first_lookup_inv in Hi as (v & Hv & ->).
  rewrite <- (rfm_engine_with_inr_rfm a df out H), !list_lookup_fmap in Hv.
  destruct (out !! i) as [r|] eqn:Hr; [|done]. simpl in Hv. injection Hv as <-.
  exists r. split; [by eapply list_elem_of_lookup_2|].
  destruct (rfm_engine_with_inr_lookup a df out i r H Hr) as (_ & _ & Hf & _).
  exact Hf.
Qed.

Lemma returned_uses_1_and_5 df out :
  lawful_on a df → rfm_engine_with a df = inr out →
  (∃ r, r ∈ out ∧ r_score r = 1) ∧ (∃ r, r ∈ out ∧ r_score r = 5) ∧
  (∃ r, r ∈ out ∧ f_score r = 1) ∧ (∃ r, r ∈ out ∧ f_score r = 5) ∧
  (∃ r, r ∈ out ∧ m_score r = 1) ∧ (∃ r, r ∈ out ∧ m_score r = 5).
Proof.
  intros Hlaw H. pose proof Hlaw as (_ & Lf & _)%lawful_on_axes.
  destruct (rfm_engine_with_inr a df out H)
    as (_ & _ & _ & (Hru & Hfu & Hmu)%scorable_with_axes & _).
  assert (out ≠ []) as Hne.
  { intros ->. destruct Hru as [Hx _]. apply Hx.
    by rewrite <- (rfm_engine_with_inr_rfm a df [] H). }
  destruct (exists_max (recency ∘ rfm) out Hne) as (r1 & Hr1 & Hr1max).
  destruct (exists_min (recency ∘ rfm) out Hne) as (r5 & Hr5 & Hr5min).
  destruct (exists_min (monetary ∘ rfm) out Hne) as (m1 & Hm1 & Hm1min).
  destruct (exists_max (monetary ∘ rfm) out Hne) as (m5 & Hm5 & Hm5max).
  set (ranks := rank_first (frequency <$> rfm_aggregate df)) in *.
  set (n := length (frequency <$> rfm_aggregate df)).
  assert (1 ≤ n)%nat as Hn.
  { unfold n. rewrite length_fmap, <- (rfm_engine_with_inr_rfm a df out H), length_fmap.
    destruct out; [done|simpl; lia]. }
  assert (∀ ρ, ρ ∈ ranks ↔ 1 ≤ ρ ≤ Z.of_nat n) as Hranks.
  { intros ρ. unfold ranks. rewrite rank_first_perm, elem_of_seqZ.
    fold n. lia. }
  destruct (returned_f_score_of_rank df out 1 H) as (f1 & Hf1 & Hf1s); [apply Hranks; lia|].
  destruct (returned_f_score_of_rank df out (Z.of_nat n) H) as (f5 & Hf5 & Hf5s);
    [apply Hranks; lia|].
  fold ranks in Hf1s, Hf5s.
  rewrite (edge_label_min a [1; 2; 3; 4; 5] ranks 1 1 eq_refl Lf) in Hf1s;
    [|apply Hranks; lia|intros u Hu%Hranks; lia].
  rewrite (edge_label_max a [1; 2; 3; 4; 5] ranks _ 5 eq_refl Lf Hfu) in Hf5s;
    [|apply Hranks; lia|intros u Hu%Hranks; lia].
  split; [exists r1; split; [done|]; by apply (returned_extreme df out r1 Hlaw H Hr1)|].
  split; [exists r5; split; [done|]; by apply (returned_extreme df out r5 Hlaw H Hr5)|].
  split; [exists f1; split; [done|congruence]|].
  split; [exists f5; split; [done|congruence]|].
  split; [exists m1; split; [done|]; by apply (returned_extreme df out m1 Hlaw H Hm1)|].
  exists m5; split; [done|]; by apply (returned_extreme df out m5 Hlaw H Hm5).
Qed.

(** Unique edges need two different values. *)
Lemma unique_edges_two_values x :
  lawful a x → edges_unique a x → ∃ u v, u ∈ x ∧ v ∈ x ∧ u ≠ v.
Proof.
  intros Hlaw Hu. destruct x as [|w x]; [by destruct Hu as [? _]|].
  destruct (decide (Forall (λ u, u = w) (w :: x))) as [Hall|Hex].
  - destruct (uniform_edges_not_unique a (w :: x) w Hlaw); [|done].
    by apply list.Forall_forall.
  - apply not_Forall_Exists in Hex; [|apply _].
    apply list.Exists_exists in Hex as (u & Hu' & Hne). simpl in Hne.
    exists u, w. split; [done|]. split; [left|done].
Qed.

Lemma two_values_length {A} (l : list A) (u v : A) :
  u ∈ l → v ∈ l → u ≠ v → (2 ≤ length l)%nat.
Proof.
  destruct l as [|b [|c l]]; simpl; [by intros ?%elem_of_nil| |lia].
  intros ->%list_elem_of_singleton ->%list_elem_of_singleton. done.
Qed.

Lemma total_customers_length df :
  total_customers df = Z.of_nat (length (rfm_aggregate df)).
Proof.
  rewrite length_rfm_aggregate. unfold total_customers, customers.
  by rewrite nunique_size.
Qed.

Lemma few_customers_not_scorable df :
  lawful_on a df → total_customers df < 2 → ¬ scorable_with a df.
Proof.
  intros (Lr & _)%lawful_on_axes Hlt (Hr & _)%scorable_with_axes.
  destruct (unique_edges_two_values _ Lr Hr) as (u & v & Hu & Hv & Hne).
  pose proof (two_values_length _ u v Hu Hv Hne) as Hlen.
  rewrite length_fmap in Hlen. rewrite total_customers_length in Hlt. lia.
Qed.

End returned_tables.

(** ** The exact edges among the others *)

Section exact_edges.

Lemma qcut_with_exact (x labels : list Z) :
  (∃ cats, qcut x 5 labels = inr cats ∧ qcut_with exact_arithmetic x 5 labels = inr cats) ∨
  (∃ e e', qcut x 5 labels = inl e ∧ qcut_with exact_arithmetic x 5 labels = inl e').
Proof.
  unfold qcut, qcut_with, raise. cbv zeta.
  change (series_quantile exact_arithmetic x 5) with (quantile_bins 5 x).
  change (scale exact_arithmetic 5) with 5.
  repeat case_decide; eauto.
Qed.

(** [rfm_engine] is the engine over the exact edges. *)
Lemma rfm_engine_with_exact (df : list order_row) (out : list rfm_record) :
  rfm_engine df = inr out ↔ rfm_engine_with exact_arithmetic df = inr out.
Proof.
  unfold rfm_engine, rfm_engine_with. cbv zeta.
  destruct (qcut_with_exact (recency <$> rfm_aggregate df) [5; 4; 3; 2; 1])
    as [(r & -> & ->)|(? & ? & -> & ->)]; [|done].
  destruct (qcut_with_exact (rank_first (frequency <$> rfm_aggregate df)) [1; 2; 3; 4; 5])
    as [(f & -> & ->)|(? & ? & -> & ->)]; [|done].
  destruct (qcut_with_exact (monetary <$> rfm_aggregate df) [1; 2; 3; 4; 5])
    as [(m & -> & ->)|(? & ? & -> & ->)]; done.
Qed.

Lemma quantile_mono (s : list Z) (k k' : Z) :
  StronglySorted Z.le s → s ≠ [] → 0 ≤ k → k ≤ k' → k' ≤ 5 →
  quantile 5 s k ≤ quantile 5 s k'.
Proof.
  intros Hs Hne Hk Hkk Hk'. unfold quantile. cbv zeta.
  assert (1 ≤ length s)%nat as Hn by (destruct s; [done|simpl; lia]).
  set (n := Z.of_nat (length s)) in *.
  set (pos := k * (n - 1)). set (pos' := k' * (n - 1)).
  assert (0 ≤ pos ∧ pos ≤ pos' ∧ pos' ≤ 5 * (n - 1)) as (Hp0 & Hpp & Hp5)
    by (unfold pos, pos', n; nia).
  pose proof (Z.div_mod pos 5 ltac:(done)) as Hdm.
  pose proof (Z.mod_pos_bound pos 5 ltac:(done)) as Hmod.
  pose proof (Z.div_mod pos' 5 ltac:(done)) as Hdm'.
  pose proof (Z.mod_pos_bound pos' 5 ltac:(done)) as Hmod'.
  assert (0 ≤ pos `div` 5 ∧ pos `div` 5 ≤ pos' `div` 5 ∧ pos' `div` 5 ≤ n - 1)
    as (Hl0 & Hll & Hln) by lia.
  clearbody pos pos'.
  set (i := Z.to_nat (pos `div` 5)).
  set (j := Z.to_nat ((pos `div` 5 + 1) `min` (n - 1))).
  set (i' := Z.to_nat (pos' `div` 5)).
  set (j' := Z.to_nat ((pos' `div` 5 + 1) `min` (n - 1))).
  assert (i ≤ j ∧ i' ≤ j' ∧ j' ≤ length s - 1 ∧ i ≤ i')%nat as (Hij & Hij' & Hj' & Hii)
    by (unfold i, j, i', j', n in *; lia).
  assert (∀ m, (m ≤ length s - 1)%nat → s !! m = Some (s !!! m)) as Hlook
    by (intros m Hm; apply list_lookup_lookup_total_lt; lia).
  pose proof (sorted_lookup_le s i j _ _ Hs (Hlook i ltac:(lia)) (Hlook j ltac:(lia)) Hij).
  pose proof (sorted_lookup_le s i' j' _ _ Hs (Hlook i' ltac:(lia)) (Hlook j' ltac:(lia)) Hij').
  destruct (decide (i = i')) as [Heq|Hneq].
  - assert (j = j') as <- by (unfold i, j, i', j' in *; lia).
    rewrite <- Heq. assert (pos `mod` 5 ≤ pos' `mod` 5) by (unfold i, i' in *; lia). nia.
  - assert (j ≤ i')%nat as Hji by (unfold i, j, i', n in *; lia).
    pose proof (sorted_lookup_le s j i' _ _ Hs (Hlook j ltac:(lia)) (Hlook i' ltac:(lia)) Hji).
    nia.
Qed.

Lemma sorted_seq_fmap (f : Z → Z) (l : list Z) :
  StronglySorted Z.le l → (∀ k k', k ∈ l → k' ∈ l → k ≤ k' → f k ≤ f k') →
  Sorted Z.le (f <$> l).
Proof.
  intros Hl Hf. apply StronglySorted_Sorted.
  induction Hl as [|k l Hl IH Hall]; [constructor|].
  rewrite fmap_cons. constructor.
  - apply IH. intros k1 k2 H1 H2. apply Hf; by right.
  - apply list.Forall_fmap, list.Forall_forall. intros k' Hk'. simpl.
    rewrite list.Forall_forall in Hall. apply Hf; [left|by right|by apply Hall].
Qed.

(** The edges of exact arithmetic obey the laws on every column. *)
Lemma exact_lawful (x : list Z) : lawful exact_arithmetic x.
Proof.
  intros Hx. destruct x as [|w x]; [done|].
  destruct (sorted_bounds (w :: x) w ltac:(left)) as (Hs & Hne & H0 & Hn & _).
  cbv zeta in *. set (s := merge_sort Z.le (w :: x)) in *.
  assert (∀ v, v ∈ w :: x → s !!! 0%nat ≤ v ≤ s !!! (length s - 1)%nat) as Hb.
  { intros v Hv. by destruct (sorted_bounds (w :: x) v Hv) as (_ & _ & _ & _ & ?). }
  split; [done|]. split; [|split].
  - change (edge exact_arithmetic (w :: x) 5 0) with (quantile 5 s 0). rewrite quantile_first.
    destruct (series_min (w :: x)) as [lo|] eqn:Hlo; [|done].
    apply series_min_spec in Hlo as [Hlo1 Hlo2]. simpl. f_equal. f_equal.
    apply Z.le_antisymm; [by apply Hb|by apply Hlo2].
  - change (edge exact_arithmetic (w :: x) 5 5) with (quantile 5 s 5). rewrite quantile_last.
    destruct (series_max (w :: x)) as [hi|] eqn:Hhi; [|done].
    apply series_max_spec in Hhi as [Hhi1 Hhi2]. simpl. f_equal. f_equal.
    apply Z.le_antisymm; [by apply Hhi2|by apply Hb].
  - change (series_quantile exact_arithmetic (w :: x) 5) with (quantile 5 s <$> seqZ 0 6).
    apply sorted_seq_fmap; [apply (StronglySorted_seqZ 0 6)|].
    intros k k' Hk Hk' Hle. apply elem_of_seqZ in Hk, Hk'.
    apply quantile_mono; [done|done|lia..].
Qed.

Lemma exact_lawful_on (df : list order_row) : lawful_on exact_arithmetic df.
Proof. apply list.Forall_forall. intros x _. apply exact_lawful. Qed.

End exact_edges.

(** ** The output contract, the scores and the failures, in any arithmetic *)

Section contract_with.
Implicit Types (a : edge_arithmetic) (df : list order_row) (out : list rfm_record).

(** Six customers, two of whom spent the same: the third and the fourth
    exact edge of the monetary axis coincide and [rfm_engine] raises; the
    float64 edges are 1, 2, 3, 3.000000000000001, 5 and 10, the table is
    returned and the two customers share a score. *)
Lemma six_customers_returned :
  rfm_engine six_customers = inl (ValueError bin_edges_msg) ∧
  (λ k, np_quantile [1; 2; 3; 3; 5; 10] (percent (linspace 6 k))) <$> seqZ 0 6 =
    [ f64_of_Z 1; f64_of_Z 2; f64_of_Z 3;
      SpecFloat.S754_finite false 6755399441055746 (-51); f64_of_Z 5; f64_of_Z 10 ] ∧
  lawful_on float64_arithmetic six_customers ∧
  ∃ out, rfm_engine_with float64_arithmetic six_customers = inr out ∧
         (λ r, (monetary (rfm r), m_score r)) <$> out =
           [ (3, 2); (2, 1); (5, 4); (3, 2); (10, 5); (1, 1) ].
Proof.
  split; [vm_compute; reflexivity|]. split; [vm_compute; reflexivity|].
  split; [by_computation|].
  eexists. split; vm_compute; reflexivity.
Qed.

(** The scenarios of the specification come out in float64 as they do
    in exact arithmetic. *)
Lemma float64_five_customers :
  rfm_engine_with float64_arithmetic five_customers = inr five_customers_rfm.
Proof. vm_compute. reflexivity. Qed.

Lemma float64_one_customer :
  rfm_engine_with float64_arithmetic one_customer =
    inl (ValueError (bin_edges_text "Index([...], dtype='float64')")).
Proof. vm_compute. reflexivity. Qed.

(** C2, as stated, fails: a table with a single customer is not empty,
    and the engine returns no RFM table for it, in float64 as in exact
    arithmetic. *)
Lemma one_customer_no_record :
  one_customer ≠ [] ∧
  (¬ ∃ out, rfm_engine_with float64_arithmetic one_customer = inr out ∧
            one_record_per_customer one_customer out) ∧
  ¬ ∃ out, rfm_engine one_customer = inr out ∧
           one_record_per_customer one_customer out.
Proof.
  split; [done|]. split; intros (out & H & _).
  - by rewrite float64_one_customer in H.
  - by rewrite rfm_engine_one_customer in H.
Qed.

(** C2, amended.  The aggregated table has exactly one row per distinct
    customer of the input, for every input.  Whatever the arithmetic of
    the quantile edges, the engine returns a table only if the six edges
    are pairwise different on each of the three axes, and it does return
    one then when the edges obey the laws of quantiles; every table it
    returns is made of the aggregated rows and holds exactly one record
    per distinct customer identifier of the input (none dropped, none
    duplicated), each carrying one of the eight segment labels. *)
Theorem one_record_per_customer_when_returned a df :
  (NoDup (customer_id <$> rfm_aggregate df) ∧
   (∀ c, c ∈ customer_id <$> rfm_aggregate df ↔ c ∈ customers df) ∧
   length (rfm_aggregate df) = size (customers df)) ∧
  ((∃ out, rfm_engine_with a df = inr out) → scorable_with a df) ∧
  (lawful_on a df → scorable_with a df → ∃ out, rfm_engine_with a df = inr out) ∧
  (∀ out, rfm_engine_with a df = inr out →
          rfm <$> out = rfm_aggregate df ∧ one_record_per_customer df out).
Proof.
  split; [|split; [|split]].
  - split; [apply rfm_aggregate_NoDup|].
    split; [apply elem_of_rfm_aggregate_ids|apply length_rfm_aggregate].
  - intros [out H]. by apply (rfm_engine_with_inr a) in H as (_ & _ & _ & ? & _).
  - intros Hlaw Hs. destruct (rfm_engine_with_scorable a df Hlaw Hs) as (r & f & m & H).
    eauto.
  - intros out H. split.
    + by apply (rfm_engine_with_inr_rfm a).
    + by apply (rfm_engine_with_contract a).
Qed.

Lemma one_record_per_customer_when_returned_witness :
  (∃ out, rfm_engine_with float64_arithmetic five_customers = inr out) ∧
  rfm <$> five_customers_rfm = rfm_aggregate five_customers ∧
  one_record_per_customer five_customers five_customers_rfm.
Proof.
  split.
  - apply (proj1 (proj2 (proj2 (one_record_per_customer_when_returned float64_arithmetic five_customers))));
      by_computation.
  - apply (proj2 (proj2 (proj2 (one_record_per_customer_when_returned float64_arithmetic five_customers)))).
    vm_compute. reflexivity.
Defined.

(** C5, as stated, fails: a single customer gives one distinct value on
    every axis, and the error that reaches the caller is not a
    [DegenerateDistributionError], in float64 as in exact arithmetic. *)
Lemma one_customer_not_DegenerateDistributionError :
  degenerate one_customer ∧
  (¬ ∃ e, rfm_engine_with float64_arithmetic one_customer = inl e ∧
          exn_class e = "DegenerateDistributionError") ∧
  ¬ ∃ e, rfm_engine one_customer = inl e ∧
         exn_class e = "DegenerateDistributionError".
Proof.
  split; [left; vm_compute; lia|].
  split; intros (e & H & Hc).
  - rewrite float64_one_customer in H. injection H as <-. discriminate Hc.
  - rewrite rfm_engine_one_customer in H. injection H as <-. discriminate Hc.
Qed.

(** C5, amended.  When quintile binning fails on a scoring axis, that is
    when two of the six edges of the axis coincide, no degenerate-case
    policy applies: [pd.qcut] raises a [ValueError] whose text begins
    with 'Bin edges must be unique', and the catch-all handler of the
    script shows that text after 'Error loading data: '.  The edges
    coincide whenever all customers have the same value on an axis, as a
    single customer has.  No exception of another class reaches the
    handler. *)
Theorem degenerate_raises_ValueError a df :
  (¬ scorable_with a df →
   ∃ x, x ∈ axes df ∧ ¬ edges_unique a x ∧
        rfm_engine_with a df =
          inl (ValueError (bin_edges_text (repr a (series_quantile a x 5)))) ∧
        rfm_page_with a df =
          error_page (bin_edges_text (repr a (series_quantile a x 5)))) ∧
  (∀ x v, lawful_on a df → x ∈ axes df → (∀ u, u ∈ x → u = v) → ¬ scorable_with a df) ∧
  (∀ e, rfm_engine_with a df = inl e → exn_class e = "ValueError") ∧
  (∀ bins, ∃ rest, bin_edges_text bins = "Bin edges must be unique" +:+ rest).
Proof.
  split; [|split; [|split]].
  - intros (x & Hx & Hu & H)%rfm_engine_with_not_scorable.
    exists x. split; [done|]. split; [done|]. split; [done|].
    by rewrite (rfm_page_with_inl a df _ H).
  - intros x v Hlaw Hx Hv Hs.
    unfold lawful_on, scorable_with in *. rewrite list.Forall_forall in Hlaw, Hs.
    by apply (uniform_edges_not_unique a x v (Hlaw x Hx) Hv), Hs.
  - by intros [msg] _.
  - intros bins. by eexists.
Qed.

Lemma degenerate_raises_ValueError_witness :
  ∃ x, x ∈ axes one_customer ∧ ¬ edges_unique float64_arithmetic x ∧
       rfm_engine_with float64_arithmetic one_customer =
         inl (ValueError (bin_edges_text (repr float64_arithmetic (series_quantile float64_arithmetic x 5)))) ∧
       rfm_page_with float64_arithmetic one_customer =
         error_page (bin_edges_text (repr float64_arithmetic (series_quantile float64_arithmetic x 5))).
Proof.
  apply (proj1 (degenerate_raises_ValueError float64_arithmetic one_customer)).
  refute_by_computation.
Defined.

Lemma label_is_score (labels : list Z) (s : Z) :
  Forall is_score labels → s ∈ labels → is_score s.
Proof. rewrite list.Forall_forall. auto. Qed.

(** C7.  In every record of every table the engine returns, whatever the
    arithmetic of the quantile edges, r_score, f_score and m_score are
    integers from 1 to 5. *)
Theorem scores_between_1_and_5 a df out rec :
  rfm_engine_with a df = inr out → rec ∈ out →
  is_score (r_score rec) ∧ is_score (f_score rec) ∧ is_score (m_score rec).
Proof.
  intros H [i Hi]%list_elem_of_lookup.
  destruct (rfm_engine_with_inr_lookup a df out i rec H Hi)
    as (_ & Hr%take_label_elem & Hf%take_label_elem & Hm%take_label_elem & _).
  repeat split; (eapply label_is_score; [|done]);
    repeat constructor; unfold is_score; lia.
Qed.

Lemma scores_between_1_and_5_witness :
  let rec := score_row
    {| customer_id := "c3"; recency := 4; frequency := 1; monetary := 5 |} 4 2 4 in
  is_score (r_score rec) ∧ is_score (f_score rec) ∧ is_score (m_score rec).
Proof.
  eapply (scores_between_1_and_5 float64_arithmetic six_customers).
  - vm_compute. reflexivity.
  - in_table.
Defined.




End contract_with.

(** ** Whole numbers in float64 *)

Section f64_whole.
Implicit Types (c : positive) (k j : nat) (s : bool).

Lemma digits2_pos_shl c k :
  Z.pos (SpecFloat.digits2_pos (Nat.iter k xO c)) =
    Z.pos (SpecFloat.digits2_pos c) + Z.of_nat k.
Proof. induction k as [|k IH]; simpl; lia. Qed.

Lemma iter_pos_nat {A : Type} (f : A → A) (p : positive) (x : A) :
  SpecFloat.iter_pos f p x = Nat.iter (Pos.to_nat p) f x.
Proof.
  revert x. induction p as [p IH|p IH|]; intros x; cbn [SpecFloat.iter_pos].
  - rewrite !IH, Pos2Nat.inj_xI, <- Nat.iter_succ_r, <- Nat.iter_add.
    f_equal. lia.
  - rewrite !IH, Pos2Nat.inj_xO, <- Nat.iter_add. f_equal. lia.
  - done.
Qed.

Lemma shr_whole c k j :
  Nat.iter k SpecFloat.shr_1
    {| SpecFloat.shr_m := Z.pos (Nat.iter (k + j) xO c);
       SpecFloat.shr_r := false; SpecFloat.shr_s := false |} =
  {| SpecFloat.shr_m := Z.pos (Nat.iter j xO c);
     SpecFloat.shr_r := false; SpecFloat.shr_s := false |}.
Proof.
  induction k as [|k IH]; [done|].
  rewrite Nat.iter_succ_r. simpl. apply IH.
Qed.

Lemma shr_fexp_canonical (m : positive) (e : Z) :
  Z.pos (SpecFloat.digits2_pos m) = 53 → -1074 ≤ e →
  SpecFloat.shr_fexp 53 1024 (Z.pos m) e SpecFloat.loc_Exact =
    ({| SpecFloat.shr_m := Z.pos m; SpecFloat.shr_r := false;
        SpecFloat.shr_s := false |}, e).
Proof.
  intros Hd He. unfold SpecFloat.shr_fexp, SpecFloat.fexp, SpecFloat.emin.
  cbn [SpecFloat.Zdigits2 SpecFloat.shr_record_of_loc]. rewrite Hd.
  by replace (Z.max (53 + e - 53) (3 - 1024 - 53) - e) with 0 by lia.
Qed.

Lemma binary_round_aux_canonical s (m : positive) (e : Z) :
  Z.pos (SpecFloat.digits2_pos m) = 53 → -1074 ≤ e ≤ 971 →
  SpecFloat.binary_round_aux 53 1024 s (Z.pos m) e SpecFloat.loc_Exact =
    SpecFloat.S754_finite s m e.
Proof.
  intros Hd He. unfold SpecFloat.binary_round_aux.
  rewrite shr_fexp_canonical by lia.
  cbn [SpecFloat.shr_m SpecFloat.loc_of_shr_record SpecFloat.round_nearest_even].
  rewrite shr_fexp_canonical by lia. cbn [SpecFloat.shr_m].
  by replace (e <=? 1024 - 53) with true by (symmetry; apply Z.leb_le; lia).
Qed.

Lemma binary_round_whole s c k :
  Z.pos (SpecFloat.digits2_pos c) ≤ 53 →
  SpecFloat.binary_round 53 1024 s (Nat.iter k xO c) (- Z.of_nat k) =
    SpecFloat.S754_finite s
      (Nat.iter (Z.to_nat (53 - Z.pos (SpecFloat.digits2_pos c))) xO c)
      (Z.pos (SpecFloat.digits2_pos c) - 53).
Proof.
  intros Hd. set (d := Z.pos (SpecFloat.digits2_pos c)) in *.
  assert (0 < d) as Hd0 by (unfold d; lia).
  unfold SpecFloat.binary_round, SpecFloat.shl_align, SpecFloat.fexp, SpecFloat.emin.
  rewrite digits2_pos_shl. fold d.
  remember (Z.max (d + Z.of_nat k + - Z.of_nat k - 53) (3 - 1024 - 53)
            - - Z.of_nat k) as z eqn:Hz.
  assert (z = d - 53 + Z.of_nat k) as Hz' by lia.
  replace (Z.max (d + Z.of_nat k + - Z.of_nat k - 53) (3 - 1024 - 53)) with (d - 53) by lia.
  destruct z as [|q|q].
  - (* no shift on either side *)
    assert (k = Z.to_nat (53 - d)) as Hk by lia. rewrite <- Hk.
    replace (d - 53) with (- Z.of_nat k) by lia.
    apply binary_round_aux_canonical; [rewrite digits2_pos_shl; fold d|]; lia.
  - (* the mantissa is too long: shifted right, only zeros are lost *)
    unfold SpecFloat.binary_round_aux, SpecFloat.shr_fexp at 1, SpecFloat.fexp, SpecFloat.emin.
    cbn [SpecFloat.Zdigits2 SpecFloat.shr_record_of_loc]. rewrite digits2_pos_shl. fold d.
    replace (Z.max (d + Z.of_nat k + - Z.of_nat k - 53) (3 - 1024 - 53) - - Z.of_nat k)
      with (Z.pos q) by lia.
    cbn [SpecFloat.shr]. rewrite iter_pos_nat.
    replace (Nat.iter k xO c)
      with (Nat.iter (Pos.to_nat q + Z.to_nat (53 - d)) xO c) by (f_equal; lia).
    rewrite shr_whole.
    cbn [SpecFloat.shr_m SpecFloat.loc_of_shr_record SpecFloat.round_nearest_even].
    replace (- Z.of_nat k + Z.pos q) with (d - 53) by lia.
    rewrite shr_fexp_canonical by (rewrite ?digits2_pos_shl; fold d; lia).
    cbn [SpecFloat.shr_m].
    by replace (d - 53 <=? 1024 - 53) with true by (symmetry; apply Z.leb_le; lia).
  - (* the mantissa is too short: shifted left *)
    change (PosDef.Pos.iter xO (Nat.iter k xO c) q) with (Pos.iter xO (Nat.iter k xO c) q).
    rewrite Pos2Nat.inj_iter.
    change (nat_rect (λ _, positive) (Nat.iter k xO c) (λ _, xO) (Pos.to_nat q))
      with (Nat.iter (Pos.to_nat q) xO (Nat.iter k xO c)).
    rewrite <- Nat.iter_add.
    replace (Pos.to_nat q + k)%nat with (Z.to_nat (53 - d)) by lia.
    apply binary_round_aux_canonical; [rewrite digits2_pos_shl; fold d|]; lia.
Qed.

Lemma binary_round_whole_0 s c :
  Z.pos (SpecFloat.digits2_pos c) ≤ 53 →
  SpecFloat.binary_round 53 1024 s c 0 = f64_canonical s c.
Proof. apply (binary_round_whole s c 0). Qed.

Lemma pos_shl c k : Z.pos (Nat.iter k xO c) = Z.pos c * 2 ^ Z.of_nat k.
Proof.
  induction k as [|k IH]; [simpl; lia|].
  rewrite Nat2Z.inj_succ, Z.pow_succ_r by lia.
  change (Nat.iter (S k) xO c) with (xO (Nat.iter k xO c)).
  rewrite (Pos2Z.inj_xO (Nat.iter k xO c)), IH. lia.
Qed.

Lemma digits2_pos_bounds c :
  2 ^ (Z.pos (SpecFloat.digits2_pos c) - 1) ≤ Z.pos c < 2 ^ Z.pos (SpecFloat.digits2_pos c).
Proof.
  induction c as [c IH|c IH|]; cbn [SpecFloat.digits2_pos]; [| |simpl; lia].
  - rewrite Pos2Z.inj_succ, (Pos2Z.inj_xI c).
    replace (Z.succ (Z.pos (SpecFloat.digits2_pos c)) - 1)
      with (Z.succ (Z.pos (SpecFloat.digits2_pos c) - 1)) by lia.
    rewrite !Z.pow_succ_r by lia. lia.
  - rewrite Pos2Z.inj_succ, (Pos2Z.inj_xO c).
    replace (Z.succ (Z.pos (SpecFloat.digits2_pos c)) - 1)
      with (Z.succ (Z.pos (SpecFloat.digits2_pos c) - 1)) by lia.
    rewrite !Z.pow_succ_r by lia. lia.
Qed.

Lemma digits2_pos_le_53 c : Z.pos c < 2 ^ 53 → Z.pos (SpecFloat.digits2_pos c) ≤ 53.
Proof.
  intros Hc. destruct (digits2_pos_bounds c) as [Hlo _].
  destruct (decide (Z.pos (SpecFloat.digits2_pos c) ≤ 53)) as [|Hn]; [done|].
  assert (2 ^ 53 ≤ 2 ^ (Z.pos (SpecFloat.digits2_pos c) - 1)); [|lia].
  apply Z.pow_le_mono_r; lia.
Qed.

(** The float64 number of a whole number below 2^53. *)
Lemma f64_of_Z_canonical (a : Z) :
  a ≠ 0 → Z.abs a < 2 ^ 53 →
  f64_of_Z a = f64_canonical (a <? 0) (Z.to_pos (Z.abs a)).
Proof.
  intros Ha Hb. unfold f64_of_Z, f64_canonical.
  destruct a as [|c|c]; [done| |]; cbn [SpecFloat.binary_normalize Z.abs Z.to_pos Z.ltb Z.compare];
    apply (binary_round_whole _ c 0), digits2_pos_le_53; lia.
Qed.

(** A whole number below 2^53, written with [k] more binary places,
    rounds to itself. *)
Lemma binary_normalize_whole (n : Z) k :
  Z.abs n < 2 ^ 53 →
  SpecFloat.binary_normalize 53 1024 (n * 2 ^ Z.of_nat k) (- Z.of_nat k) false = f64_of_Z n.
Proof.
  intros Hn. destruct n as [|c|c].
  - done.
  - replace (Z.pos c * 2 ^ Z.of_nat k) with (Z.pos (Nat.iter k xO c)) by apply pos_shl.
    unfold f64_of_Z. cbn [SpecFloat.binary_normalize].
    rewrite (binary_round_whole _ c k), binary_round_whole_0;
      [done|apply digits2_pos_le_53; lia..].
  - replace (Z.neg c * 2 ^ Z.of_nat k) with (Z.neg (Nat.iter k xO c))
      by (rewrite <- !Pos2Z.opp_pos, pos_shl; lia).
    unfold f64_of_Z. cbn [SpecFloat.binary_normalize].
    rewrite (binary_round_whole _ c k), binary_round_whole_0;
      [done|apply digits2_pos_le_53; lia..].
Qed.

Lemma shl_align_fst (m : positive) (e e' : Z) :
  e' ≤ e → Z.pos (SpecFloat.shl_align m e e').1 = Z.pos m * 2 ^ (e - e').
Proof.
  intros He. unfold SpecFloat.shl_align.
  destruct (e' - e) as [|q|q] eqn:Hq; cbn [fst]; [| lia |].
  - replace (e - e') with 0 by lia. lia.
  - change (PosDef.Pos.iter xO m q) with (Pos.iter xO m q).
    rewrite Pos2Nat.inj_iter.
    change (nat_rect (λ _, positive) m (λ _, xO) (Pos.to_nat q))
      with (Nat.iter (Pos.to_nat q) xO m).
    rewrite pos_shl. do 2 f_equal. lia.
Qed.

Lemma cond_Zopp_canonical (a : Z) (k : Z) :
  a ≠ 0 → 0 ≤ k →
  SpecFloat.cond_Zopp (a <? 0) (Z.pos (Z.to_pos (Z.abs a)) * 2 ^ k) = a * 2 ^ k.
Proof.
  intros Ha Hk. destruct a as [|c|c]; [done|done|].
  cbn [Z.ltb Z.compare SpecFloat.cond_Zopp Z.abs Z.to_pos].
  change (Z.neg c) with (- Z.pos c). symmetry. apply Z.mul_opp_l.
Qed.

(** Adding and subtracting whole numbers is exact while the operands
    and the result stay below 2^53. *)
Lemma f64_add_whole (a b : Z) :
  Z.abs a < 2 ^ 53 → Z.abs b < 2 ^ 53 → Z.abs (a + b) < 2 ^ 53 →
  f64_add (f64_of_Z a) (f64_of_Z b) = f64_of_Z (a + b).
Proof.
  intros Ha Hb Hab.
  destruct (decide (a = 0)) as [->|Ha0].
  { destruct (decide (b = 0)) as [->|Hb0]; [done|].
    rewrite Z.add_0_l, (f64_of_Z_canonical b) by done. done. }
  destruct (decide (b = 0)) as [->|Hb0].
  { rewrite Z.add_0_r, (f64_of_Z_canonical a) by done. done. }
  rewrite (f64_of_Z_canonical a), (f64_of_Z_canonical b) by done.
  unfold f64_canonical, f64_add, SpecFloat.SFadd. cbv zeta.
  set (ca := Z.to_pos (Z.abs a)). set (cb := Z.to_pos (Z.abs b)).
  set (da := Z.pos (SpecFloat.digits2_pos ca)). set (db := Z.pos (SpecFloat.digits2_pos cb)).
  assert (0 < da ≤ 53) as Hda by (split; [unfold da; lia|apply digits2_pos_le_53; unfold ca; lia]).
  assert (0 < db ≤ 53) as Hdb by (split; [unfold db; lia|apply digits2_pos_le_53; unfold cb; lia]).
  set (ez := Z.min (da - 53) (db - 53)).
  rewrite !shl_align_fst, !pos_shl by (unfold ez; lia).
  rewrite <- !Z.mul_assoc, <- !Z.pow_add_r by lia.
  replace (Z.of_nat (Z.to_nat (53 - da)) + (da - 53 - ez)) with (- ez) by lia.
  replace (Z.of_nat (Z.to_nat (53 - db)) + (db - 53 - ez)) with (- ez) by lia.
  unfold ca, cb. rewrite !cond_Zopp_canonical by (unfold ez; lia).
  rewrite <- Z.mul_add_distr_r.
  replace ez with (- Z.of_nat (Z.to_nat (- ez))) at 2 by lia.
  replace (- ez) with (Z.of_nat (Z.to_nat (- ez))) at 1 by lia.
  by apply binary_normalize_whole.
Qed.

Lemma f64_sub_whole (a b : Z) :
  Z.abs a < 2 ^ 53 → Z.abs b < 2 ^ 53 → Z.abs (a - b) < 2 ^ 53 →
  f64_sub (f64_of_Z a) (f64_of_Z b) = f64_of_Z (a - b).
Proof.
  intros Ha Hb Hab.
  destruct (decide (b = 0)) as [->|Hb0].
  { rewrite Z.sub_0_r. destruct (decide (a = 0)) as [->|Ha0]; [done|].
    rewrite (f64_of_Z_canonical a) by done. done. }
  destruct (decide (a = 0)) as [->|Ha0].
  { rewrite Z.sub_0_l, (f64_of_Z_canonical b), (f64_of_Z_canonical (- b)) by lia.
    rewrite Z.abs_opp. unfold f64_canonical, f64_sub. cbn [f64_of_Z SpecFloat.binary_normalize SpecFloat.SFsub].
    f_equal. destruct b; done. }
  rewrite (f64_of_Z_canonical a), (f64_of_Z_canonical b) by done.
  unfold f64_canonical, f64_sub, SpecFloat.SFsub. cbv zeta.
  set (ca := Z.to_pos (Z.abs a)). set (cb := Z.to_pos (Z.abs b)).
  set (da := Z.pos (SpecFloat.digits2_pos ca)). set (db := Z.pos (SpecFloat.digits2_pos cb)).
  assert (0 < da ≤ 53) as Hda by (split; [unfold da; lia|apply digits2_pos_le_53; unfold ca; lia]).
  assert (0 < db ≤ 53) as Hdb by (split; [unfold db; lia|apply digits2_pos_le_53; unfold cb; lia]).
  set (ez := Z.min (da - 53) (db - 53)).
  rewrite !shl_align_fst, !pos_shl by (unfold ez; lia).
  rewrite <- !Z.mul_assoc, <- !Z.pow_add_r by lia.
  replace (Z.of_nat (Z.to_nat (53 - da)) + (da - 53 - ez)) with (- ez) by lia.
  replace (Z.of_nat (Z.to_nat (53 - db)) + (db - 53 - ez)) with (- ez) by lia.
  unfold ca, cb. rewrite !cond_Zopp_canonical by (unfold ez; lia).
  rewrite <- Z.mul_sub_distr_r.
  replace ez with (- Z.of_nat (Z.to_nat (- ez))) at 2 by lia.
  replace (- ez) with (Z.of_nat (Z.to_nat (- ez))) at 1 by lia.
  by apply binary_normalize_whole.
Qed.

(** A whole number below 2^53 is a float64 number. *)
Lemma f64_value_whole (n : Z) :
  Z.abs n < 2 ^ 53 →
  ∃ q : Q, f64_value (f64_of_Z n) = Some q ∧ (q == inject_Z n)%Q.
Proof.
  intros Hn. destruct (decide (n = 0)) as [->|Hn0].
  { by exists (inject_Z 0). }
  rewrite f64_of_Z_canonical by done. unfold f64_canonical, f64_value.
  set (c := Z.to_pos (Z.abs n)). set (d := Z.pos (SpecFloat.digits2_pos c)).
  assert (0 < d ≤ 53) as Hd by (split; [unfold d; lia|apply digits2_pos_le_53; unfold c; lia]).
  set (m := Nat.iter (Z.to_nat (53 - d)) xO c).
  assert (Z.pos m = Z.abs n * 2 ^ (53 - d)) as Hm.
  { unfold m. rewrite pos_shl. unfold c. rewrite Z2Pos.id by lia. do 2 f_equal. lia. }
  assert ((if n <? 0 then Z.neg m else Z.pos m) = n * 2 ^ (53 - d)) as Hs.
  { destruct (Z.ltb_spec n 0).
    - change (Z.neg m) with (- Z.pos m). rewrite Hm. rewrite Z.abs_neq by lia.
      rewrite Z.mul_opp_l. lia.
    - rewrite Hm, Z.abs_eq by lia. done. }
  eexists. split; [done|]. rewrite Hs.
  assert (0 < 2 ^ (53 - d)) by (apply Z.pow_pos_nonneg; lia).
  case_decide as He.
  - replace (d - 53) with 0 by lia. replace (53 - d) with 0 by lia.
    rewrite Z.pow_0_r, !Z.mul_1_r. reflexivity.
  - unfold Qeq, inject_Z. cbn [Qnum Qden].
    replace (- (d - 53)) with (53 - d) by lia.
    rewrite Z2Pos.id by lia. lia.
Qed.

Lemma series_sum_cons (v : Z) (x : list Z) : series_sum (v :: x) = v + series_sum x.
Proof.
  by rewrite !series_sum_exact.
Qed.

Lemma series_sum_abs (x : list Z) : Z.abs (series_sum x) ≤ series_sum (Z.abs <$> x).
Proof.
  induction x as [|v x IH]; [done|].
  rewrite fmap_cons, !series_sum_cons. lia.
Qed.

Lemma series_sum_abs_nonneg (x : list Z) : 0 ≤ series_sum (Z.abs <$> x).
Proof. pose proof (series_sum_abs x). lia. Qed.

(** One step of the compensated sum over whole numbers: the addition is
    exact and the compensation stays zero. *)
Lemma kahan_step_whole (t v : Z) :
  Z.abs t + Z.abs v < 2 ^ 53 →
  kahan_step (f64_of_Z t, f64_zero) (f64_of_Z v) = (f64_of_Z (t + v), f64_zero).
Proof.
  intros Hb. unfold kahan_step. cbn [fst snd].
  change f64_zero with (f64_of_Z 0).
  rewrite (f64_sub_whole v 0), Z.sub_0_r by lia.
  rewrite (f64_add_whole t v) by lia.
  rewrite (f64_sub_whole (t + v) t) by lia.
  replace (t + v - t) with v by lia.
  rewrite (f64_sub_whole v v), Z.sub_diag by lia. done.
Qed.

(** The float64 sum of whole amounts is their exact sum while the
    absolute amounts total less than 2^53. *)
Lemma group_sum_whole (x : list Z) :
  series_sum (Z.abs <$> x) < 2 ^ 53 →
  group_sum (f64_of_Z <$> x) = f64_of_Z (series_sum x).
Proof.
  unfold group_sum. change f64_zero with (f64_of_Z 0) at 1.
  assert (∀ t, Z.abs t + series_sum (Z.abs <$> x) < 2 ^ 53 →
               (foldl kahan_step (f64_of_Z t, f64_zero) (f64_of_Z <$> x)).1 =
               f64_of_Z (t + series_sum x)) as H.
  { induction x as [|v x IH]; intros t Ht.
    - cbn. by rewrite Z.add_0_r.
    - rewrite fmap_cons, series_sum_cons in Ht.
      pose proof (series_sum_abs_nonneg x).
      rewrite fmap_cons. cbn [foldl]. rewrite kahan_step_whole by lia.
      rewrite IH by lia. rewrite series_sum_cons. f_equal. lia. }
  intros Hx. rewrite (H 0) by (simpl; lia). done.
Qed.

Lemma series_sum_app (x y : list Z) : series_sum (x ++ y) = series_sum x + series_sum y.
Proof.
  rewrite !series_sum_exact. induction x as [|v x IH]; simpl; lia.
Qed.

(** In whatever order and grouping whole numbers are added in float64,
    the result is their exact sum while the absolute values total less
    than 2^53. *)
Lemma float_sum_whole (t : summation) :
  series_sum (Z.abs <$> terms t) < 2 ^ 53 →
  float_sum t = f64_of_Z (series_sum (terms t)).
Proof.
  induction t as [v|l IHl r IHr]; intros Hb; cbn [terms float_sum] in *.
  - by rewrite series_sum_cons, Z.add_0_r.
  - rewrite fmap_app, series_sum_app in Hb.
    pose proof (series_sum_abs (terms l)). pose proof (series_sum_abs (terms r)).
    pose proof (series_sum_abs_nonneg (terms l)).
    pose proof (series_sum_abs_nonneg (terms r)).
    rewrite IHl, IHr, series_sum_app by lia.
    apply f64_add_whole; lia.
Qed.

End f64_whole.

(** ** The monetary column in float64 *)

Section float_whole.
Implicit Types (df : list order_row) (c : string).

Lemma filter_fmap_key {A B} (f : A → B) (P : B → Prop) `{∀ x, Decision (P x)} (l : list A) :
  filter P (f <$> l) = f <$> filter (P ∘ f) l.
Proof.
  induction l as [|x l IH]; [done|].
  rewrite fmap_cons, !filter_cons. simpl.
  destruct (decide (P (f x))); by rewrite IH.
Qed.

(** Grouping commutes with a change of the rows that keeps the key. *)
Lemma groupby_fmap {A B} (key : A → string) (key' : B → string) (f : A → B) (l : list A) :
  (∀ r, key' (f r) = key r) →
  groupby key' (f <$> l) =
    (λ g : string * list A, (g.1, f <$> g.2)) <$> groupby key l.
Proof.
  intros Hkey.
  set (F := λ k, f <$> filter (λ r, key r = k) l).
  assert (∀ (t : list (string * list B)),
            (∀ p, p ∈ t → p.2 = F p.1) → t = (λ k, (k, F k)) <$> t.*1) as Hdet.
  { induction t as [|[k g] t IH]; intros Ht; [done|].
    rewrite !fmap_cons. simpl. f_equal.
    - f_equal. apply (Ht (k, g)). left.
    - apply IH. intros p Hp. apply Ht. by right. }
  rewrite (Hdet (groupby key' (f <$> l))), (Hdet ((λ g : string * list A, (g.1, f <$> g.2)) <$> groupby key l)).
  - f_equal. rewrite <- list_fmap_compose.
    change (fst ∘ (λ g : string * list A, (g.1, f <$> g.2))) with (fst : string * list A → string).
    apply (Sorted_unique String.le); [apply groupby_keys_sorted..|].
    apply NoDup_Permutation; [apply groupby_keys_NoDup..|].
    intros k. rewrite !elem_of_groupby_keys, <- list_fmap_compose.
    rewrite !list_elem_of_fmap.
    split; intros (r & -> & Hr); exists r; (split; [|done]); simpl; by rewrite Hkey.
  - intros p ([k g] & -> & [-> _]%elem_of_groupby)%list_elem_of_fmap. done.
  - intros [k g] [-> _]%elem_of_groupby. simpl. unfold F.
    rewrite filter_fmap_key. f_equal. apply list_filter_iff. intros r. simpl. by rewrite Hkey.
Qed.

Lemma series_sum_abs_filter (P : order_row → Prop) `{∀ x, Decision (P x)} df :
  series_sum ((Z.abs ∘ total_payment) <$> filter P df) ≤
  series_sum ((Z.abs ∘ total_payment) <$> df).
Proof.
  induction df as [|r df IH]; [done|].
  rewrite filter_cons. destruct (decide (P r)); rewrite ?fmap_cons, ?series_sum_cons; simpl; lia.
Qed.

(** The float64 column of whole amounts: while the absolute amounts
    total less than 2^53, its sums per customer are the exact sums of
    the aggregated table, customer by customer. *)
Lemma float_monetary_whole df :
  exact_sums df →
  Float64.monetary (float_rows df) =
    (λ rec, (customer_id rec, f64_of_Z (monetary rec))) <$> rfm_aggregate df.
Proof.
  intros Hex. unfold Float64.monetary, float_rows.
  rewrite (groupby_fmap customer_unique_id) by done.
  rewrite <- list_fmap_compose.
  unfold rfm_aggregate. destruct (reference_date df) as [ref|] eqn:Href.
  - rewrite <- list_fmap_compose. apply Forall_fmap_ext_1, list.Forall_forall.
    intros [c g] [-> _]%elem_of_groupby. cbn [compose fst snd agg_group customer_id monetary].
    f_equal. rewrite <- list_fmap_compose.
    change (Float64.total_payment ∘ _) with (f64_of_Z ∘ total_payment).
    rewrite list_fmap_compose. apply group_sum_whole.
    rewrite <- list_fmap_compose.
    eapply Z.le_lt_trans; [apply series_sum_abs_filter|done].
  - by rewrite (reference_date_None df Href).
Qed.
End float_whole.

Section float_sums.
Implicit Types (fdf : list Float64.order_row) (c : string) (p : f64).

Lemma float_monetary_of_customer fdf c :
  c ∈ Float64.customer_unique_id <$> fdf →
  filter (λ row, row.1 = c) (Float64.monetary fdf) =
    [ (c, group_sum (Float64.total_payment
                       <$> filter (λ r, Float64.customer_unique_id r = c) fdf)) ].
Proof.
  intros Hc. unfold Float64.monetary.
  set (g := filter (λ r, Float64.customer_unique_id r = c) fdf).
  assert ((c, g) ∈ groupby Float64.customer_unique_id fdf) as Hg.
  { apply elem_of_groupby. split; [done|].
    apply list_elem_of_fmap in Hc as (r & -> & Hr).
    intros Hnil. by eapply (filter_nil_not_elem_of _ _ r), Hr. }
  set (agg := λ g : string * list Float64.order_row,
                (g.1, group_sum (Float64.total_payment <$> g.2))).
  apply (filter_NoDup_fmap fst _ (agg (c, g))).
  - rewrite <- list_fmap_compose.
    apply (groupby_keys_NoDup Float64.customer_unique_id fdf).
  - by apply (list_elem_of_fmap_2 agg).
Qed.

(** One payment is its own sum ... *)
Lemma group_sum_one p (q : Q) :
  f64_value p = Some q → f64_value (group_sum [p]) = Some q.
Proof.
  unfold group_sum, kahan_step. cbn [foldl fst snd].
  destruct p as [[]|[]| |s m e]; cbn; done.
Qed.

Lemma f64_sub_diag s m e :
  f64_sub (SpecFloat.S754_finite s m e) (SpecFloat.S754_finite s m e) = f64_zero.
Proof.
  unfold f64_sub, SpecFloat.SFsub. cbv zeta.
  set (n := SpecFloat.cond_Zopp s _).
  by replace (IntDef.Z.sub n n) with 0 by (symmetry; apply Z.sub_diag).
Qed.

(** ... and the sum of two payments is their float64 sum: the
    compensation of the first step is zero. *)
Lemma group_sum_two s1 m1 e1 s2 m2 e2 :
  group_sum [SpecFloat.S754_finite s1 m1 e1; SpecFloat.S754_finite s2 m2 e2] =
  f64_add (SpecFloat.S754_finite s1 m1 e1) (SpecFloat.S754_finite s2 m2 e2).
Proof.
  unfold group_sum. cbn [foldl]. unfold kahan_step at 2. cbn [fst snd].
  change (f64_sub (SpecFloat.S754_finite s1 m1 e1) f64_zero)
    with (SpecFloat.S754_finite s1 m1 e1).
  change (f64_add f64_zero (SpecFloat.S754_finite s1 m1 e1))
    with (SpecFloat.S754_finite s1 m1 e1).
  change (f64_sub (SpecFloat.S754_finite s1 m1 e1) f64_zero)
    with (SpecFloat.S754_finite s1 m1 e1).
  rewrite f64_sub_diag. cbn [f64_is_nan f64_zero].
  unfold kahan_step. cbn [fst snd].
  change (f64_sub (SpecFloat.S754_finite s2 m2 e2) (SpecFloat.S754_zero false))
    with (SpecFloat.S754_finite s2 m2 e2).
  done.
Qed.

(** C3, as stated, fails: the monetary value of a customer who paid 0.1
    and 0.2 is the float64 number 0.30000000000000004, which is not the
    exact sum of the two payments. *)
Lemma monetary_not_exact_sum :
  ∃ m : f64,
    Float64.monetary two_payments = [ ("ana", m) ] ∧
    ∃ q q1 q2 : Q,
      f64_value m = Some q ∧
      f64_value (decimal 1 1) = Some q1 ∧ f64_value (decimal 2 1) = Some q2 ∧
      ¬ (q == q1 + q2)%Q.
Proof.
  eexists. split; [vm_compute; reflexivity|].
  eexists _, _, _. split; [vm_compute; reflexivity|].
  split; [vm_compute; reflexivity|]. split; [vm_compute; reflexivity|].
  unfold Qeq. vm_compute. discriminate.
Qed.

(** C3, amended.  For every customer of the filtered input there is
    exactly one aggregated row, and its [frequency] is the number of
    distinct order identifiers among the customer's rows.  Its [monetary]
    is the float64 sum of the payments of the customer's rows, added in
    row order with compensated summation: the payment itself for one
    row, the rounded sum of the two payments for two rows.  It is the
    exact sum of these payments where the amounts are whole and their
    absolute values total less than 2^53: no addition rounds then. *)
Theorem frequency_and_float_monetary :
  (∀ (df : list order_row) c,
     c ∈ customers df →
     ∃ rec,
       filter (λ x, customer_id x = c) (rfm_aggregate df) = [rec] ∧
       customer_id rec = c ∧
       frequency rec = Z.of_nat (size (orders (rows_of c df))) ∧
       (exact_sums df →
        monetary rec = payments (rows_of c df) ∧
        filter (λ row, row.1 = c) (Float64.monetary (float_rows df)) =
          [ (c, f64_of_Z (payments (rows_of c df))) ] ∧
        ∃ q : Q, f64_value (f64_of_Z (payments (rows_of c df))) = Some q ∧
                 (q == inject_Z (payments (rows_of c df)))%Q)) ∧
  (∀ fdf c,
     c ∈ Float64.customer_unique_id <$> fdf →
     filter (λ row, row.1 = c) (Float64.monetary fdf) =
       [ (c, group_sum (Float64.total_payment
                          <$> filter (λ r, Float64.customer_unique_id r = c) fdf)) ]) ∧
  (∀ p q, f64_value p = Some q → f64_value (group_sum [p]) = Some q) ∧
  (∀ s1 m1 e1 s2 m2 e2,
     group_sum [SpecFloat.S754_finite s1 m1 e1; SpecFloat.S754_finite s2 m2 e2] =
     f64_add (SpecFloat.S754_finite s1 m1 e1) (SpecFloat.S754_finite s2 m2 e2)).
Proof.
  split; [|split; [|split]].
  - intros df c Hc. apply elem_of_rfm_aggregate_ids in Hc.
    apply list_elem_of_fmap in Hc as (rec & -> & Hrec).
    exists rec. split; [|split; [done|]].
    { apply filter_NoDup_fmap; [apply rfm_aggregate_NoDup|done]. }
    pose proof Hrec as (ref & _ & _ & Heq)%elem_of_rfm_aggregate.
    assert (monetary rec = payments (rows_of (customer_id rec) df)) as Hm.
    { rewrite Heq at 1. simpl. apply series_sum_exact. }
    split; [rewrite Heq at 1; simpl; apply nunique_size|].
    intros Hex. split; [done|]. rewrite <- Hm. split.
    + rewrite (float_monetary_whole df Hex).
      set (h := λ r : customer_rfm, (customer_id r, f64_of_Z (monetary r))).
      apply (filter_NoDup_fmap fst _ (h rec)).
      * rewrite <- list_fmap_compose. apply rfm_aggregate_NoDup.
      * by apply (list_elem_of_fmap_2 h).
    + apply f64_value_whole. rewrite Hm. unfold payments, rows_of.
      rewrite <- series_sum_exact.
      eapply Z.le_lt_trans; [apply series_sum_abs|].
      rewrite <- list_fmap_compose.
      eapply Z.le_lt_trans; [apply series_sum_abs_filter|done].
  - apply float_monetary_of_customer.
  - apply group_sum_one.
  - apply group_sum_two.
Qed.

Lemma frequency_and_float_monetary_witness :
  exact_sums five_customers ∧
  (∃ rec,
     filter (λ x, customer_id x = "c4") (rfm_aggregate five_customers) = [rec] ∧
     frequency rec = 1 ∧ monetary rec = 40 ∧
     filter (λ row, row.1 = "c4") (Float64.monetary (float_rows five_customers)) =
       [ ("c4", f64_of_Z 40) ]) ∧
  filter (λ row, row.1 = "ana") (Float64.monetary two_payments) =
    [ ("ana", group_sum (Float64.total_payment
                 <$> filter (λ r, Float64.customer_unique_id r = "ana") two_payments)) ].
Proof.
  assert (exact_sums five_customers) as Hex by by_computation.
  split; [exact Hex|]. split.
  - destruct (proj1 frequency_and_float_monetary five_customers "c4"
                ltac:(by_computation)) as (rec & H1 & _ & H3 & H4).
    destruct (H4 Hex) as (H5 & H6 & _).
    exists rec. split; [exact H1|]. split; [exact H3|]. split; [exact H5|exact H6].
  - apply (proj1 (proj2 frequency_and_float_monetary) two_payments "ana").
    by_computation.
Defined.

End float_sums.

(** ** Returned tables against the input *)

Section returned_against_input.
Implicit Types (a : edge_arithmetic) (df : list order_row) (out : list rfm_record).

(** X4.  The customer table, and every table the engine returns, has as many
    rows as the Total Customers of the overview page, and every row of
    the input is among the rows of exactly one customer of the table:
    aggregation neither loses nor duplicates a customer or a payment.  So
    where the sums are exact the monetary column adds up to the Total
    Revenue of the overview page. *)
Theorem rfm_table_matches_overview df :
  Z.of_nat (length (rfm_aggregate df)) = total_customers df ∧
  mjoin ((λ c, rows_of (customer_id c) df) <$> rfm_aggregate df) ≡ₚ df ∧
  (exact_sums df → series_sum (monetary <$> rfm_aggregate df) = total_revenue df) ∧
  ∀ a out, rfm_engine_with a df = inr out →
           Z.of_nat (length out) = total_customers df ∧
           (exact_sums df →
            series_sum ((monetary ∘ rfm) <$> out) = total_revenue df).
Proof.
  split; [by rewrite total_customers_length|]. split.
  { rewrite (list_fmap_compose customer_id (λ k, rows_of k df)), rfm_aggregate_ids.
    apply (partition_by_keys customer_unique_id).
    - apply groupby_keys_NoDup.
    - intros r Hr. apply elem_of_groupby_keys. by apply list_elem_of_fmap_2. }
  split; [intros _; apply rfm_aggregate_revenue|].
  intros a out H. pose proof (rfm_engine_with_inr_rfm a df out H) as Hrfm. split.
  - by rewrite total_customers_length, <- Hrfm, length_fmap.
  - intros _. by rewrite <- rfm_aggregate_revenue, <- Hrfm, <- list_fmap_compose.
Qed.

Lemma rfm_table_matches_overview_witness :
  Z.of_nat (length five_customers_rfm) = total_customers five_customers ∧
  series_sum ((monetary ∘ rfm) <$> five_customers_rfm) = total_revenue five_customers.
Proof.
  destruct (proj2 (proj2 (proj2 (rfm_table_matches_overview five_customers)))
              float64_arithmetic five_customers_rfm ltac:(vm_compute; reflexivity)) as [Hn Hsum].
  split; [exact Hn|]. apply Hsum. by_computation.
Defined.

(** X8.  The customers, recencies and frequencies of the customer table do
    not depend on the order of the rows of the input; where the sums are
    exact neither does the monetary column, and then shuffling the rows
    changes neither the returned table nor the failure nor the page, in
    any arithmetic of the edges. *)
Theorem rfm_engine_row_order df df' :
  df ≡ₚ df' →
  (λ c, (customer_id c, recency c, frequency c)) <$> rfm_aggregate df =
  (λ c, (customer_id c, recency c, frequency c)) <$> rfm_aggregate df' ∧
  (exact_sums df →
   rfm_aggregate df = rfm_aggregate df' ∧
   ∀ a, rfm_engine_with a df = rfm_engine_with a df' ∧
        rfm_page_with a df = rfm_page_with a df').
Proof.
  intros Hdf. pose proof (rfm_aggregate_Permutation df df' Hdf) as Hagg.
  split; [by rewrite Hagg|]. intros _. split; [done|]. intros a.
  assert (rfm_engine_with a df = rfm_engine_with a df') as H.
  { unfold rfm_engine_with. by rewrite Hagg. }
  split; [done|]. unfold rfm_page_with. by rewrite H.
Qed.

Lemma rfm_engine_row_order_witness :
  (λ c, (customer_id c, recency c, frequency c)) <$> rfm_aggregate two_customers =
  (λ c, (customer_id c, recency c, frequency c))
    <$> rfm_aggregate [order "ana" "o2" 5 17; order "bo" "o1" 1 25] ∧
  rfm_aggregate two_customers = rfm_aggregate [order "ana" "o2" 5 17; order "bo" "o1" 1 25].
Proof.
  destruct (rfm_engine_row_order two_customers
              [order "ana" "o2" 5 17; order "bo" "o1" 1 25]) as [Hcols Hall].
  - apply perm_swap.
  - split; [exact Hcols|]. apply Hall. by_computation.
Defined.

(** X11.  In a returned table a customer who spent more never has the lower
    m_score, a customer whose last purchase is older never has the higher
    r_score, and a customer with more orders never has the lower f_score;
    equal monetary values get equal m_scores and equal recencies equal
    r_scores.  The edges are asked to obey the laws of quantiles. *)
Theorem scores_follow_values a df out r1 r2 :
  lawful_on a df → rfm_engine_with a df = inr out → r1 ∈ out → r2 ∈ out →
  (monetary (rfm r1) ≤ monetary (rfm r2) → m_score r1 ≤ m_score r2) ∧
  (recency (rfm r1) ≤ recency (rfm r2) → r_score r2 ≤ r_score r1) ∧
  (frequency (rfm r1) < frequency (rfm r2) → f_score r1 ≤ f_score r2) ∧
  (monetary (rfm r1) = monetary (rfm r2) → m_score r1 = m_score r2) ∧
  (recency (rfm r1) = recency (rfm r2) → r_score r1 = r_score r2).
Proof. apply returned_scores_follow. Qed.

Lemma scores_follow_values_witness :
  let r1 := score_row
    {| customer_id := "c2"; recency := 4; frequency := 1; monetary := 20 |} 2 2 2 in
  let r2 := score_row
    {| customer_id := "c4"; recency := 2; frequency := 1; monetary := 40 |} 4 4 4 in
  (monetary (rfm r1) ≤ monetary (rfm r2) → m_score r1 ≤ m_score r2) ∧
  (recency (rfm r1) ≤ recency (rfm r2) → r_score r2 ≤ r_score r1) ∧
  (frequency (rfm r1) < frequency (rfm r2) → f_score r1 ≤ f_score r2) ∧
  (monetary (rfm r1) = monetary (rfm r2) → m_score r1 = m_score r2) ∧
  (recency (rfm r1) = recency (rfm r2) → r_score r1 = r_score r2).
Proof.
  apply (scores_follow_values float64_arithmetic five_customers five_customers_rfm).
  - by_computation.
  - vm_compute. reflexivity.
  - in_table.
  - in_table.
Defined.

(** X12.  In a returned table the customers with the greatest monetary value
    have m_score 5 and those with the least have m_score 1; the customers
    with the oldest last purchase have r_score 1 and those with the most
    recent one r_score 5.  The edges are asked to obey the laws of
    quantiles. *)
Theorem extreme_scores a df out r :
  lawful_on a df → rfm_engine_with a df = inr out → r ∈ out →
  ((∀ b, b ∈ out → monetary (rfm b) ≤ monetary (rfm r)) → m_score r = 5) ∧
  ((∀ b, b ∈ out → monetary (rfm r) ≤ monetary (rfm b)) → m_score r = 1) ∧
  ((∀ b, b ∈ out → recency (rfm b) ≤ recency (rfm r)) → r_score r = 1) ∧
  ((∀ b, b ∈ out → recency (rfm r) ≤ recency (rfm b)) → r_score r = 5).
Proof. apply returned_extreme. Qed.

Lemma extreme_scores_witness :
  m_score (score_row
    {| customer_id := "c5"; recency := 1; frequency := 1; monetary := 1000 |} 5 5 5) = 5.
Proof.
  apply (proj1 (extreme_scores float64_arithmetic five_customers five_customers_rfm
                  (score_row {| customer_id := "c5"; recency := 1; frequency := 1;
                                monetary := 1000 |} 5 5 5)
                  ltac:(by_computation) ltac:(vm_compute; reflexivity) ltac:(in_table))).
  apply list.Forall_forall. by_computation.
Defined.

(** X13.  Scores are relative to the table: whatever the values, every returned
    table has a customer with score 1 and a customer with score 5 on each
    of the three axes.  The edges are asked to obey the laws of
    quantiles. *)
Theorem each_axis_uses_1_and_5 a df out :
  lawful_on a df → rfm_engine_with a df = inr out →
  (∃ r, r ∈ out ∧ r_score r = 1) ∧ (∃ r, r ∈ out ∧ r_score r = 5) ∧
  (∃ r, r ∈ out ∧ f_score r = 1) ∧ (∃ r, r ∈ out ∧ f_score r = 5) ∧
  (∃ r, r ∈ out ∧ m_score r = 1) ∧ (∃ r, r ∈ out ∧ m_score r = 5).
Proof. apply returned_uses_1_and_5. Qed.

Lemma each_axis_uses_1_and_5_witness :
  (∃ r, r ∈ five_customers_rfm ∧ r_score r = 1) ∧
  (∃ r, r ∈ five_customers_rfm ∧ r_score r = 5) ∧
  (∃ r, r ∈ five_customers_rfm ∧ f_score r = 1) ∧
  (∃ r, r ∈ five_customers_rfm ∧ f_score r = 5) ∧
  (∃ r, r ∈ five_customers_rfm ∧ m_score r = 1) ∧
  (∃ r, r ∈ five_customers_rfm ∧ m_score r = 5).
Proof.
  apply (each_axis_uses_1_and_5 float64_arithmetic five_customers).
  - by_computation.
  - vm_compute. reflexivity.
Defined.

(** X14.  A returned table has at least two customers, two different recencies
    and two different monetary values; with fewer than two customers the
    page shows the error of [pd.qcut], with its whole text.  The edges
    are asked to obey the laws of quantiles. *)
Theorem returned_table_needs_variety a df :
  lawful_on a df →
  (∀ out, rfm_engine_with a df = inr out →
     2 ≤ total_customers df ∧
     (∃ r1 r2, r1 ∈ out ∧ r2 ∈ out ∧ recency (rfm r1) ≠ recency (rfm r2)) ∧
     (∃ r1 r2, r1 ∈ out ∧ r2 ∈ out ∧ monetary (rfm r1) ≠ monetary (rfm r2))) ∧
  (total_customers df < 2 →
   ∃ x, x ∈ axes df ∧
        rfm_page_with a df =
          error_page (bin_edges_text (repr a (series_quantile a x 5)))).
Proof.
  intros Hlaw. split.
  - intros out H.
    destruct (rfm_engine_with_inr a df out H) as (_ & _ & _ & Hs & _).
    split.
    { destruct (Z.lt_ge_cases (total_customers df) 2) as [Hlt|]; [|done].
      by destruct (few_customers_not_scorable a df Hlaw Hlt). }
    pose proof Hlaw as (Lr & _ & Lm)%lawful_on_axes.
    pose proof Hs as (Hr & _ & Hm)%scorable_with_axes.
    split.
    + destruct (unique_edges_two_values a _ Lr Hr) as (u & v & Hu & Hv & Hne).
      destruct (column_of_returned a recency u H Hu) as (r1 & Hr1 & ->).
      destruct (column_of_returned a recency v H Hv) as (r2 & Hr2 & ->).
      by exists r1, r2.
    + destruct (unique_edges_two_values a _ Lm Hm) as (u & v & Hu & Hv & Hne).
      destruct (column_of_returned a monetary u H Hu) as (r1 & Hr1 & ->).
      destruct (column_of_returned a monetary v H Hv) as (r2 & Hr2 & ->).
      by exists r1, r2.
  - intros Hlt.
    destruct (rfm_engine_with_not_scorable a df (few_customers_not_scorable a df Hlaw Hlt))
      as (x & Hx & _ & H).
    exists x. split; [done|]. by rewrite (rfm_page_with_inl a df _ H).
Qed.

Lemma returned_table_needs_variety_witness :
  ∃ x, x ∈ axes one_customer ∧
       rfm_page_with float64_arithmetic one_customer =
         error_page (bin_edges_text (repr float64_arithmetic (series_quantile float64_arithmetic x 5))).
Proof.
  apply (proj2 (returned_table_needs_variety float64_arithmetic one_customer ltac:(by_computation))).
  by vm_compute.
Defined.

End returned_against_input.

(** ** The metrics and charts of the RFM page (lines 312-349) *)

Section rfm_metrics.
Implicit Types (df : list order_row) (out rfm_df : list rfm_record).

Lemma length_join {A} (ls : list (list A)) :
  length (mjoin ls) = sum_list (length <$> ls).
Proof. induction ls as [|l ls IH]; [done|]. simpl. by rewrite length_app, IH. Qed.

#[local] Instance ascending_total {A} : Total (@ascending A).
Proof. intros a b. unfold ascending. lia. Qed.

#[local] Instance descending_total {A} : Total (@descending A).
Proof. intros a b. unfold descending. lia. Qed.

Lemma segment_counts_perm rfm_df :
  segment_counts rfm_df ≡ₚ (λ g, (g.1, length g.2)) <$> groupby segment rfm_df.
Proof. apply merge_sort_Permutation. Qed.

(** X20.  The bars of the segment chart: one bar for each segment that has a
    customer, as long as the number of its customers, the shortest first.
    The bars add up to the number of customers, and the Champions and At
    Risk metrics are the lengths of the bars of these segments, or 0 when
    the chart has no such bar. *)
Theorem segment_counts_spec rfm_df :
  (∀ s n, (s, n) ∈ segment_counts rfm_df ↔ n = segment_size s rfm_df ∧ (1 ≤ n)%nat) ∧
  NoDup (segment_counts rfm_df).*1 ∧
  Sorted ascending (segment_counts rfm_df) ∧
  sum_list (segment_counts rfm_df).*2 = length rfm_df ∧
  (champions rfm_df = 0%nat ↔ "Champions" ∉ (segment_counts rfm_df).*1) ∧
  (at_risk rfm_df = 0%nat ↔ "At Risk" ∉ (segment_counts rfm_df).*1).
Proof.
  assert (∀ s n, (s, n) ∈ segment_counts rfm_df ↔
                 n = segment_size s rfm_df ∧ (1 ≤ n)%nat) as Hspec.
  { intros s n. rewrite segment_counts_perm, list_elem_of_fmap. split.
    - intros ([k g] & [= -> ->] & [-> Hne]%elem_of_groupby). simpl.
      split; [done|]. destruct (filter _ rfm_df); [done|simpl; lia].
    - intros [-> Hn]. exists (s, filter (λ rec, segment rec = s) rfm_df).
      split; [done|]. apply elem_of_groupby. split; [done|].
      intros Hnil. unfold segment_size in Hn. rewrite Hnil in Hn. simpl in Hn. lia. }
  assert (∀ s, segment_size s rfm_df = 0%nat ↔ s ∉ (segment_counts rfm_df).*1) as Hzero.
  { intros s. split.
    - intros Hz ([s' n] & -> & Hin)%list_elem_of_fmap. apply Hspec in Hin. simpl in *. lia.
    - intros Hnot. destruct (segment_size s rfm_df) as [|n] eqn:Hn; [done|].
      destruct Hnot. apply list_elem_of_fmap. exists (s, S n). split; [done|].
      apply Hspec. split; [done|lia]. }
  split; [done|]. split; [|split; [|split; [|split]]].
  - rewrite segment_counts_perm, <- list_fmap_compose. apply groupby_keys_NoDup.
  - apply Sorted_merge_sort, _.
  - rewrite segment_counts_perm, <- list_fmap_compose.
    rewrite <- (Permutation_length (groupby_join segment rfm_df)), length_join.
    by rewrite <- list_fmap_compose.
  - apply Hzero.
  - apply Hzero.
Qed.

Lemma segment_revenue_perm rfm_df :
  segment_revenue rfm_df ≡ₚ
  (λ g, (g.1, series_sum ((monetary ∘ rfm) <$> g.2))) <$> groupby segment rfm_df.
Proof. apply merge_sort_Permutation. Qed.

Lemma series_sum_Permutation (x y : list Z) : x ≡ₚ y → series_sum x = series_sum y.
Proof. intros. rewrite !series_sum_exact. by apply sum_Permutation. Qed.

Lemma NoDup_subseteq_length {A} (l k : list A) :
  NoDup l → (∀ x, x ∈ l → x ∈ k) → (length l ≤ length k)%nat.
Proof. intros Hnd Hsub. by apply submseteq_length, NoDup_submseteq. Qed.

(** X21.  The bars of the revenue chart of a returned table: at most eight, one
    for each segment that has a customer, the highest first; where the
    sums are exact they amount together to the total payment of the
    filtered input. *)
Theorem segment_revenue_spec (a : edge_arithmetic) df out :
  rfm_engine_with a df = inr out →
  Sorted descending (segment_revenue out) ∧
  NoDup (segment_revenue out).*1 ∧
  (∀ s, s ∈ (segment_revenue out).*1 ↔ (1 ≤ segment_size s out)%nat) ∧
  (∀ s, s ∈ (segment_revenue out).*1 → s ∈ segment_labels) ∧
  (length (segment_revenue out) ≤ 8)%nat ∧
  (exact_sums df → series_sum (segment_revenue out).*2 = total_revenue df).
Proof.
  intros H.
  assert ((segment_revenue out).*1 ≡ₚ (groupby segment out).*1) as Hkeys.
  { rewrite segment_revenue_perm. by rewrite <- list_fmap_compose. }
  assert (NoDup (segment_revenue out).*1) as Hnd
    by (rewrite Hkeys; apply groupby_keys_NoDup).
  assert (∀ s, s ∈ (segment_revenue out).*1 → s ∈ segment_labels) as Hlab.
  { intros s. rewrite Hkeys, elem_of_groupby_keys.
    intros (rec & -> & [i Hi]%list_elem_of_lookup)%list_elem_of_fmap.
    destruct (rfm_engine_with_inr_lookup a df out i rec H Hi) as (_ & _ & _ & _ & ->).
    apply rfm_segment_label. }
  split; [apply Sorted_merge_sort, _|]. split; [done|].
  split; [|split; [done|split]].
  - intros s. rewrite Hkeys, elem_of_groupby_keys. unfold segment_size. split.
    + intros (rec & -> & Hrec)%list_elem_of_fmap.
      assert (rec ∈ filter (λ rec', segment rec' = segment rec) out) as Hin
        by (by apply list_elem_of_filter).
      destruct (filter _ out); [by apply elem_of_nil in Hin|simpl; lia].
    + intros Hn. destruct (filter (λ rec, segment rec = s) out) as [|rec l] eqn:Hf;
        [simpl in Hn; lia|].
      assert (rec ∈ filter (λ rec, segment rec = s) out) as Hin by (rewrite Hf; left).
      apply list_elem_of_filter in Hin as [<- Hin]. by apply list_elem_of_fmap_2.
  - rewrite <- (length_fmap fst).
    by apply (NoDup_subseteq_length _ segment_labels).
  - intros _.
    rewrite (series_sum_Permutation _ _ (fmap_Permutation snd _ _ (segment_revenue_perm out))).
    rewrite <- list_fmap_compose.
    rewrite <- rfm_aggregate_revenue, <- (rfm_engine_with_inr_rfm a df out H).
    rewrite <- list_fmap_compose.
    by rewrite <- (series_sum_groups segment (monetary ∘ rfm) out).
Qed.

End rfm_metrics.

(** ** The geospatial page (lines 387-456) *)

Section geospatial.
Implicit Types (df : list main_row).

#[local] Instance by_revenue_total : Total by_revenue.
Proof. intros a b. unfold by_revenue. lia. Qed.

#[local] Instance by_revenue_trans : Transitive by_revenue.
Proof. intros a b c. unfold by_revenue. lia. Qed.

Lemma state_analysis_perm df :
  state_analysis df ≡ₚ agg_state <$> groupby customer_state df.
Proof. apply merge_sort_Permutation. Qed.

Lemma state_revenue_total df :
  series_sum (st_revenue <$> state_analysis df) = total_revenue (purchase <$> df).
Proof.
  rewrite (series_sum_Permutation _ _
             (fmap_Permutation st_revenue _ _ (state_analysis_perm df))).
  rewrite <- list_fmap_compose. unfold total_revenue.
  rewrite <- list_fmap_compose.
  by rewrite <- (series_sum_groups customer_state (total_payment ∘ purchase) df).
Qed.

(** X22.  The state table has one row for each state of the selection, the
    state with the highest revenue first, and every row of the selection
    is among the rows of exactly one state of the table; every row of the
    table counts at least one customer and one order, so that the revenue
    per customer of line 394 never divides by zero; and where the sums
    are exact the revenues add up to the total payment of the
    selection. *)
Theorem state_analysis_spec df :
  Sorted by_revenue (state_analysis df) ∧
  NoDup (st_state <$> state_analysis df) ∧
  (∀ s, s ∈ st_state <$> state_analysis df ↔ s ∈ customer_state <$> df) ∧
  mjoin ((λ row, filter (λ r, customer_state r = st_state row) df)
           <$> state_analysis df) ≡ₚ df ∧
  (∀ row, row ∈ state_analysis df → 1 ≤ st_customers row ∧ 1 ≤ st_orders row) ∧
  (∀ top rest, state_analysis df = top :: rest →
     ∀ row, row ∈ state_analysis df → st_revenue row ≤ st_revenue top) ∧
  (exact_sums (purchase <$> df) →
   series_sum (st_revenue <$> state_analysis df) = total_revenue (purchase <$> df)).
Proof.
  assert (st_state <$> state_analysis df ≡ₚ (groupby customer_state df).*1) as Hkeys.
  { rewrite state_analysis_perm. by rewrite <- list_fmap_compose. }
  split; [apply Sorted_merge_sort, _|].
  split; [rewrite Hkeys; apply groupby_keys_NoDup|].
  split; [intros s; by rewrite Hkeys, elem_of_groupby_keys|].
  split; [|split; [|split]].
  - assert ((λ row, filter (λ r, customer_state r = st_state row) df) <$> state_analysis df =
            (λ k, filter (λ r, customer_state r = k) df) <$> (st_state <$> state_analysis df))
      as -> by (by rewrite <- list_fmap_compose).
    apply (partition_by_keys customer_state).
    + rewrite Hkeys. apply groupby_keys_NoDup.
    + intros r Hr. rewrite Hkeys. apply elem_of_groupby_keys.
      by apply list_elem_of_fmap_2.
  - intros row. rewrite state_analysis_perm.
    intros ([k g] & -> & [_ Hne]%elem_of_groupby)%list_elem_of_fmap.
    simpl. unfold nunique.
    pose proof (length_remove_dups_pos ((customer_unique_id ∘ purchase) <$> g)) as Hc.
    pose proof (length_remove_dups_pos ((order_id ∘ purchase) <$> g)) as Ho.
    specialize (Hc ltac:(by intros ?%fmap_nil_inv)).
    specialize (Ho ltac:(by intros ?%fmap_nil_inv)). lia.
  - intros top rest Heq row Hrow.
    assert (StronglySorted by_revenue (state_analysis df)) as Hs
      by (apply StronglySorted_merge_sort; apply _).
    rewrite Heq in Hs, Hrow. apply StronglySorted_inv in Hs as [_ Hall].
    apply elem_of_cons in Hrow as [->|Hrow]; [done|].
    rewrite list.Forall_forall in Hall. by apply Hall.
  - intros _. apply state_revenue_total.
Qed.

Lemma strongly_sorted_take_drop {A} (R : relation A) (l : list A) (n : nat) (x y : A) :
  StronglySorted R l → x ∈ take n l → y ∈ drop n l → R x y.
Proof.
  intros Hs. revert n. induction Hs as [|z l Hs IH Hall]; intros n Hx Hy.
  - rewrite take_nil in Hx. by apply elem_of_nil in Hx.
  - destruct n as [|n]; [by apply elem_of_nil in Hx|]. simpl in Hx, Hy.
    apply elem_of_cons in Hx as [->|Hx].
    + rewrite list.Forall_forall in Hall. apply Hall.
      by eapply elem_of_sublist, sublist_drop.
    + by apply (IH n).
Qed.

(** X23.  The bar charts of lines 419-445 take ten states; with at least ten the
    pie chart is reached and shows eleven slices: the ten states with the
    highest revenue, each under its own label, and 'Others' for the rest,
    none of which has more revenue than any of the ten.  With exactly ten
    states 'Others' is 0, and where the sums are exact the slices add up
    to the total payment of the selection. *)
Theorem pie_chart_spec df :
  let sa := state_analysis df in
  (10 ≤ length sa)%nat →
  length (pie_data sa) = 11%nat ∧
  length (pie_labels sa) = 11%nat ∧
  list.last (pie_labels sa) = Some "Others" ∧
  (∀ (i : nat) row, (i < 10)%nat → sa !! i = Some row →
     pie_data sa !! i = Some (st_revenue row) ∧ pie_labels sa !! i = Some (st_state row)) ∧
  (∀ row row', row ∈ take 10 sa → row' ∈ drop 10 sa → st_revenue row' ≤ st_revenue row) ∧
  (length sa = 10%nat → list.last (pie_data sa) = Some 0) ∧
  (exact_sums (purchase <$> df) →
   series_sum (pie_data sa) = total_revenue (purchase <$> df)).
Proof.
  intros sa Hlen. unfold pie_data, pie_labels.
  split; [|split; [|split; [|split; [|split; [|split]]]]].
  - rewrite length_app, length_fmap, length_take. cbn [length]. lia.
  - rewrite length_app, length_fmap, length_take. cbn [length]. lia.
  - by rewrite last_snoc.
  - intros i row Hi Hrow.
    rewrite !lookup_app_l by (rewrite length_fmap, length_take; lia).
    rewrite !list_lookup_fmap, !lookup_take_lt by done. by rewrite Hrow.
  - intros row row' Hrow Hrow'.
    apply (strongly_sorted_take_drop by_revenue sa 10 row row'); [|done..].
    apply StronglySorted_merge_sort; apply _.
  - intros Hten. rewrite last_snoc. by rewrite drop_ge by lia.
  - intros _. rewrite <- (state_revenue_total df). fold sa.
    rewrite !series_sum_exact, sum_app. simpl.
    rewrite <- (take_drop 10 sa) at 3.
    rewrite fmap_app, sum_app. lia.
Qed.

End geospatial.

(** ** The theorems at work on the example tables *)

Section witnesses.

Lemma categorize_delay_thresholds_witness :
  categorize_delay (delivery_delay_days
    {| purchase := order "c1" "o3" 4 5; customer_state := "SP";
       delivery_delay_days := NaN |}) = ">14 days late".
Proof.
  apply (proj2 (proj2 (proj2 (proj2 (categorize_delay_thresholds NaN))))).
  by left.
Defined.

Lemma frequencies_cover_orders_witness :
  series_sum (frequency <$> rfm_aggregate one_customer) = total_orders one_customer.
Proof.
  apply (proj2 (frequencies_cover_orders one_customer)).
  intros r1 r2 H1 H2 _. unfold one_customer in H1, H2.
  set_unfold in H1. set_unfold in H2.
  destruct H1 as [->|[->|[]]], H2 as [->|[->|[]]]; reflexivity.
Defined.

Lemma aggregate_bounds_witness :
  1 ≤ 1 ≤ Z.of_nat (length (rows_of "c4" five_customers)) ∧
  ((∀ r, r ∈ five_customers → 0 ≤ total_payment r) → 0 ≤ 40).
Proof.
  apply (aggregate_bounds five_customers
           {| customer_id := "c4"; recency := 2; frequency := 1; monetary := 40 |}).
  in_table.
Defined.

Lemma most_recent_customer_witness :
  ∃ rec, rec ∈ rfm_aggregate five_customers ∧ recency rec = 1 ∧
         ∀ rec', rec' ∈ rfm_aggregate five_customers → recency rec ≤ recency rec'.
Proof. apply (most_recent_customer five_customers). done. Defined.

Lemma initial_selection_keeps_all_witness :
  filtered_df [1; 4] "All" main_example = main_example.
Proof. apply (initial_selection_keeps_all main_example); reflexivity. Defined.

Lemma filtered_df_spec_witness :
  {| purchase := order "c1" "o3" 4 5; customer_state := "SP";
     delivery_delay_days := NaN |} ∈ filtered_df [2; 4] "SP" main_example.
Proof.
  apply (proj2 (filtered_df_spec [2; 4] "SP" main_example)).
  split; [in_table|]. split.
  - intros d0 d1 [= <- <-]. by vm_compute.
  - done.
Defined.

Lemma selection_shrinks_witness :
  ∃ rec', rec' ∈ rfm_aggregate (purchase <$> main_example) ∧
          customer_id rec' = "c1" ∧ 1 ≤ frequency rec' ∧
          ((∀ r, r ∈ purchase <$> main_example → 0 ≤ total_payment r) →
           5 ≤ monetary rec').
Proof.
  apply (proj2 (proj2 (selection_shrinks [2; 4] "SP" main_example))
           {| customer_id := "c1"; recency := 1; frequency := 1; monetary := 5 |}).
  in_table.
Defined.

Lemma states_spec_witness :
  ∃ rest,
    states main_example = "All" :: rest ∧
    Sorted String.le rest ∧ NoDup rest ∧
    (∀ s, s ∈ rest ↔ s ∈ customer_state <$> main_example) ∧
    ∀ s d0 d1,
      s ∈ rest → min_date main_example = Some d0 → max_date main_example = Some d1 →
      filtered_df [d0; d1] s main_example ≠ [].
Proof. apply (states_spec main_example). Defined.

Lemma segment_counts_spec_witness :
  ("Champions", 2%nat) ∈ segment_counts five_customers_rfm.
Proof.
  apply (proj1 (segment_counts_spec five_customers_rfm) "Champions" 2%nat).
  split; [reflexivity|lia].
Defined.

Lemma segment_revenue_spec_witness :
  Sorted descending (segment_revenue five_customers_rfm) ∧
  NoDup (segment_revenue five_customers_rfm).*1 ∧
  (∀ s, s ∈ (segment_revenue five_customers_rfm).*1 ↔
        (1 ≤ segment_size s five_customers_rfm)%nat) ∧
  (∀ s, s ∈ (segment_revenue five_customers_rfm).*1 → s ∈ segment_labels) ∧
  (length (segment_revenue five_customers_rfm) ≤ 8)%nat ∧
  (exact_sums five_customers →
   series_sum (segment_revenue five_customers_rfm).*2 = total_revenue five_customers).
Proof.
  apply (segment_revenue_spec float64_arithmetic five_customers). vm_compute. reflexivity.
Defined.

Lemma state_analysis_spec_witness :
  1 ≤ 1 ∧ 1 ≤ 2.
Proof.
  apply (proj1 (proj2 (proj2 (proj2 (proj2 (state_analysis_spec main_example)))))
           {| st_state := "SP"; st_customers := 1; st_orders := 2; st_revenue := 15 |}).
  in_table.
Defined.

Lemma pie_chart_spec_witness :
  length (pie_data (state_analysis eleven_states)) = 11%nat ∧
  list.last (pie_labels (state_analysis eleven_states)) = Some "Others".
Proof.
  destruct (pie_chart_spec eleven_states) as (Hdata & _ & Hlast & _).
  - vm_compute. lia.
  - by split.
Defined.

End witnesses.
